(** * BB84 quantum key distribution simulator: the simulation service

    A shallow embedding of [runBB84Simulation] (services/qkdService.ts) with
    the types of types.ts and the constants of constants.ts, and the
    properties of the pipeline: measurement, basis sifting, QBER estimation,
    block-parity reconciliation and hash-and-truncate privacy amplification.
    Beside the service stand its helper [bitsToHex] and, from
    components/QkdSimulator.tsx, the state of the component with the handler
    that calls the service.

    Conventions of the embedding.
    - JavaScript arrays are lists; [a[i]] is stdpp's [a !! i], whose [None]
      is JavaScript's [undefined]; where the index is within the array by
      construction, [a !!! i] is used.
    - The numeric parameters range over the integers (the form feeds the
      service with [parseInt] results); the two places where the service
      computes with fractions, the sample count and the error rate, use
      IEEE 754 binary64 arithmetic, as JavaScript does. Integer arithmetic
      on indices and lengths is exact in binary64 and is done in [Z].
    - [Math.random] is a stream of draws, threaded through the code in the
      order of the calls.
    - The promise returned by the [async] function is an [Outcome]. The
      service is given twice: first on a host whose digest fulfils, where
      the hash is a function of the message, and then on any host, where
      the digest may fail and its error reaches the caller. *)

From Stdlib Require Import ZArith Ascii String Floats.SpecFloat.
From stdpp Require Import base tactics decidable option numbers list strings.

(** ** types.ts *)

Inductive Bit := ZERO | ONE.
Inductive Basis := RECTILINEAR | DIAGONAL.

#[global] Instance Bit_eq_dec : EqDecision Bit.
Proof. solve_decision. Defined.
#[global] Instance Basis_eq_dec : EqDecision Basis.
Proof. solve_decision. Defined.
#[global] Instance Bit_inhabited : Inhabited Bit := populate ZERO.
#[global] Instance Basis_inhabited : Inhabited Basis := populate RECTILINEAR.

(** The numeric value of the enum member, [Bit.ZERO = 0], [Bit.ONE = 1]. *)
Definition Bit_value (b : Bit) : Z :=
  match b with ZERO => 0 | ONE => 1 end.

(** ** JavaScript numbers *)

Module JSNumber.

(** A [number] is a binary64 float. *)
Definition number := spec_float.
Definition prec : Z := 53.
Definition emax : Z := 1024.

(** The number denoted by an integer (rounded to nearest when the integer
    has more than 53 significant bits). *)
Definition of_Z (z : Z) : number := binary_normalize prec emax z 0 false.
Definition of_nat (n : nat) : number := of_Z (Z.of_nat n).

Definition mul (x y : number) : number := SFmul prec emax x y.
Definition div (x y : number) : number := SFdiv prec emax x y.

(** [x > y] *)
Definition gt (x y : number) : bool := SFltb y x.

(** An integral number, or one of the three values that are not. *)
Inductive integral :=
| Finite (z : Z)
| PlusInfinity
| MinusInfinity
| NotANumber.

(** [Math.ceil(x)]; the sign of a zero result is dropped. *)
Definition Math_ceil (x : number) : integral :=
  match x with
  | S754_zero _ => Finite 0
  | S754_infinity false => PlusInfinity
  | S754_infinity true => MinusInfinity
  | S754_nan => NotANumber
  | S754_finite s m e =>
      let v := cond_Zopp s (Z.pos m) in
      Finite (if (0 <=? e)%Z then v * 2 ^ e else - ((- v) / 2 ^ (- e)))%Z
  end.

(** [n > 0] for an integral [n]. *)
Definition gt_zero (n : integral) : bool :=
  match n with
  | Finite z => (0 <? z)%Z
  | PlusInfinity => true
  | MinusInfinity | NotANumber => false
  end.

(** How often the test [i < n] of [for (let i = 0; i < n; i++)] succeeds;
    [None] when it always does. The counter is a number too: it counts up
    to [2 ^ 53] and stays there, since [2 ^ 53 + 1] rounds to [2 ^ 53], so
    the test never fails for a bound above [2 ^ 53]. *)
Definition loop_bound (n : integral) : option nat :=
  match n with
  | Finite z => if (z <=? 2 ^ 53)%Z then Some (Z.to_nat z) else None
  | PlusInfinity => None
  | MinusInfinity | NotANumber => Some 0
  end.

(** The number as a float again, for the division by the sample count. *)
Definition of_integral (n : integral) : number :=
  match n with
  | Finite z => of_Z z
  | PlusInfinity => S754_infinity false
  | MinusInfinity => S754_infinity true
  | NotANumber => S754_nan
  end.

End JSNumber.
Export JSNumber.

(** ** JavaScript arrays *)

(** The position an argument of [slice] denotes in an array of [len]
    elements: negative arguments count from the end, and the result is
    kept within the array. *)
Definition relative_index (len : nat) (k : integral) : nat :=
  match k with
  | Finite z =>
      if (z <? 0)%Z then Z.to_nat (Z.max (Z.of_nat len + z) 0)
      else Z.to_nat (Z.min z (Z.of_nat len))
  | PlusInfinity => len
  | MinusInfinity | NotANumber => 0
  end.

(** [l.slice(start, end)], and [l.slice(start)] when [end_] is [None]. *)
Definition Array_slice {A} (l : list A) (start : integral)
    (end_ : option integral) : list A :=
  let k := relative_index (length l) start in
  let final :=
    match end_ with
    | None => length l
    | Some e => relative_index (length l) e
    end in
  take (final - k) (drop k l).

(** [ToLength] of the [length] property handed to [Array.from]. *)
Definition ToLength (n : Z) : nat := Z.to_nat n.

(** The largest length an array can have, 2^32 - 1. *)
Definition MAX_ARRAY_LENGTH : Z := 4294967295.

(** ** The random source *)

(** [s n] tells whether the [n]-th coming call of [Math.random()] returns a
    value below 0.5. *)
Definition RandomSource := nat → bool.

Definition Rand (A : Type) : Type := RandomSource → A * RandomSource.

Definition ret {A} (x : A) : Rand A := λ s, (x, s).
Definition bind {A B} (m : Rand A) (k : A → Rand B) : Rand B :=
  λ s, let '(x, s') := m s in k x s'.

Notation "x <- m ;; k" := (bind m (λ x, k))
  (at level 100, m at next level, right associativity).

Definition Math_random_below_half : Rand bool :=
  λ s, (s 0, λ n, s (S n)).

Definition getRandomBit : Rand Bit :=
  b <- Math_random_below_half ;; ret (if b then ZERO else ONE).

Definition getRandomBasis : Rand Basis :=
  b <- Math_random_below_half ;; ret (if b then RECTILINEAR else DIAGONAL).

(** [Array.from({ length }, f)]: [f] is called once per element, first
    element first. *)
Fixpoint Array_from {A} (len : nat) (f : Rand A) : Rand (list A) :=
  match len with
  | 0 => ret []
  | S n => x <- f ;; xs <- Array_from n f ;; ret (x :: xs)
  end.

(** ** types.ts, continued *)

Record QBERResult := {
  qber : number;
  errors : nat;
  sampleSize : integral;
}.

Record SimulationParameters := {
  numQubits : Z;
  qberSampleSize : Z; (* Percentage *)
  errorCorrectionBlockSize : Z;
  privacyAmplificationLength : Z;
  enableEve : bool;
  enableSecureMode : bool;
}.

(** The lines of the log. Each constructor is one [log.push] of the service
    and carries the values its template string interpolates. *)
Inductive LogEntry :=
| LogStarting                        (* Starting BB84 Simulation... *)
| LogParameters (params : SimulationParameters) (* Parameters: {...} *)
| LogAlicePrepared (n : Z)           (* Alice prepared n qubits with random bits and bases. *)
| LogEveEnabled                      (* Eve is enabled: Performing intercept-resend attack. *)
| LogEveResent                       (* Eve intercepted, measured, and re-sent qubits to Bob ... *)
| LogBobMeasured (n : Z)             (* Bob measured n qubits with random bases. *)
| LogSifted (len : nat)              (* Basis Sifting completed. Sifted key length: len bits. *)
| LogNoMatchingBases                 (* No matching bases. Simulation cannot proceed with QBER, ... *)
| LogQBERCheck (sample : integral) (errs : nat) (q : number)
                                     (* QBER Check: Sample size .. bits. Errors found: ... QBER: ..%. *)
| LogAlert (q : number)              (* ALERT: QBER (..%) exceeds threshold (..%). Eavesdropping detected! Key discarded. *)
| LogEveSuspected (q : number)       (* Note: QBER (..%) is higher than expected. Eve might be present, ... *)
| LogMinorQBER (q : number)          (* Note: Minor QBER detected (..%). ... *)
| LogKeyForErrorCorrection (len : nat) (* Key for Error Correction: Remaining len bits after QBER sampling. *)
| LogErrorCorrectionCompleted (n : nat) (* Error Correction completed. n errors corrected in the remaining key. *)
| LogKeysMismatch                    (* ERROR: Keys do not perfectly match after error correction! ... *)
| LogKeysReconciled                  (* Keys successfully reconciled: Alice and Bob now share an identical key ... *)
| LogCannotAmplify                   (* Cannot perform Privacy Amplification: Pre-amplified key is empty. *)
| LogPrivacyAmplificationCompleted (bits : Z)
                                     (* Privacy Amplification completed (SHA-256 hashing and truncation). ... *)
| LogFinalKeyAlice (hex : string)    (* Final Shared Key (Alice - Hex): hex *)
| LogFinalKeyBob (hex : string).     (* Final Shared Key (Bob - Hex): hex *)

Record SimulationResult := {
  initialQubits : Z;
  siftedKeyLength : nat;
  qberResult : option QBERResult;
  eveDetected : bool;
  errorsCorrected : nat;
  finalKeyAlice : string; (* Hex representation *)
  finalKeyBob : string; (* Hex representation *)
  log : list LogEntry;
}.

(** What becomes of the promise of the [async] function: it resolves with a
    result, it is rejected with the [RangeError] of an array that cannot be
    built or with the error of a digest that fails, or it never settles
    because a loop of the service does not end. *)
Inductive Outcome :=
| Resolved (result : SimulationResult)
| RangeError
| DigestFailure
| NoTermination.

(** ** constants.ts *)

(** [QBER_THRESHOLD = 0.11]: the binary64 number nearest to 11/100. *)
Definition QBER_THRESHOLD : number :=
  S754_finite false 7926335344172073 (-56).

(** [DEFAULT_SIMULATION_PARAMETERS] *)
Definition DEFAULT_SIMULATION_PARAMETERS : SimulationParameters :=
  {| numQubits := 800;
     qberSampleSize := 20; (* Percentage *)
     errorCorrectionBlockSize := 32;
     privacyAmplificationLength := 128;
     enableEve := false;
     enableSecureMode := false |}.

(** ** services/qkdService.ts: transmission *)

(** The measurement loop, written twice in the service with the same body:
    once for Eve, who measures Alice's qubits, and once for Bob, who
    measures what was transmitted.
<<
    for (let i = 0; i < numQubits; i++) {
      if (sentBases[i] === chosenBases[i]) bit = sentBits[i];
      else bit = getRandomBit();
      measuredBits.push(bit);
    }
>>
    [count] is the number of iterations left and [i] the loop variable. *)
Fixpoint measure_loop (count i : nat) (sentBits : list Bit)
    (sentBases chosenBases : list Basis) (measuredBits : list Bit)
    : Rand (list Bit) :=
  match count with
  | 0 => ret measuredBits
  | S count' =>
      bit <- (if decide (sentBases !! i = chosenBases !! i)
              then ret (sentBits !!! i)
              else getRandomBit) ;;
      measure_loop count' (S i) sentBits sentBases chosenBases
        (measuredBits ++ [bit])
  end.

(** The sequences of one run, index-aligned. *)
Record Transmission := {
  aliceBits : list Bit;
  aliceBases : list Basis;
  transmittedBits : list Bit;
  transmittedBases : list Basis;
  bobBases : list Basis;
  bobMeasuredBits : list Bit;
}.

(** Steps 1 and 2 of the service with the optional intercept-resend attack
    between them. *)
Definition transmit (params : SimulationParameters) : Rand Transmission :=
  let n := numQubits params in
  (* 1. Alice Prepares Qubits *)
  aliceBits <- Array_from (ToLength n) getRandomBit ;;
  aliceBases <- Array_from (ToLength n) getRandomBasis ;;
  (* Optional: Eve Intercept-Resend Attack *)
  transmitted <-
    (if enableEve params then
       eveBases <- Array_from (ToLength n) getRandomBasis ;;
       eveMeasuredBits <-
         measure_loop (Z.to_nat n) 0 aliceBits aliceBases eveBases [] ;;
       ret (eveMeasuredBits, eveBases)
     else ret (aliceBits, aliceBases)) ;;
  (* 2. Bob Measures Qubits *)
  bobBases <- Array_from (ToLength n) getRandomBasis ;;
  bobMeasuredBits <-
    measure_loop (Z.to_nat n) 0 transmitted.1 transmitted.2 bobBases [] ;;
  ret {| aliceBits := aliceBits; aliceBases := aliceBases;
         transmittedBits := transmitted.1; transmittedBases := transmitted.2;
         bobBases := bobBases; bobMeasuredBits := bobMeasuredBits |}.

(** ** 3. Basis Sifting *)

(** The sifting loop; the state is the pair of sifted keys. (The counter
    [initialSiftedErrors] of the service is never read and is left out.) *)
Fixpoint sift_loop (count i : nat) (t : Transmission)
    (sifted : list Bit * list Bit) : list Bit * list Bit :=
  match count with
  | 0 => sifted
  | S count' =>
      sift_loop count' (S i) t
        (if decide (aliceBases t !! i = bobBases t !! i)
         then (sifted.1 ++ [aliceBits t !!! i],
               sifted.2 ++ [bobMeasuredBits t !!! i])
         else sifted)
  end.

Definition sift (numQubits : Z) (t : Transmission) : list Bit * list Bit :=
  sift_loop (Z.to_nat numQubits) 0 t ([], []).

(** ** 4. Parameter Estimation (QBER) *)

Definition qberSampleCount (siftedKeyLength : nat) (qberSampleSize : Z)
    : integral :=
  Math_ceil (mul (of_nat siftedKeyLength)
                 (div (of_Z qberSampleSize) (of_Z 100))).

(** The comparison loop over the sample. *)
Fixpoint count_errors (count i : nat) (siftedAliceKey siftedBobKey : list Bit)
    (qberErrors : nat) : nat :=
  match count with
  | 0 => qberErrors
  | S count' =>
      count_errors count' (S i) siftedAliceKey siftedBobKey
        (if decide (siftedAliceKey !! i ≠ siftedBobKey !! i)
         then S qberErrors else qberErrors)
  end.

(** The estimate, or [None] when the comparison loop does not end. *)
Definition estimateQBER (siftedAliceKey siftedBobKey : list Bit)
    (qberSampleSize : Z) : option QBERResult :=
  let qberSampleCount :=
    qberSampleCount (length siftedAliceKey) qberSampleSize in
  match loop_bound qberSampleCount with
  | None => None
  | Some count =>
      let qberErrors := count_errors count 0 siftedAliceKey siftedBobKey 0 in
      let qber :=
        if gt_zero qberSampleCount
        then div (of_nat qberErrors) (of_integral qberSampleCount)
        else of_Z 0 in
      Some {| qber := qber; errors := qberErrors;
              sampleSize := qberSampleCount |}
  end.

(** ** 5. Error Correction *)

(** [block.reduce((acc, bit) => acc ^ bit, 0)] *)
Definition parity (block : list Bit) : Z :=
  fold_left (λ acc bit, Z.lxor acc (Bit_value bit)) block 0%Z.

(** The inner loop: the first [j] below [currentBlockLength] with
    [aliceBlock[j] !== bobBlock[j]], where the loop breaks. *)
Fixpoint find_error (count j : nat) (aliceBlock bobBlock : list Bit)
    : option nat :=
  match count with
  | 0 => None
  | S count' =>
      if decide (aliceBlock !! j ≠ bobBlock !! j) then Some j
      else find_error count' (S j) aliceBlock bobBlock
  end.

(** The body of the loop over the blocks, for the block that starts at [i];
    the state is [sharedKeyAfterEC] with [errorsCorrectedCount]. The
    assignment [sharedKeyAfterEC[i + j] = aliceBlock[j]] is within the
    array, since [j] is below the length of Alice's block and the two keys
    are equally long. *)
Definition reconcile_block (errorCorrectionBlockSize : Z)
    (keyForErrorCorrectionAlice : list Bit) (i : Z)
    (state : list Bit * nat) : list Bit * nat :=
  let aliceBlock :=
    Array_slice keyForErrorCorrectionAlice (Finite i)
      (Some (Finite (i + errorCorrectionBlockSize))) in
  let bobBlock :=
    Array_slice state.1 (Finite i)
      (Some (Finite (i + errorCorrectionBlockSize))) in
  let currentBlockLength :=
    Z.min errorCorrectionBlockSize (Z.of_nat (length aliceBlock)) in
  if (currentBlockLength =? 0)%Z then state (* continue *)
  else
    let aliceParity :=
      parity (Array_slice aliceBlock (Finite 0)
                (Some (Finite currentBlockLength))) in
    let bobParity :=
      parity (Array_slice bobBlock (Finite 0)
                (Some (Finite currentBlockLength))) in
    if decide (aliceParity ≠ bobParity) then
      match find_error (Z.to_nat currentBlockLength) 0
              aliceBlock bobBlock with
      | Some j =>
          (<[Z.to_nat (i + Z.of_nat j) := aliceBlock !!! j]> state.1,
           S state.2)
      | None => state
      end
    else state.

(** The loop over the blocks,
    [for (let i = 0; i < preECKeyLength; i += errorCorrectionBlockSize)].
    [fuel] bounds the number of iterations, and the result is [None] when
    it does not suffice. *)
Fixpoint reconcile_loop (fuel : nat) (errorCorrectionBlockSize : Z)
    (keyForErrorCorrectionAlice : list Bit) (i : Z)
    (state : list Bit * nat) : option (list Bit * nat) :=
  if (i <? Z.of_nat (length keyForErrorCorrectionAlice))%Z then
    match fuel with
    | 0 => None
    | S fuel' =>
        reconcile_loop fuel' errorCorrectionBlockSize
          keyForErrorCorrectionAlice (i + errorCorrectionBlockSize)
          (reconcile_block errorCorrectionBlockSize
             keyForErrorCorrectionAlice i state)
    end
  else Some state.

(** Step 5 on the two remainders: Bob's corrected key and the number of
    corrections, or [None] when the loop over the blocks does not end. One
    iteration per element is enough fuel whenever the loop advances. *)
Definition errorCorrection (errorCorrectionBlockSize : Z)
    (keyForErrorCorrectionAlice keyForErrorCorrectionBob : list Bit)
    : option (list Bit * nat) :=
  reconcile_loop (length keyForErrorCorrectionAlice) errorCorrectionBlockSize
    keyForErrorCorrectionAlice 0 (keyForErrorCorrectionBob, 0).

(** [alice.every((bit, index) => bit === shared[index])] *)
Definition keysMatch (keyForErrorCorrectionAlice sharedKeyAfterEC : list Bit)
    : bool :=
  forallb id
    (imap (λ index bit, bool_decide (Some bit = sharedKeyAfterEC !! index))
       keyForErrorCorrectionAlice).

(** ** 6. Privacy Amplification *)

(** [crypto.subtle.digest('SHA-256', bytes)], the hash function of
    FIPS 180-4, on bytes and 32-bit words held in [Z]. *)
Module SHA256.
Local Open Scope Z_scope.

(** Addition of words is modulo 2^32. *)
Definition wrap (x : Z) : Z := x mod 2 ^ 32.
Definition rotr (n x : Z) : Z :=
  Z.lor (Z.shiftr x n) (wrap (Z.shiftl x (32 - n))).
Definition Ch (x y z : Z) : Z :=
  Z.lxor (Z.land x y) (Z.land (Z.lxor x 0xffffffff) z).
Definition Maj (x y z : Z) : Z :=
  Z.lxor (Z.lxor (Z.land x y) (Z.land x z)) (Z.land y z).
Definition Sigma0 (x : Z) : Z :=
  Z.lxor (Z.lxor (rotr 2 x) (rotr 13 x)) (rotr 22 x).
Definition Sigma1 (x : Z) : Z :=
  Z.lxor (Z.lxor (rotr 6 x) (rotr 11 x)) (rotr 25 x).
Definition sigma0 (x : Z) : Z :=
  Z.lxor (Z.lxor (rotr 7 x) (rotr 18 x)) (Z.shiftr x 3).
Definition sigma1 (x : Z) : Z :=
  Z.lxor (Z.lxor (rotr 17 x) (rotr 19 x)) (Z.shiftr x 10).

(** The primes below 312, by trial division: the first 64 of them. *)
Definition is_prime (n : Z) : bool :=
  forallb (λ d, negb (n mod d =? 0)) (seqZ 2 (n - 2)).

Definition primes : list Z :=
  List.filter is_prime (seqZ 2 310).

(** The greatest [r] between [lo] and [hi] with [r ^ k <= target], by
    bisection. *)
Fixpoint root_search (fuel : nat) (k lo hi target : Z) : Z :=
  match fuel with
  | O => lo
  | S fuel' =>
      let mid := (lo + hi) / 2 in
      if mid ^ k <=? target then root_search fuel' k mid hi target
      else root_search fuel' k lo mid target
  end.

(** The first 32 bits of the fractional part of the [k]-th root of [p]. *)
Definition root_fraction (k p : Z) : Z :=
  root_search 40 k 0 (2 ^ 36) (p * 2 ^ (32 * k)) mod 2 ^ 32.

(** The round constants: from the cube roots of the first 64 primes. *)
Definition K : list Z := map (root_fraction 3) primes.

(** The [n] big-endian bytes of a number. *)
Fixpoint be_bytes (n : nat) (x : Z) : list Z :=
  match n with
  | O => []
  | S n' => be_bytes n' (x / 256) ++ [x mod 256]
  end.

(** The message, the bit 1, zeros up to 56 modulo 64 bytes, and the
    length of the message in bits as a 64-bit number. *)
Definition pad (message : list Z) : list Z :=
  let len := Z.of_nat (length message) in
  message ++ [0x80] ++ replicate (Z.to_nat ((55 - len) mod 64)) 0
    ++ be_bytes 8 (8 * len).

Fixpoint be_words (count : nat) (bytes : list Z) : list Z :=
  match count with
  | O => []
  | S count' =>
      fold_left (λ acc b, acc * 256 + b) (take 4 bytes) 0
        :: be_words count' (drop 4 bytes)
  end.

(** The message schedule; [w] holds the words so far, latest first. *)
Fixpoint schedule (count : nat) (w : list Z) : list Z :=
  match count with
  | O => w
  | S count' =>
      schedule count'
        (wrap (sigma1 (w !!! 1%nat) + w !!! 6%nat
               + sigma0 (w !!! 14%nat) + w !!! 15%nat) :: w)
  end.

Record state := State {
  sa : Z; sb : Z; sc : Z; sd : Z; se : Z; sf : Z; sg : Z; sh : Z
}.

Definition round (s : state) (kw : Z * Z) : state :=
  let t1 := sh s + Sigma1 (se s) + Ch (se s) (sf s) (sg s) + kw.1 + kw.2 in
  let t2 := Sigma0 (sa s) + Maj (sa s) (sb s) (sc s) in
  State (wrap (t1 + t2)) (sa s) (sb s) (sc s)
        (wrap (sd s + t1)) (se s) (sf s) (sg s).

Definition compress (h : state) (block : list Z) : state :=
  let w := reverse (schedule 48 (reverse (be_words 16 block))) in
  let s := fold_left round (zip K w) h in
  State (wrap (sa h + sa s)) (wrap (sb h + sb s)) (wrap (sc h + sc s))
        (wrap (sd h + sd s)) (wrap (se h + se s)) (wrap (sf h + sf s))
        (wrap (sg h + sg s)) (wrap (sh h + sh s)).

Fixpoint blocks (count : nat) (h : state) (bytes : list Z) : state :=
  match count with
  | O => h
  | S count' => blocks count' (compress h (take 64 bytes)) (drop 64 bytes)
  end.

(** The initial hash value: from the square roots of the first 8 primes. *)
Definition initial : state :=
  let h i := root_fraction 2 (primes !!! i) in
  State (h 0%nat) (h 1%nat) (h 2%nat) (h 3%nat)
        (h 4%nat) (h 5%nat) (h 6%nat) (h 7%nat).

(** The 32 bytes of the digest. *)
Definition digest (message : list Z) : list Z :=
  let padded := pad message in
  let h := blocks (length padded / 64)%nat initial padded in
  be_bytes 4 (sa h) ++ be_bytes 4 (sb h) ++ be_bytes 4 (sc h)
    ++ be_bytes 4 (sd h) ++ be_bytes 4 (se h) ++ be_bytes 4 (sf h)
    ++ be_bytes 4 (sg h) ++ be_bytes 4 (sh h).

End SHA256.

(** [new TextEncoder().encode(message)]; the messages of the service are
    made of the characters 0 and 1, one byte each. *)
Definition TextEncoder_encode (message : string) : list Z :=
  map (λ c, Z.of_N (N_of_ascii c)) (list_ascii_of_string message).

Definition hex_digit (d : Z) : ascii :=
  match d with
  | 0 => "0" | 1 => "1" | 2 => "2" | 3 => "3" | 4 => "4" | 5 => "5"
  | 6 => "6" | 7 => "7" | 8 => "8" | 9 => "9" | 10 => "a" | 11 => "b"
  | 12 => "c" | 13 => "d" | 14 => "e" | _ => "f"
  end%Z%char.

(** [b.toString(16).padStart(2, '0')] for a byte [b]. *)
Definition byte_toHex (b : Z) : string :=
  String (hex_digit (b / 16)) (String (hex_digit (b mod 16)) EmptyString).

(** The string [sha256(message)] resolves with when the digest fulfils. *)
Definition sha256 (message : string) : string :=
  foldr (λ b hexHash, byte_toHex b +:+ hexHash) EmptyString
    (SHA256.digest (TextEncoder_encode message)).

Definition Bit_digit (b : Bit) : ascii :=
  match b with ZERO => "0" | ONE => "1" end%char.

(** [bits.join('')] *)
Definition join (bits : list Bit) : string :=
  foldr (λ b s, String (Bit_digit b) s) EmptyString bits.

(** [Math.ceil(privacyAmplificationLength / 4)]. A binary64 division of an
    integer by 4 only lowers the exponent, so the quotient is exact and the
    ceiling is the one of the integers. *)
Definition desiredHexLength (privacyAmplificationLength : Z) : Z :=
  (- ((- privacyAmplificationLength) / 4))%Z.

(** [s.substring(0, n)]: a negative [n] counts as 0, and an [n] beyond the
    end of the string as its length. *)
Definition String_substring_from_0 (s : string) (n : Z) : string :=
  substring 0 (Z.to_nat n) s.

(** Step 6, from [sharedKeyAfterEC.join('')] to the last [return]s. *)
Definition privacyAmplification (params : SimulationParameters)
    (siftedKeyLength : nat) (qberResult : QBERResult) (preECKeyLength : nat)
    (sharedKeyAfterEC : list Bit) (errorsCorrectedCount : nat)
    (log : list LogEntry) : SimulationResult :=
  let preAmplifiedKeyString := join sharedKeyAfterEC in
  if decide (String.length preAmplifiedKeyString = 0) then
    {| initialQubits := numQubits params;
       siftedKeyLength := siftedKeyLength;
       qberResult := Some qberResult;
       eveDetected := false;
       errorsCorrected := errorsCorrectedCount;
       finalKeyAlice := "";
       finalKeyBob := "";
       log := log ++ [LogCannotAmplify] |}
  else
    let hash := sha256 preAmplifiedKeyString in
    let desiredHexLength :=
      desiredHexLength (privacyAmplificationLength params) in
    let finalKeyAliceHex := String_substring_from_0 hash desiredHexLength in
    let finalKeyBobHex := String_substring_from_0 hash desiredHexLength in
    {| initialQubits := numQubits params;
       (* Sifted key length *after* QBER sample removed *)
       siftedKeyLength := preECKeyLength;
       qberResult := Some qberResult;
       eveDetected := false;
       errorsCorrected := errorsCorrectedCount;
       finalKeyAlice := finalKeyAliceHex;
       finalKeyBob := finalKeyBobHex;
       log := log ++
         [LogPrivacyAmplificationCompleted (privacyAmplificationLength params);
          LogFinalKeyAlice finalKeyAliceHex;
          LogFinalKeyBob finalKeyBobHex] |}.

(** ** The helper [bitsToHex] *)

(** [parseInt(s, 2)] for a string [s] of binary digits: the number the
    longest prefix of digits 0 and 1 denotes, and [None], which is [NaN],
    when that prefix is empty. (The strings the helper parses are joined
    bits; they hold no blank and no sign.) *)
Fixpoint parseInt_2_digits (s : string) (value : option Z) : option Z :=
  match s with
  | String "0" s' => parseInt_2_digits s' (Some (2 * default 0 value))%Z
  | String "1" s' => parseInt_2_digits s' (Some (2 * default 0 value + 1))%Z
  | _ => value
  end.

Definition parseInt_2 (s : string) : option Z := parseInt_2_digits s None.

(** The hexadecimal digits of a positive integer in front of [digits], most
    significant first. *)
Fixpoint hex_digits (fuel : nat) (d : Z) (digits : string) : string :=
  match fuel with
  | 0 => digits
  | S fuel' =>
      if (d =? 0)%Z then digits
      else hex_digits fuel' (d / 16) (String (hex_digit (d mod 16)) digits)
  end.

(** [d.toString(16)] for a number that is [NaN] or an integer that is not
    negative. An integer below [2 ^ n] has [n] hexadecimal digits at most,
    which bounds the recursion. *)
Definition Number_toString_16 (d : option Z) : string :=
  match d with
  | None => "NaN"
  | Some 0%Z => "0"
  | Some d => hex_digits (S (Z.to_nat (Z.log2 d))) d EmptyString
  end.

(** [while (paddedBits.length % 4 !== 0) paddedBits.push(Bit.ZERO)]. A
    length is three elements away from a multiple of 4 at most, so three
    rounds are enough for the loop to reach its exit. *)
Fixpoint pad_loop (rounds : nat) (paddedBits : list Bit) : list Bit :=
  match rounds with
  | 0 => paddedBits
  | S rounds' =>
      if decide (length paddedBits mod 4 ≠ 0)
      then pad_loop rounds' (paddedBits ++ [ZERO])
      else paddedBits
  end.

(** [for (let i = 0; i < paddedBits.length; i += 4)], with [count] the
    number of iterations left. *)
Fixpoint hex_loop (count i : nat) (paddedBits : list Bit)
    (hexString : string) : string :=
  match count with
  | 0 => hexString
  | S count' =>
      let chunk :=
        Array_slice paddedBits (Finite (Z.of_nat i))
          (Some (Finite (Z.of_nat (i + 4)))) in
      let decimal := parseInt_2 (join chunk) in
      hex_loop count' (i + 4) paddedBits
        (hexString +:+ Number_toString_16 decimal)
  end.

(** Helper function to convert a bit array to a hexadecimal string. The
    loop over the chunks runs once for every four elements, the last ones
    included. *)
Definition bitsToHex (bits : list Bit) : string :=
  let paddedBits := pad_loop 3 bits in
  hex_loop ((length paddedBits + 3) / 4) 0 paddedBits EmptyString.

(** ** The orchestration *)

(** From the removal of the QBER sample to the end: steps 5 and 6. *)
Definition reconcileAndAmplify (params : SimulationParameters)
    (siftedAliceKey siftedBobKey : list Bit) (qberResult : QBERResult)
    (log : list LogEntry) : Outcome :=
  (* Remove the QBER sample from the keys to be corrected *)
  let keyForErrorCorrectionAlice :=
    Array_slice siftedAliceKey (sampleSize qberResult) None in
  let keyForErrorCorrectionBob :=
    Array_slice siftedBobKey (sampleSize qberResult) None in
  let preECKeyLength := length keyForErrorCorrectionAlice in
  let log := log ++ [LogKeyForErrorCorrection preECKeyLength] in
  match errorCorrection (errorCorrectionBlockSize params)
          keyForErrorCorrectionAlice keyForErrorCorrectionBob with
  | None => NoTermination
  | Some (sharedKeyAfterEC, errorsCorrectedCount) =>
      let log := log ++ [LogErrorCorrectionCompleted errorsCorrectedCount] in
      let log :=
        if keysMatch keyForErrorCorrectionAlice sharedKeyAfterEC
        then log ++ [LogKeysReconciled]
        else log ++ [LogKeysMismatch] in
      Resolved (privacyAmplification params (length siftedAliceKey)
                  qberResult preECKeyLength sharedKeyAfterEC
                  errorsCorrectedCount log)
  end.

(** From step 4 on, for sifted keys that are not empty. *)
Definition estimateAndContinue (params : SimulationParameters)
    (siftedAliceKey siftedBobKey : list Bit) (log : list LogEntry)
    : Outcome :=
  match estimateQBER siftedAliceKey siftedBobKey (qberSampleSize params) with
  | None => NoTermination
  | Some qberResult =>
      let log :=
        log ++ [LogQBERCheck (sampleSize qberResult) (errors qberResult)
                  (qber qberResult)] in
      if enableSecureMode params && gt (qber qberResult) QBER_THRESHOLD then
        Resolved
          {| initialQubits := numQubits params;
             siftedKeyLength := length siftedAliceKey;
             qberResult := Some qberResult;
             eveDetected := true;
             errorsCorrected := 0;
             finalKeyAlice := "";
             finalKeyBob := "";
             log := log ++ [LogAlert (qber qberResult)] |}
      else
        let log :=
          if enableEve params
             && gt (qber qberResult) (div QBER_THRESHOLD (of_Z 2))
             && negb (enableSecureMode params)
          then log ++ [LogEveSuspected (qber qberResult)]
          else if negb (enableEve params) && gt (qber qberResult) (of_Z 0)
          then log ++ [LogMinorQBER (qber qberResult)]
          else log in
        reconcileAndAmplify params siftedAliceKey siftedBobKey qberResult log
  end.

(** The log up to the end of step 2. *)
Definition transmissionLog (params : SimulationParameters) : list LogEntry :=
  [LogStarting; LogParameters params; LogAlicePrepared (numQubits params)]
  ++ (if enableEve params then [LogEveEnabled; LogEveResent] else [])
  ++ [LogBobMeasured (numQubits params)].

(** From step 3 on, for the sequences of a transmission. *)
Definition siftAndContinue (params : SimulationParameters) (t : Transmission)
    : Outcome :=
  let sifted := sift (numQubits params) t in
  let siftedAliceKey := sifted.1 in
  let siftedBobKey := sifted.2 in
  let siftedKeyLength := length siftedAliceKey in
  let log := transmissionLog params ++ [LogSifted siftedKeyLength] in
  if decide (siftedKeyLength = 0) then
    Resolved
      {| initialQubits := numQubits params;
         siftedKeyLength := 0;
         qberResult := None;
         eveDetected := false;
         errorsCorrected := 0;
         finalKeyAlice := "";
         finalKeyBob := "";
         log := log ++ [LogNoMatchingBases] |}
  else estimateAndContinue params siftedAliceKey siftedBobKey log.

(** [runBB84Simulation(params)] with the draws of [random], on a host
    whose digest fulfils. The first [Array.from] throws a [RangeError] when
    the length exceeds 2^32 - 1; nothing else in the service throws on
    such a host. *)
Definition runBB84Simulation (params : SimulationParameters)
    (random : RandomSource) : Outcome :=
  if (MAX_ARRAY_LENGTH <? numQubits params)%Z then RangeError
  else siftAndContinue params (transmit params random).1.

(** ** The service on a host whose digest may fail *)

(** The definitions above take the digest for granted: [sha256] is the
    string a fulfilled call returns, and [runBB84Simulation] is the service
    on a host where [crypto.subtle.digest] fulfils. The service has no
    fallback, so on a host where the call fails the error reaches the
    caller. The definitions below are the same code with that host as an
    argument. *)
Inductive Host :=
| DigestSupported   (* crypto.subtle.digest fulfils with the SHA-256 digest *)
| DigestUnsupported (* the call throws, or its promise is rejected *).

(** [await crypto.subtle.digest('SHA-256', msgBuffer)]: the bytes of the
    digest, or [None] for the error. *)
Definition crypto_subtle_digest (host : Host) (msgBuffer : list Z)
    : option (list Z) :=
  match host with
  | DigestSupported => Some (SHA256.digest msgBuffer)
  | DigestUnsupported => None
  end.

(** [sha256(message)]: the error of the digest is not caught. *)
Definition sha256_on (host : Host) (message : string) : option string :=
  let msgBuffer := TextEncoder_encode message in
  match crypto_subtle_digest host msgBuffer with
  | None => None
  | Some hashArray =>
      Some (foldr (λ b hexHash, byte_toHex b +:+ hexHash) EmptyString
              hashArray)
  end.

(** Step 6, from [sharedKeyAfterEC.join('')] to the last [return]s. *)
Definition privacyAmplification_on (host : Host)
    (params : SimulationParameters) (siftedKeyLength : nat)
    (qberResult : QBERResult) (preECKeyLength : nat)
    (sharedKeyAfterEC : list Bit) (errorsCorrectedCount : nat)
    (log : list LogEntry) : Outcome :=
  let preAmplifiedKeyString := join sharedKeyAfterEC in
  if decide (String.length preAmplifiedKeyString = 0) then
    Resolved
      {| initialQubits := numQubits params;
         siftedKeyLength := siftedKeyLength;
         qberResult := Some qberResult;
         eveDetected := false;
         errorsCorrected := errorsCorrectedCount;
         finalKeyAlice := "";
         finalKeyBob := "";
         log := log ++ [LogCannotAmplify] |}
  else
    match sha256_on host preAmplifiedKeyString with
    | None => DigestFailure
    | Some hash =>
        let desiredHexLength :=
          desiredHexLength (privacyAmplificationLength params) in
        let finalKeyAliceHex :=
          String_substring_from_0 hash desiredHexLength in
        let finalKeyBobHex :=
          String_substring_from_0 hash desiredHexLength in
        Resolved
          {| initialQubits := numQubits params;
             (* Sifted key length *after* QBER sample removed *)
             siftedKeyLength := preECKeyLength;
             qberResult := Some qberResult;
             eveDetected := false;
             errorsCorrected := errorsCorrectedCount;
             finalKeyAlice := finalKeyAliceHex;
             finalKeyBob := finalKeyBobHex;
             log := log ++
               [LogPrivacyAmplificationCompleted
                  (privacyAmplificationLength params);
                LogFinalKeyAlice finalKeyAliceHex;
                LogFinalKeyBob finalKeyBobHex] |}
    end.

(** From the removal of the QBER sample to the end: steps 5 and 6. *)
Definition reconcileAndAmplify_on (host : Host)
    (params : SimulationParameters)
    (siftedAliceKey siftedBobKey : list Bit) (qberResult : QBERResult)
    (log : list LogEntry) : Outcome :=
  (* Remove the QBER sample from the keys to be corrected *)
  let keyForErrorCorrectionAlice :=
    Array_slice siftedAliceKey (sampleSize qberResult) None in
  let keyForErrorCorrectionBob :=
    Array_slice siftedBobKey (sampleSize qberResult) None in
  let preECKeyLength := length keyForErrorCorrectionAlice in
  let log := log ++ [LogKeyForErrorCorrection preECKeyLength] in
  match errorCorrection (errorCorrectionBlockSize params)
          keyForErrorCorrectionAlice keyForErrorCorrectionBob with
  | None => NoTermination
  | Some (sharedKeyAfterEC, errorsCorrectedCount) =>
      let log := log ++ [LogErrorCorrectionCompleted errorsCorrectedCount] in
      let log :=
        if keysMatch keyForErrorCorrectionAlice sharedKeyAfterEC
        then log ++ [LogKeysReconciled]
        else log ++ [LogKeysMismatch] in
      privacyAmplification_on host params (length siftedAliceKey)
        qberResult preECKeyLength sharedKeyAfterEC errorsCorrectedCount log
  end.

(** From step 4 on, for sifted keys that are not empty. *)
Definition estimateAndContinue_on (host : Host)
    (params : SimulationParameters)
    (siftedAliceKey siftedBobKey : list Bit) (log : list LogEntry)
    : Outcome :=
  match estimateQBER siftedAliceKey siftedBobKey (qberSampleSize params) with
  | None => NoTermination
  | Some qberResult =>
      let log :=
        log ++ [LogQBERCheck (sampleSize qberResult) (errors qberResult)
                  (qber qberResult)] in
      if enableSecureMode params && gt (qber qberResult) QBER_THRESHOLD then
        Resolved
          {| initialQubits := numQubits params;
             siftedKeyLength := length siftedAliceKey;
             qberResult := Some qberResult;
             eveDetected := true;
             errorsCorrected := 0;
             finalKeyAlice := "";
             finalKeyBob := "";
             log := log ++ [LogAlert (qber qberResult)] |}
      else
        let log :=
          if enableEve params
             && gt (qber qberResult) (div QBER_THRESHOLD (of_Z 2))
             && negb (enableSecureMode params)
          then log ++ [LogEveSuspected (qber qberResult)]
          else if negb (enableEve params) && gt (qber qberResult) (of_Z 0)
          then log ++ [LogMinorQBER (qber qberResult)]
          else log in
        reconcileAndAmplify_on host params siftedAliceKey siftedBobKey
          qberResult log
  end.

(** From step 3 on, for the sequences of a transmission. *)
Definition siftAndContinue_on (host : Host) (params : SimulationParameters)
    (t : Transmission) : Outcome :=
  let sifted := sift (numQubits params) t in
  let siftedAliceKey := sifted.1 in
  let siftedBobKey := sifted.2 in
  let siftedKeyLength := length siftedAliceKey in
  let log := transmissionLog params ++ [LogSifted siftedKeyLength] in
  if decide (siftedKeyLength = 0) then
    Resolved
      {| initialQubits := numQubits params;
         siftedKeyLength := 0;
         qberResult := None;
         eveDetected := false;
         errorsCorrected := 0;
         finalKeyAlice := "";
         finalKeyBob := "";
         log := log ++ [LogNoMatchingBases] |}
  else estimateAndContinue_on host params siftedAliceKey siftedBobKey log.

(** [runBB84Simulation(params)] on [host] with the draws of [random]: the
    promise is rejected by the first [Array.from] for a length above
    2^32 - 1 and by the digest that fails; nothing else in the service
    throws. *)
Definition runBB84Simulation_on (host : Host) (params : SimulationParameters)
    (random : RandomSource) : Outcome :=
  if (MAX_ARRAY_LENGTH <? numQubits params)%Z then RangeError
  else siftAndContinue_on host params (transmit params random).1.

(** ** components/QkdSimulator.tsx *)

Module QkdSimulator.

(** The four state variables of the component. *)
Record State := {
  params : SimulationParameters;
  simulationResult : option SimulationResult;
  isLoading : bool;
  error : option string;
}.

(** The state of the first rendering, from the arguments of [useState]. *)
Definition initialState : State :=
  {| params := DEFAULT_SIMULATION_PARAMETERS;
     simulationResult := None;
     isLoading := false;
     error := None |}.

Definition setIsLoading (value : bool) (s : State) : State :=
  {| params := params s; simulationResult := simulationResult s;
     isLoading := value; error := error s |}.

Definition setError (value : option string) (s : State) : State :=
  {| params := params s; simulationResult := simulationResult s;
     isLoading := isLoading s; error := value |}.

Definition setSimulationResult (value : option SimulationResult) (s : State)
    : State :=
  {| params := params s; simulationResult := value;
     isLoading := isLoading s; error := error s |}.

(** [handleRunSimulation] up to its [await]. *)
Definition handleRunSimulation_start (s : State) : State :=
  setSimulationResult None (* Clear previous results *)
    (setError None (setIsLoading true s)).

(** [handleRunSimulation] from the [await] on, for the outcome of the
    promise: [try], [catch] and [finally]. [message] is the text of the
    error the promise is rejected with, which is the engine's. A promise
    that never settles leaves the handler waiting, which is [None]. *)
Definition handleRunSimulation_settle (message : string) (outcome : Outcome)
    (s : State) : option State :=
  match outcome with
  | Resolved result =>
      Some (setIsLoading false (setSimulationResult (Some result) s))
  | RangeError | DigestFailure =>
      Some (setIsLoading false
              (setError
                 (Some ("Simulation failed: "
                        +:+ (if decide (message = "")
                             then "An unknown error occurred."
                             else message))) s))
  | NoTermination => None
  end.

(** The handler of the button on a host, with the parameters of the state
    it was created for. *)
Definition handleRunSimulation (host : Host) (message : string)
    (random : RandomSource) (s : State) : option State :=
  handleRunSimulation_settle message
    (runBB84Simulation_on host (params s) random)
    (handleRunSimulation_start s).

(** [simulationResult && !isLoading], the condition under which the
    results are rendered. *)
Definition showsResults (s : State) : bool :=
  bool_decide (is_Some (simulationResult s)) && negb (isLoading s).

(** [error && ...], the condition under which the error box is rendered:
    an empty text counts as false. *)
Definition showsError (s : State) : bool :=
  match error s with
  | Some text => bool_decide (text ≠ "")
  | None => false
  end.

(** What the two cards of the final keys show,
    [simulationResult.finalKeyAlice || 'N/A'] and the same for Bob: the
    empty string is the one string that counts as false. *)
Definition keyCard (finalKey : string) : string :=
  if decide (finalKey = "") then "N/A" else finalKey.

End QkdSimulator.

(** ** Vocabulary of the statements *)

(** The positions at which Alice's and Bob's bases agree, in increasing
    order. *)
Definition agreeing (numQubits : Z) (t : Transmission) : list nat :=
  filter (λ i, aliceBases t !! i = bobBases t !! i)
    (seq 0 (Z.to_nat numQubits)).

(** The [k]-th block of [size] elements of a key. *)
Definition block {A} (size k : nat) (key : list A) : list A :=
  take size (drop (k * size) key).

(** [j] is the first position at which two blocks differ. *)
Definition first_difference (aliceBlock bobBlock : list Bit) (j : nat)
    : Prop :=
  aliceBlock !! j ≠ bobBlock !! j
  ∧ ∀ j', j' < j → aliceBlock !! j' = bobBlock !! j'.

(** A lowercase hexadecimal digit. *)
Definition lowercase_hex (c : ascii) : bool :=
  bool_decide (c ∈ list_ascii_of_string "0123456789abcdef").

(** The ceiling of [siftedKeyLength * qberSampleSize / 100] in the
    rationals. *)
Definition exact_sample_count (siftedKeyLength : nat) (qberSampleSize : Z)
    : Z :=
  (- ((- (Z.of_nat siftedKeyLength * qberSampleSize)) / 100))%Z.

(** A parameter record, fields in the order of the interface. *)
Definition parameters (numQubits qberSampleSize errorCorrectionBlockSize
    privacyAmplificationLength : Z) (enableEve enableSecureMode : bool)
    : SimulationParameters :=
  {| numQubits := numQubits; qberSampleSize := qberSampleSize;
     errorCorrectionBlockSize := errorCorrectionBlockSize;
     privacyAmplificationLength := privacyAmplificationLength;
     enableEve := enableEve; enableSecureMode := enableSecureMode |}.

(** Two random sources: every draw falls below 0.5, and draws alternate in
    runs of three. *)
Definition always_below : RandomSource := λ _, true.
Definition runs_of_three : RandomSource := λ n, Nat.even (n / 3).

(** The first four draws fall below 0.5 and no later one: with two qubits,
    Alice's bases are rectilinear and Bob's diagonal. *)
Definition first_four_below : RandomSource := λ n, bool_decide (n < 4).

(** What the reconciliation does to one block of Bob's key, given
    Alice's block: nothing when the parities agree, and otherwise Alice's
    bit at the first position where the blocks differ. *)
Definition block_reconciled (aliceBlock bobBlock corrected : list Bit)
    : Prop :=
  (parity aliceBlock = parity bobBlock ∧ corrected = bobBlock)
  ∨ (parity aliceBlock ≠ parity bobBlock
     ∧ ∃ j a, first_difference aliceBlock bobBlock j
              ∧ aliceBlock !! j = Some a
              ∧ corrected = <[j := a]> bobBlock).

(** What is left of a sifted key once the QBER sample is removed. *)
Definition remainder (siftedKey : list Bit) (estimate : QBERResult)
    : list Bit :=
  Array_slice siftedKey (sampleSize estimate) None.

(** The four [return]s of the service, told apart by the entry the log
    ends with. *)
Inductive Exit := EmptySift | EveDetected | EmptyReconciledKey | Completed.

Definition exit_of (result : SimulationResult) : option Exit :=
  match last (log result) with
  | Some LogNoMatchingBases => Some EmptySift
  | Some (LogAlert _) => Some EveDetected
  | Some LogCannotAmplify => Some EmptyReconciledKey
  | Some (LogFinalKeyBob _) => Some Completed
  | _ => None
  end.

(** A record with a count that is not positive or a percentage outside
    0-100. *)
Definition malformed (params : SimulationParameters) : Prop :=
  (numQubits params ≤ 0 ∨ errorCorrectionBlockSize params ≤ 0
   ∨ privacyAmplificationLength params ≤ 0
   ∨ qberSampleSize params < 0 ∨ 100 < qberSampleSize params)%Z.

(** The result of the exit on an empty sifted key. *)
Definition emptySiftResult (params : SimulationParameters)
    : SimulationResult :=
  {| initialQubits := numQubits params;
     siftedKeyLength := 0;
     qberResult := None;
     eveDetected := false;
     errorsCorrected := 0;
     finalKeyAlice := "";
     finalKeyBob := "";
     log := transmissionLog params ++ [LogSifted 0; LogNoMatchingBases] |}.

(** The result of the exit on a detected eavesdropper. *)
Definition eveDetectedResult (params : SimulationParameters)
    (siftedLength : nat) (estimate : QBERResult) : SimulationResult :=
  {| initialQubits := numQubits params;
     siftedKeyLength := siftedLength;
     qberResult := Some estimate;
     eveDetected := true;
     errorsCorrected := 0;
     finalKeyAlice := "";
     finalKeyBob := "";
     log := transmissionLog params
            ++ [LogSifted siftedLength;
                LogQBERCheck (sampleSize estimate) (errors estimate)
                  (qber estimate);
                LogAlert (qber estimate)] |}.

(** The note that may follow the QBER check in the log. *)
Definition qberNotes (params : SimulationParameters) (estimate : QBERResult)
    : list LogEntry :=
  if enableEve params
     && gt (qber estimate) (div QBER_THRESHOLD (of_Z 2))
     && negb (enableSecureMode params)
  then [LogEveSuspected (qber estimate)]
  else if negb (enableEve params) && gt (qber estimate) (of_Z 0)
  then [LogMinorQBER (qber estimate)]
  else [].

(** A random source whose draws alternate in runs of five: with eight
    qubits and Eve, the three bases agree at some positions and Eve's
    basis is the odd one at others. *)
Definition runs_of_five : RandomSource := λ n, Nat.even (n / 5).

(** The number of positions at which Bob's key differs from Alice's. *)
Definition disagreements (alice bob : list Bit) : nat :=
  length (filter (λ i, alice !! i ≠ bob !! i) (seq 0 (length alice))).

(** The number a chunk of bits denotes in binary, first bit first. *)
Definition chunk_value (chunk : list Bit) : Z :=
  fold_left (λ value bit, 2 * value + Bit_value bit)%Z chunk 0%Z.

(** The value of a lowercase hexadecimal digit. *)
Definition hex_value (c : ascii) : Z :=
  match c with
  | "0" => 0 | "1" => 1 | "2" => 2 | "3" => 3 | "4" => 4 | "5" => 5
  | "6" => 6 | "7" => 7 | "8" => 8 | "9" => 9 | "a" => 10 | "b" => 11
  | "c" => 12 | "d" => 13 | "e" => 14 | _ => 15
  end%Z%char.

(** The four bits of a number below 16, most significant first, and the
    bits a string of hexadecimal digits stands for. *)
Definition nibble (d : Z) : list Bit :=
  map (λ k, if Z.testbit d k then ONE else ZERO) [3; 2; 1; 0]%Z.

Definition hexToBits (hexString : string) : list Bit :=
  flat_map (λ c, nibble (hex_value c)) (list_ascii_of_string hexString).

(** The number of zero bits that fill an array of [len] bits up to the next
    multiple of 4. *)
Definition padding (len : nat) : nat := (4 - len mod 4) mod 4.

(** The bytes a string of hexadecimal digits stands for, two digits each. *)
Fixpoint hexToBytes (digits : list ascii) : list Z :=
  match digits with
  | high :: low :: digits' =>
      (16 * hex_value high + hex_value low)%Z :: hexToBytes digits'
  | _ => []
  end.

(** Numbers, digests and transmissions are computed on closed inputs only
    and stay folded in the proofs. *)
#[global] Arguments of_Z : simpl never.
#[global] Arguments mul : simpl never.
#[global] Arguments div : simpl never.
#[global] Arguments gt : simpl never.
#[global] Arguments sha256 : simpl never.
#[global] Arguments transmit : simpl never.
#[global] Arguments qberSampleCount : simpl never.

(** ** The hash function on the test vectors of FIPS 180-4 *)

Example sha256_abc :
  sha256 "abc"
  = "ba7816bf8f01cfea414140de5dae2223b00361a396177a9cb410ff61f20015ad".
Proof. vm_compute. reflexivity. Qed.

Example sha256_empty :
  sha256 ""
  = "e3b0c44298fc1c149afbf4c8996fb92427ae41e4649b934ca495991b7852b855".
Proof. vm_compute. reflexivity. Qed.

Example sha256_two_blocks :
  sha256 "abcdbcdecdefdefgefghfghighijhijkijkljklmklmnlmnomnopnopq"
  = "248d6a61d20638b8e5c026930c3e6039a33ce45964ff2167f6ecedd419db06c1".
Proof. vm_compute. reflexivity. Qed.

(** The constants of the hash function, at both ends of the two tables. *)
Example SHA256_constants :
  length SHA256.K = 64
  ∧ SHA256.K !! 0 = Some 0x428a2f98%Z ∧ SHA256.K !! 63 = Some 0xc67178f2%Z
  ∧ SHA256.sa SHA256.initial = 0x6a09e667%Z
  ∧ SHA256.sh SHA256.initial = 0x5be0cd19%Z.
Proof. vm_compute. done. Qed.

(** [QBER_THRESHOLD] is the quotient of 11 by 100, and no binary64 number
    is nearer to 11/100: the distance is at most half a unit in the last
    place. *)
Example QBER_THRESHOLD_value :
  QBER_THRESHOLD = div (of_Z 11) (of_Z 100)
  ∧ (2 * Z.abs (100 * 7926335344172073 - 11 * 2 ^ 56) ≤ 100)%Z.
Proof. split; [vm_compute; reflexivity | vm_compute; discriminate]. Qed.

(** ** Binary64 arithmetic *)

Section Binary64.
Local Open Scope Z_scope.

Lemma digits2_pos_size p : digits2_pos p = Pos.size p.
Proof. induction p; simpl; congruence. Qed.

Lemma digits2_pos_lower p : 2 ^ (Z.pos (digits2_pos p) - 1) ≤ Z.pos p.
Proof.
  rewrite digits2_pos_size.
  induction p as [p IH|p IH|]; simpl Pos.size.
  - rewrite Pos2Z.inj_succ.
    replace (Z.succ (Z.pos (Pos.size p)) - 1)
      with (1 + (Z.pos (Pos.size p) - 1)) by lia.
    rewrite Z.pow_add_r by lia. lia.
  - rewrite Pos2Z.inj_succ.
    replace (Z.succ (Z.pos (Pos.size p)) - 1)
      with (1 + (Z.pos (Pos.size p) - 1)) by lia.
    rewrite Z.pow_add_r by lia. lia.
  - simpl. lia.
Qed.

Lemma digits2_pos_upper p : Z.pos p < 2 ^ Z.pos (digits2_pos p).
Proof.
  rewrite digits2_pos_size.
  induction p as [p IH|p IH|]; simpl Pos.size.
  - rewrite Pos2Z.inj_succ, Z.pow_succ_r by lia. lia.
  - rewrite Pos2Z.inj_succ, Z.pow_succ_r by lia. lia.
  - simpl. lia.
Qed.

Lemma shr_1_m mrs : 0 ≤ shr_m mrs → shr_m (shr_1 mrs) = shr_m mrs / 2.
Proof.
  destruct mrs as [m r s]. simpl. intros Hm.
  destruct m as [|[p|p|]|p]; simpl shr_m; try lia.
  - reflexivity.
  - apply Z.div_unique with 1; lia.
  - apply Z.div_unique with 0; lia.
  - reflexivity.
Qed.

Lemma pow2_xO n : 2 ^ Z.pos n~0 = 2 ^ Z.pos n * 2 ^ Z.pos n.
Proof. rewrite <- Z.pow_add_r by lia. f_equal. lia. Qed.

Lemma pow2_xI n : 2 ^ Z.pos n~1 = 2 * (2 ^ Z.pos n * 2 ^ Z.pos n).
Proof.
  rewrite <- Z.pow_add_r, <- Z.pow_succ_r by lia. f_equal. lia.
Qed.

(** Shifting [n] times divides the mantissa by [2 ^ n]. *)
Lemma iter_pos_shr_1_m n : ∀ mrs,
  0 ≤ shr_m mrs →
  shr_m (SpecFloat.iter_pos shr_1 n mrs) = shr_m mrs / 2 ^ Z.pos n.
Proof.
  induction n as [n IH|n IH|]; intros mrs Hm; simpl SpecFloat.iter_pos.
  - assert (0 ≤ shr_m (shr_1 mrs))
      by (rewrite shr_1_m by done; apply Z.div_pos; lia).
    assert (0 ≤ shr_m (SpecFloat.iter_pos shr_1 n (shr_1 mrs)))
      by (rewrite IH by done; apply Z.div_pos; lia).
    rewrite !IH, shr_1_m by done.
    rewrite !Z.div_div by lia. by rewrite pow2_xI.
  - assert (0 ≤ shr_m (SpecFloat.iter_pos shr_1 n mrs))
      by (rewrite IH by done; apply Z.div_pos; lia).
    rewrite !IH by done.
    rewrite !Z.div_div by lia. by rewrite pow2_xO.
  - by rewrite shr_1_m.
Qed.

(** Above the smallest exponent, the shift to the exponent of the format
    leaves the leading bit of the mantissa in place. *)
Lemma shr_fexp_m m e l :
  0 < m → emin prec emax ≤ e →
  let result := shr_fexp prec emax m e l in
  0 < shr_m result.1 ∧ emin prec emax ≤ result.2.
Proof.
  intros Hm He. unfold shr_fexp, shr.
  destruct m as [|p|p]; try lia. simpl Zdigits2.
  pose proof (digits2_pos_lower p) as Hlow.
  set (d := Z.pos (digits2_pos p)) in *.
  assert (fexp prec emax (d + e) - e ≤ d - 1) as Hn.
  { unfold fexp, emin, prec, emax in *. lia. }
  destruct (fexp prec emax (d + e) - e) as [|n|n] eqn:Hshift; simpl.
  - split; [by destruct l as [|[]]|done].
  - split; [|lia].
    rewrite iter_pos_shr_1_m by (by destruct l as [|[]]).
    replace (shr_m (shr_record_of_loc (Z.pos p) l)) with (Z.pos p)
      by (by destruct l as [|[]]).
    apply Z.div_str_pos. split; [lia|].
    etrans; [|exact Hlow]. apply Z.pow_le_mono_r; lia.
  - split; [by destruct l as [|[]]|done].
Qed.

(** Rounding to nearest never moves a mantissa down. *)
Lemma round_nearest_even_ge m l : m ≤ round_nearest_even m l.
Proof. destruct l as [|[]]; simpl; try lia. destruct (Z.even m); lia. Qed.

(** Rounding a positive mantissa gives a number of the sign asked for,
    never a zero nor a NaN. *)
Lemma binary_round_aux_sign sx mx ex lx :
  0 < mx → emin prec emax ≤ ex →
  match binary_round_aux prec emax sx mx ex lx with
  | S754_finite s _ _ | S754_infinity s => s = sx
  | _ => False
  end.
Proof.
  intros Hm He. unfold binary_round_aux.
  pose proof (shr_fexp_m mx ex lx Hm He) as H1.
  destruct (shr_fexp prec emax mx ex lx) as [mrs1 e1]. simpl in H1.
  destruct H1 as [Hm1 He1].
  pose proof (round_nearest_even_ge (shr_m mrs1) (loc_of_shr_record mrs1))
    as Hr.
  pose proof (shr_fexp_m
                (round_nearest_even (shr_m mrs1) (loc_of_shr_record mrs1))
                e1 loc_Exact ltac:(lia) He1) as H2.
  destruct (shr_fexp prec emax _ e1 loc_Exact) as [mrs2 e2]. simpl in H2.
  destruct H2 as [Hm2 _].
  destruct (shr_m mrs2) as [|m|m]; try lia.
  by destruct (e2 <=? emax - prec).
Qed.

Lemma of_Z_pos_sign z :
  0 < z →
  match of_Z z with
  | S754_finite s _ _ | S754_infinity s => s = false
  | _ => False
  end.
Proof.
  intros Hz. destruct z as [|p|p]; try lia.
  unfold of_Z, binary_normalize, binary_round.
  destruct (shl_align p 0 (fexp prec emax (Z.pos (digits2_pos p) + 0)))
    as [mz ez] eqn:Halign.
  apply binary_round_aux_sign; [lia|].
  unfold shl_align in Halign.
  destruct (fexp prec emax (Z.pos (digits2_pos p) + 0) - 0) eqn:Hd;
    inversion Halign; subst; unfold fexp, emin, prec, emax in *; lia.
Qed.

(** [0 / z] is 0 for a positive integer [z]. *)
Lemma zero_div_of_Z_pos z : 0 < z → div (of_Z 0) (of_Z z) = of_Z 0.
Proof.
  intros Hz. pose proof (of_Z_pos_sign z Hz) as H.
  destruct (of_Z z) as [| | |s m e]; try done; by subst.
Qed.

(** *** Rounding does not pass an integer

    Below, the value [m * 2 ^ e] of a number is compared after scaling by
    [2 ^ 1074], which makes every value of the format an integer. *)

(** A shift of an exact record by one bit is exact when the mantissa is
    even. *)
Lemma shr_1_exact mrs :
  0 ≤ shr_m mrs → shr_r mrs = false → shr_s mrs = false →
  (2 | shr_m mrs) →
  shr_r (shr_1 mrs) = false ∧ shr_s (shr_1 mrs) = false.
Proof.
  destruct mrs as [m r s]. simpl. intros Hm -> -> [k Hk].
  destruct m as [|[p|p|]|p]; simpl; try done; lia.
Qed.

(** So is a shift by [n] bits when [2 ^ n] divides the mantissa. *)
Lemma iter_pos_shr_1_exact n : ∀ mrs,
  0 ≤ shr_m mrs → shr_r mrs = false → shr_s mrs = false →
  (2 ^ Z.pos n | shr_m mrs) →
  shr_r (SpecFloat.iter_pos shr_1 n mrs) = false
  ∧ shr_s (SpecFloat.iter_pos shr_1 n mrs) = false.
Proof.
  induction n as [n IH|n IH|]; intros mrs Hm Hr Hs Hdiv;
    simpl SpecFloat.iter_pos.
  - rewrite pow2_xI in Hdiv. destruct Hdiv as [k Hk].
    destruct (shr_1_exact mrs Hm Hr Hs) as [Hr1 Hs1].
    { exists (k * (2 ^ Z.pos n * 2 ^ Z.pos n)). lia. }
    assert (shr_m (shr_1 mrs) = k * (2 ^ Z.pos n * 2 ^ Z.pos n)) as Hm1.
    { rewrite shr_1_m by done. rewrite Hk.
      replace (k * (2 * (2 ^ Z.pos n * 2 ^ Z.pos n)))
        with (k * (2 ^ Z.pos n * 2 ^ Z.pos n) * 2) by lia.
      apply Z.div_mul. lia. }
    assert (0 ≤ shr_m (shr_1 mrs))
      by (rewrite shr_1_m by done; apply Z.div_pos; lia).
    destruct (IH (shr_1 mrs)) as [Hr2 Hs2]; [done..| |].
    { exists (k * 2 ^ Z.pos n). lia. }
    apply IH; [|done|done|].
    + rewrite iter_pos_shr_1_m by done. apply Z.div_pos; lia.
    + rewrite iter_pos_shr_1_m by done. rewrite Hm1.
      exists k. rewrite Z.mul_assoc. apply Z.div_mul.
      pose proof (Z.pow_pos_nonneg 2 (Z.pos n)). lia.
  - rewrite pow2_xO in Hdiv. destruct Hdiv as [k Hk].
    destruct (IH mrs) as [Hr2 Hs2]; [done..| |].
    { exists (k * 2 ^ Z.pos n). lia. }
    apply IH; [|done|done|].
    + rewrite iter_pos_shr_1_m by done. apply Z.div_pos; lia.
    + rewrite iter_pos_shr_1_m by done. rewrite Hk.
      exists k. rewrite Z.mul_assoc. apply Z.div_mul.
      pose proof (Z.pow_pos_nonneg 2 (Z.pos n)). lia.
  - by apply shr_1_exact.
Qed.

(** Rounding to nearest moves a mantissa up by one at most. *)
Lemma round_nearest_even_le m l : round_nearest_even m l ≤ m + 1.
Proof. destruct l as [|[]]; simpl; try lia. destruct (Z.even m); lia. Qed.

(** One shift to the exponent of the format, on an exact mantissa: the
    mantissa is divided by a power of two, and the location is exact when
    the division is. *)
Lemma shr_fexp_exact m e :
  0 < m →
  let n := fexp prec emax (Zdigits2 m + e) - e in
  let result := shr_fexp prec emax m e loc_Exact in
  (n ≤ 0 ∧ result = (Build_shr_record m false false, e))
  ∨ (0 < n ∧ shr_m result.1 = m / 2 ^ n ∧ result.2 = e + n
     ∧ ((2 ^ n | m) → loc_of_shr_record result.1 = loc_Exact)).
Proof.
  intros Hm n result. subst result. unfold shr_fexp, shr. fold n.
  destruct n as [|p|p] eqn:Hn.
  - left. split; [lia|done].
  - right. simpl. split_and!; [lia| |done|].
    + by rewrite iter_pos_shr_1_m by (simpl; lia).
    + intros Hdiv.
      destruct (iter_pos_shr_1_exact p (Build_shr_record m false false))
        as [Hr Hs]; [simpl; lia|done|done|done|].
      destruct (SpecFloat.iter_pos shr_1 p _) as [m' r s]. simpl in *.
      by subst.
  - left. split; [lia|done].
Qed.

(** A scaled value below [2 ^ 53] has an exponent below 53. *)
Lemma scaled_exponent_bound m e B :
  0 < m → -1074 ≤ e → B < 2 ^ 53 →
  m * 2 ^ (e + 1074) ≤ B * 2 ^ 1074 → e < 53.
Proof.
  intros Hm He HB Hle.
  destruct (Z.lt_ge_cases e 53) as [|Hge]; [done|exfalso].
  assert (2 ^ (53 + 1074) ≤ 2 ^ (e + 1074)) as Hpow
    by (apply Z.pow_le_mono_r; lia).
  rewrite Z.pow_add_r in Hpow by lia.
  pose proof (Z.pow_pos_nonneg 2 1074). nia.
Qed.

(** The second shift of the rounding keeps the value or lowers it. *)
Lemma shr_fexp_le m e B :
  0 < m → -1074 ≤ e →
  m * 2 ^ (e + 1074) ≤ B →
  let result := shr_fexp prec emax m e loc_Exact in
  0 < shr_m result.1 ∧ e ≤ result.2
  ∧ shr_m result.1 * 2 ^ (result.2 + 1074) ≤ B.
Proof.
  intros Hm He Hle result.
  assert (emin prec emax ≤ e) as Hemin by (unfold emin, prec, emax; lia).
  pose proof (shr_fexp_m m e loc_Exact Hm Hemin) as Hpos.
  fold result in Hpos. destruct Hpos as [Hpos _].
  destruct (shr_fexp_exact m e Hm) as [[Hn Heq]|(Hn & Hq & He1 & _)];
    fold result in Heq || fold result in Hq, He1.
  - rewrite Heq. simpl. split_and!; [done|lia|done].
  - split_and!; [done|lia|].
    rewrite Hq, He1.
    set (n := fexp prec emax (Zdigits2 m + e) - e) in *.
    replace (e + n + 1074) with (n + (e + 1074)) by lia.
    rewrite Z.pow_add_r by lia.
    pose proof (Z.mul_div_le m (2 ^ n) ltac:(by apply Z.pow_pos_nonneg; lia)).
    pose proof (Z.pow_pos_nonneg 2 (e + 1074) ltac:(lia) ltac:(lia)).
    pose proof (Z.pow_pos_nonneg 2 n ltac:(lia) ltac:(lia)).
    assert (0 ≤ m / 2 ^ n) by (apply Z.div_pos; lia).
    nia.
Qed.

(** Rounding to nearest does not pass an integer below [2 ^ 53]: if the
    value [m * 2 ^ e] is at most [B], so is the number it rounds to, which
    is finite. *)
Lemma binary_round_aux_le sx m e B :
  0 < m → -1074 ≤ e → 0 < B < 2 ^ 53 →
  m * 2 ^ (e + 1074) ≤ B * 2 ^ 1074 →
  ∃ m' e',
    binary_round_aux prec emax sx m e loc_Exact = S754_finite sx m' e'
    ∧ e ≤ e'
    ∧ Z.pos m' * 2 ^ (e' + 1074) ≤ B * 2 ^ 1074.
Proof.
  intros Hm He HB Hle. unfold binary_round_aux.
  assert (∃ m2 e1,
            (let '(mrs1, e1) := shr_fexp prec emax m e loc_Exact in
             (round_nearest_even (shr_m mrs1) (loc_of_shr_record mrs1), e1))
            = (m2, e1)
            ∧ 0 < m2 ∧ e ≤ e1 ∧ m2 * 2 ^ (e1 + 1074) ≤ B * 2 ^ 1074)
    as (m2 & e1 & Hfirst & Hm2 & He1 & Hle2).
  { destruct (shr_fexp_exact m e Hm) as [[Hn Heq]|(Hn & Hq & Hexp & Hexact)].
    - rewrite Heq. simpl. exists m, e. split_and!; [done|lia|lia|done].
    - assert (emin prec emax ≤ e) as Hemin
        by (unfold emin, prec, emax; lia).
      pose proof (shr_fexp_m m e loc_Exact Hm Hemin) as Hpos.
      destruct (shr_fexp prec emax m e loc_Exact) as [mrs1 e1'].
      simpl in Hq, Hexp, Hexact, Hpos. destruct Hpos as [Hpos _].
      set (n := fexp prec emax (Zdigits2 m + e) - e) in *.
      exists (round_nearest_even (shr_m mrs1) (loc_of_shr_record mrs1)), e1'.
      pose proof (round_nearest_even_ge (shr_m mrs1) (loc_of_shr_record mrs1)).
      pose proof (round_nearest_even_le (shr_m mrs1) (loc_of_shr_record mrs1))
        as Hup.
      split_and!; [done|lia|lia|].
      subst e1'.
      pose proof (Z.pow_pos_nonneg 2 n ltac:(lia) ltac:(lia)) as HS.
      pose proof (Z.pow_pos_nonneg 2 (e + 1074) ltac:(lia) ltac:(lia)) as HP.
      pose proof (Z.div_mod m (2 ^ n) ltac:(lia)) as Hdm.
      pose proof (Z.mod_pos_bound m (2 ^ n) HS) as Hr.
      replace (e + n + 1074) with (n + (e + 1074)) by lia.
      rewrite Z.pow_add_r by lia.
      destruct (Z.eq_dec (m mod 2 ^ n) 0) as [Hzero|Hnonzero].
      + rewrite Hexact by (apply Z.mod_divide; [lia|done]).
        simpl. rewrite Hq. nia.
      + destruct (Z.le_gt_cases (e + n) 0) as [Hneg|Hposexp].
        * (* the exponent after the shift is not positive *)
          replace (2 ^ 1074) with (2 ^ (- (e + n)) * (2 ^ n * 2 ^ (e + 1074)))
            in Hle |- *.
          2:{ rewrite <- !Z.pow_add_r by lia. f_equal. lia. }
          pose proof (Z.pow_pos_nonneg 2 (- (e + n)) ltac:(lia) ltac:(lia))
            as HT.
          rewrite Hq in Hup |- *.
          assert (m ≤ B * 2 ^ (- (e + n)) * 2 ^ n) as Hm' by nia.
          assert (m / 2 ^ n < B * 2 ^ (- (e + n))) by nia.
          nia.
        * (* the exponent after the shift is positive: the value is too
             large *)
          exfalso. destruct m as [|p|p]; try lia.
          pose proof (digits2_pos_lower p) as Hlow.
          subst n. simpl Zdigits2 in *.
          set (d := Z.pos (digits2_pos p)) in *.
          assert (fexp prec emax (d + e) = d + e - 53) as Hfexp.
          { unfold fexp, emin, prec, emax in *. lia. }
          rewrite Hfexp in *.
          assert (2 ^ (53 + 1074) ≤ 2 ^ (d - 1) * 2 ^ (e + 1074)) as Hbig.
          { rewrite <- Z.pow_add_r by lia. apply Z.pow_le_mono_r; lia. }
          rewrite Z.pow_add_r in Hbig by lia.
          pose proof (Z.pow_pos_nonneg 2 1074 ltac:(lia) ltac:(lia)).
          nia. }
  destruct (shr_fexp prec emax m e loc_Exact) as [mrs1 e1'].
  injection Hfirst as -> ->.
  pose proof (shr_fexp_le m2 e1 (B * 2 ^ 1074) Hm2 ltac:(lia) Hle2) as Hsecond.
  destruct (shr_fexp prec emax m2 e1 loc_Exact) as [mrs2 e2].
  simpl in Hsecond. destruct Hsecond as (Hm3 & He2 & Hle3).
  destruct (shr_m mrs2) as [|m3|m3] eqn:Hm3'; try lia.
  pose proof (scaled_exponent_bound (Z.pos m3) e2 B ltac:(lia) ltac:(lia)
                ltac:(lia) Hle3) as Hfinite.
  destruct (Z.leb_spec e2 (emax - prec)) as [_|Hover].
  - exists m3, e2. split_and!; [done|lia|done].
  - unfold emax, prec in Hover. lia.
Qed.

(** The alignment of a mantissa to the left multiplies it by a power of
    two. *)
Lemma iter_xO_value q k : Z.pos (Pos.iter xO q k) = Z.pos q * 2 ^ Z.pos k.
Proof.
  induction k as [|k IH] using Pos.peano_ind.
  - simpl. lia.
  - rewrite Pos.iter_succ, Pos2Z.inj_xO, IH, Pos2Z.inj_succ.
    rewrite Z.pow_succ_r by lia. lia.
Qed.

(** An integer below [2 ^ 53] is a number of its own value at most. *)
Lemma of_Z_le z :
  0 < z < 2 ^ 53 →
  ∃ m e, of_Z z = S754_finite false m e
         ∧ -52 ≤ e
         ∧ Z.pos m * 2 ^ (e + 1074) ≤ z * 2 ^ 1074.
Proof.
  intros [Hpos Hlt]. destruct z as [|q|q]; try lia.
  unfold of_Z, binary_normalize, binary_round.
  pose proof (digits2_pos_lower q) as Hlow.
  set (d := Z.pos (digits2_pos q)) in *.
  assert (d ≤ 53) as Hd.
  { destruct (Z.le_gt_cases d 53) as [|Hgt]; [done|exfalso].
    assert (2 ^ 53 ≤ 2 ^ (d - 1)) by (apply Z.pow_le_mono_r; lia). lia. }
  assert (fexp prec emax (d + 0) = d - 53) as ->.
  { unfold fexp, emin, prec, emax. lia. }
  unfold shl_align.
  destruct (d - 53 - 0) as [|k|k] eqn:Hk; try lia.
  - destruct (binary_round_aux_le false (Z.pos q) 0 (Z.pos q))
      as (m & e & Heq & He & Hle); [lia..|].
    exists m, e. split_and!; [done|lia|done].
  - destruct (binary_round_aux_le false (Z.pos (Pos.iter xO q k)) (d - 53)
                (Z.pos q))
      as (m & e & Heq & He & Hle); [lia|lia|lia| |].
    + rewrite iter_xO_value. rewrite <- Z.mul_assoc, <- Z.pow_add_r by lia.
      replace (Z.pos k + (d - 53 + 1074)) with 1074 by lia. lia.
    + exists m, e. split_and!; [done|lia|done].
Qed.

(** The ceiling of a positive number that is at most [B] is an integer
    between 0 and [B]. *)
Lemma Math_ceil_le m e B :
  -1074 ≤ e → Z.pos m * 2 ^ (e + 1074) ≤ B * 2 ^ 1074 →
  ∃ z, Math_ceil (S754_finite false m e) = Finite z ∧ 0 ≤ z ≤ B.
Proof.
  intros He Hle. unfold Math_ceil. cbn [cond_Zopp].
  destruct (Z.leb_spec 0 e) as [Hnonneg|Hneg].
  - eexists. split; [done|].
    rewrite Z.pow_add_r in Hle by lia.
    pose proof (Z.pow_pos_nonneg 2 1074 ltac:(lia) ltac:(lia)).
    pose proof (Z.pow_pos_nonneg 2 e ltac:(lia) ltac:(lia)).
    nia.
  - eexists. split; [done|].
    replace (2 ^ 1074) with (2 ^ (- e) * 2 ^ (e + 1074)) in Hle
      by (rewrite <- Z.pow_add_r by lia; f_equal; lia).
    pose proof (Z.pow_pos_nonneg 2 (e + 1074) ltac:(lia) ltac:(lia)).
    pose proof (Z.pow_pos_nonneg 2 (- e) ltac:(lia) ltac:(lia)) as HT.
    assert (Z.pos m ≤ B * 2 ^ (- e)) as Hm by nia.
    pose proof (Z.div_mod (- Z.pos m) (2 ^ (- e)) ltac:(lia)) as Hdm.
    pose proof (Z.mod_pos_bound (- Z.pos m) (2 ^ (- e)) HT) as Hr.
    nia.
Qed.

(** The quotients [p / 100] for the percentages: 0, or a positive number
    that is at most 1. *)
Lemma percentage_fraction p :
  0 ≤ p ≤ 100 →
  match div (of_Z p) (of_Z 100) with
  | S754_zero false => True
  | S754_finite false m e => -60 ≤ e ≤ 0 ∧ Z.pos m ≤ 2 ^ (- e)
  | _ => False
  end.
Proof.
  intros Hp.
  assert (forallb
            (λ p, match div (of_Z p) (of_Z 100) with
                  | S754_zero false => true
                  | S754_finite false m e =>
                      (-60 <=? e) && (e <=? 0) && (Z.pos m <=? 2 ^ (- e))
                  | _ => false
                  end) (seqZ 0 101) = true) as Hall
    by (vm_compute; reflexivity).
  rewrite forallb_forall in Hall.
  specialize (Hall p). rewrite <- list_elem_of_In, elem_of_seqZ in Hall.
  specialize (Hall ltac:(lia)).
  destruct (div (of_Z p) (of_Z 100)) as [[]| | |[] m e]; try done.
  apply andb_prop in Hall as [[H1 H2]%andb_prop H3]. lia.
Qed.

(** The sample count for a percentage between 0 and 100 is an integer
    between 0 and the length of the sifted key. *)
Lemma qberSampleCount_bounds (siftedKeyLength : nat) (qberSampleSize : Z) :
  Z.of_nat siftedKeyLength < 2 ^ 53 → 0 ≤ qberSampleSize ≤ 100 →
  ∃ sampleCount,
    qberSampleCount siftedKeyLength qberSampleSize = Finite sampleCount
    ∧ 0 ≤ sampleCount ≤ Z.of_nat siftedKeyLength.
Proof.
  intros Hlength Hp. unfold qberSampleCount, of_nat.
  pose proof (percentage_fraction qberSampleSize Hp) as Hx.
  destruct (Z.eq_dec (Z.of_nat siftedKeyLength) 0) as [->|Hnonzero].
  { exists 0. split; [|lia].
    destruct (div _ _) as [[]| | |[] m e]; done. }
  destruct (of_Z_le (Z.of_nat siftedKeyLength) ltac:(lia))
    as (my & ey & -> & Hey & Hy).
  destruct (div _ _) as [[]| | |[] mx ex]; try done.
  { exists 0. split; [done|lia]. }
  destruct Hx as [Hex Hmx].
  unfold mul, SFmul. cbn [xorb].
  destruct (binary_round_aux_le false (Z.pos (my * mx)) (ey + ex)
              (Z.of_nat siftedKeyLength))
    as (m & e & -> & He & Hle); [lia|lia|lia| |].
  - rewrite Pos2Z.inj_mul.
    replace (2 ^ (ey + 1074)) with (2 ^ (- ex) * 2 ^ (ey + ex + 1074)) in Hy
      by (rewrite <- Z.pow_add_r by lia; f_equal; lia).
    pose proof (Z.pow_pos_nonneg 2 (ey + ex + 1074) ltac:(lia) ltac:(lia)).
    nia.
  - apply Math_ceil_le; [lia|done].
Qed.
End Binary64.

(** ** Transmission *)

Lemma Array_from_length {A} (f : Rand A) n s :
  length (Array_from n f s).1 = n.
Proof.
  revert s. induction n as [|n IH]; intros s; [done|].
  simpl. unfold bind at 1. destruct (f s) as [x s1].
  unfold bind at 1. specialize (IH s1).
  destruct (Array_from n f s1) as [xs s2]. simpl in *. by rewrite IH.
Qed.

(** The measurement loop appends one bit per iteration, and the bit of the
    sender wherever the two bases agree. *)
Lemma measure_loop_spec count :
  ∀ i sentBits sentBases chosenBases measured s,
  ∃ l, (measure_loop count i sentBits sentBases chosenBases measured s).1
         = measured ++ l
       ∧ length l = count
       ∧ ∀ k, k < count →
           sentBases !! (i + k) = chosenBases !! (i + k) →
           l !! k = Some (sentBits !!! (i + k)).
Proof.
  induction count as [|count IH];
    intros i sentBits sentBases chosenBases measured s.
  - exists []. simpl. rewrite app_nil_r. split_and!; [done..|lia].
  - simpl. unfold bind at 1.
    destruct (decide (sentBases !! i = chosenBases !! i)) as [Heq|Hne].
    + simpl.
      destruct (IH (S i) sentBits sentBases chosenBases
                  (measured ++ [sentBits !!! i]) s) as (l & Hl & Hlen & Hk).
      exists (sentBits !!! i :: l). rewrite Hl, <- app_assoc. simpl.
      split_and!; [done|lia|].
      intros [|k] Hlt Hb.
      * by rewrite Nat.add_0_r.
      * simpl. replace (i + S k) with (S i + k) in * by lia.
        apply Hk; [lia|done].
    + destruct (getRandomBit s) as [bit s1].
      destruct (IH (S i) sentBits sentBases chosenBases
                  (measured ++ [bit]) s1) as (l & Hl & Hlen & Hk).
      exists (bit :: l). rewrite Hl, <- app_assoc. simpl.
      split_and!; [done|lia|].
      intros [|k] Hlt Hb.
      * rewrite Nat.add_0_r in Hb. done.
      * simpl. replace (i + S k) with (S i + k) in * by lia.
        apply Hk; [lia|done].
Qed.

(** The sequences of a run: all of the length of the request, and Bob's
    bit is the transmitted one wherever his basis is the transmitted one. *)
Lemma transmit_run params s :
  let n := Z.to_nat (numQubits params) in
  ∃ aBits aBases tBits tBases bBases bBits,
    (transmit params s).1 =
      {| aliceBits := aBits; aliceBases := aBases; transmittedBits := tBits;
         transmittedBases := tBases; bobBases := bBases;
         bobMeasuredBits := bBits |}
    ∧ length aBits = n ∧ length aBases = n ∧ length bBases = n
    ∧ length bBits = n
    ∧ (enableEve params = false → tBits = aBits ∧ tBases = aBases)
    ∧ ∀ i, i < n → tBases !! i = bBases !! i →
           bBits !! i = Some (tBits !!! i).
Proof.
  intros n. unfold transmit, ToLength. fold n.
  unfold bind at 1.
  pose proof (Array_from_length getRandomBit n s) as H1.
  destruct (Array_from n getRandomBit s) as [aBits s1].
  unfold bind at 1.
  pose proof (Array_from_length getRandomBasis n s1) as H2.
  destruct (Array_from n getRandomBasis s1) as [aBases s2].
  unfold bind at 1.
  match goal with
  | |- context [ (if ?b then ?x else ?y) s2 ] =>
      destruct ((if b then x else y) s2) as [[tBits tBases] s3] eqn:Htr
  end.
  unfold bind at 1.
  pose proof (Array_from_length getRandomBasis n s3) as H3.
  destruct (Array_from n getRandomBasis s3) as [bBases s4].
  unfold bind at 1.
  destruct (measure_loop_spec n 0 tBits tBases bBases [] s4)
    as (l & Hl & Hlen & Hk).
  simpl in Hl. destruct (measure_loop _ _ _ _ _ _ s4) as [bBits s5].
  simpl in *. subst bBits.
  exists aBits, aBases, tBits, tBases, bBases, l.
  split_and!; try done.
  intros He. rewrite He in Htr. by inversion Htr.
Qed.

(** ** Basis sifting *)

(** The sifting loop appends, in order, the bits at the positions of its
    range where the bases agree. *)
Lemma sift_loop_spec count : ∀ i t sifted,
  let kept :=
    filter (λ i, aliceBases t !! i = bobBases t !! i) (seq i count) in
  sift_loop count i t sifted
  = (sifted.1 ++ ((λ i, aliceBits t !!! i) <$> kept),
     sifted.2 ++ ((λ i, bobMeasuredBits t !!! i) <$> kept)).
Proof.
  induction count as [|count IH]; intros i t [sa sb]; simpl.
  - by rewrite !app_nil_r.
  - rewrite IH. rewrite filter_cons.
    destruct (decide (aliceBases t !! i = bobBases t !! i)); simpl.
    + by rewrite <- !app_assoc.
    + done.
Qed.

Lemma sift_spec n t :
  sift n t = ((λ i, aliceBits t !!! i) <$> agreeing n t,
              (λ i, bobMeasuredBits t !!! i) <$> agreeing n t).
Proof. unfold sift. by rewrite sift_loop_spec. Qed.

Lemma agreeing_bound n t i : i ∈ agreeing n t → i < Z.to_nat n.
Proof.
  unfold agreeing. rewrite list_elem_of_filter, elem_of_seq. lia.
Qed.

Lemma sift_length n t : length (sift n t).1 = length (sift n t).2.
Proof. rewrite sift_spec. simpl. by rewrite !length_fmap. Qed.

(** C6. After basis sifting the two keys are equally long, no longer than
    the number of qubits, and hold, in transmission order, Alice's bit and
    Bob's measured bit at exactly the positions where Alice's and Bob's own
    bases agree; Eve's bases play no part, whether she is enabled or not. *)
Theorem sifted_keys_hold_the_agreeing_positions
    (params : SimulationParameters) (random : RandomSource) :
  (0 ≤ numQubits params)%Z →
  let t := (transmit params random).1 in
  let sifted := sift (numQubits params) t in
  length sifted.1 = length sifted.2
  ∧ (Z.of_nat (length sifted.1) ≤ numQubits params)%Z
  ∧ Some <$> sifted.1
    = (λ i, aliceBits t !! i) <$> agreeing (numQubits params) t
  ∧ Some <$> sifted.2
    = (λ i, bobMeasuredBits t !! i) <$> agreeing (numQubits params) t.
Proof.
  intros Hn t sifted.
  destruct (transmit_run params random)
    as (aBits & aBases & tBits & tBases & bBases & bBits & Ht
        & HaBits & HaBases & HbBases & HbBits & _ & _).
  fold t in Ht. subst sifted. rewrite sift_spec. simpl.
  rewrite !length_fmap. split_and!.
  - done.
  - unfold agreeing.
    pose proof (length_filter (λ i, aliceBases t !! i = bobBases t !! i)
                  (seq 0 (Z.to_nat (numQubits params)))) as Hle.
    rewrite length_seq in Hle. lia.
  - rewrite <- list_fmap_compose. apply list_fmap_ext.
    intros k i Hi%list_elem_of_lookup_2%agreeing_bound. simpl.
    symmetry. apply list_lookup_lookup_total_lt. rewrite Ht. simpl. lia.
  - rewrite <- list_fmap_compose. apply list_fmap_ext.
    intros k i Hi%list_elem_of_lookup_2%agreeing_bound. simpl.
    symmetry. apply list_lookup_lookup_total_lt. rewrite Ht. simpl. lia.
Qed.

Lemma sift_length_le n t : length (sift n t).1 ≤ Z.to_nat n.
Proof.
  rewrite sift_spec. simpl. rewrite length_fmap. unfold agreeing.
  etrans; [apply length_filter|]. by rewrite length_seq.
Qed.

(** ** The exits of the orchestration *)

(** C8. When sifting keeps no position, the run resolves at once with the
    empty result: no QBER result, no detection, no corrections, no keys,
    and a log that ends with the entry on the missing matching bases; the
    log has no entry of a later stage. *)
Theorem empty_sift_resolves_with_the_empty_result
    (params : SimulationParameters) (random : RandomSource) :
  (numQubits params ≤ MAX_ARRAY_LENGTH)%Z →
  length (sift (numQubits params) (transmit params random).1).1 = 0 →
  runBB84Simulation params random
  = Resolved (emptySiftResult params)
  ∧ siftedKeyLength (emptySiftResult params) = 0
  ∧ qberResult (emptySiftResult params) = None
  ∧ eveDetected (emptySiftResult params) = false
  ∧ errorsCorrected (emptySiftResult params) = 0
  ∧ finalKeyAlice (emptySiftResult params) = ""
  ∧ finalKeyBob (emptySiftResult params) = ""
  ∧ log (emptySiftResult params)
    = transmissionLog params ++ [LogSifted 0; LogNoMatchingBases].
Proof.
  intros Hmax Hempty. split; [|done].
  unfold runBB84Simulation, siftAndContinue, emptySiftResult.
  destruct (Z.ltb_spec MAX_ARRAY_LENGTH (numQubits params)); [lia|].
  rewrite Hempty. simpl. by rewrite <- app_assoc.
Qed.

(** C1. In secure mode, a run whose estimated QBER exceeds the threshold
    resolves right after the estimate: eavesdropper detected, no keys, no
    corrections, and the alert as the last entry of the log. Neither
    reconciliation nor privacy amplification takes place: the result does
    not depend on them, and the log has none of their entries. *)
Theorem secure_mode_discards_the_key_above_the_threshold
    (params : SimulationParameters) (random : RandomSource)
    (estimate : QBERResult) :
  let sifted := sift (numQubits params) (transmit params random).1 in
  (numQubits params ≤ MAX_ARRAY_LENGTH)%Z →
  length sifted.1 ≠ 0 →
  estimateQBER sifted.1 sifted.2 (qberSampleSize params) = Some estimate →
  enableSecureMode params = true →
  gt (qber estimate) QBER_THRESHOLD = true →
  let r := eveDetectedResult params (length sifted.1) estimate in
  runBB84Simulation params random = Resolved r
  ∧ eveDetected r = true
  ∧ finalKeyAlice r = "" ∧ finalKeyBob r = ""
  ∧ errorsCorrected r = 0
  ∧ log r = transmissionLog params
            ++ [LogSifted (length sifted.1);
                LogQBERCheck (sampleSize estimate) (errors estimate)
                  (qber estimate);
                LogAlert (qber estimate)].
Proof.
  intros sifted Hmax Hne Hest Hsec Hgt r. split; [|done]. subst r.
  unfold runBB84Simulation, siftAndContinue, estimateAndContinue,
    eveDetectedResult.
  destruct (Z.ltb_spec MAX_ARRAY_LENGTH (numQubits params)); [lia|].
  fold sifted. destruct (decide (length sifted.1 = 0)); [done|].
  rewrite Hest, Hsec, Hgt. simpl. by rewrite <- !app_assoc.
Qed.

Lemma reconcile_block_length bs alice i state :
  length (reconcile_block bs alice i state).1 = length state.1.
Proof.
  unfold reconcile_block. repeat case_match; simpl; try done.
  by rewrite length_insert.
Qed.

Lemma reconcile_loop_length fuel : ∀ bs alice i state result,
  reconcile_loop fuel bs alice i state = Some result →
  length result.1 = length state.1.
Proof.
  induction fuel as [|fuel IH]; intros bs alice i state result; simpl;
    case_match; intros Hloop; simplify_eq; try done.
  apply IH in Hloop. by rewrite Hloop, reconcile_block_length.
Qed.

Lemma errorCorrection_length bs alice bob shared count :
  errorCorrection bs alice bob = Some (shared, count) →
  length shared = length bob.
Proof. intros H%reconcile_loop_length. done. Qed.

Lemma join_length bits : String.length (join bits) = length bits.
Proof. induction bits; simpl; congruence. Qed.

Lemma Array_slice_from_length {A} (l : list A) (z : Z) :
  (0 ≤ z)%Z →
  Z.of_nat (length (Array_slice l (Finite z) None))
  = (Z.of_nat (length l) - Z.min z (Z.of_nat (length l)))%Z.
Proof.
  intros Hz. unfold Array_slice, relative_index.
  destruct (Z.ltb_spec z 0); [lia|].
  rewrite length_take, length_drop. lia.
Qed.

Lemma Array_slice_same_length {A} (l1 l2 : list A) start end_ :
  length l1 = length l2 →
  length (Array_slice l1 start end_) = length (Array_slice l2 start end_).
Proof.
  intros Hlen. unfold Array_slice. rewrite !length_take, !length_drop.
  by rewrite Hlen.
Qed.

(** The three ways in which a run resolves. *)
Lemma run_resolved params random r :
  runBB84Simulation params random = Resolved r →
  let sifted := sift (numQubits params) (transmit params random).1 in
  let log := transmissionLog params ++ [LogSifted (length sifted.1)] in
  (length sifted.1 = 0 ∧ r = emptySiftResult params)
  ∨ ∃ q, length sifted.1 ≠ 0
      ∧ estimateQBER sifted.1 sifted.2 (qberSampleSize params) = Some q
      ∧ ((enableSecureMode params && gt (qber q) QBER_THRESHOLD = true
          ∧ r = eveDetectedResult params (length sifted.1) q)
         ∨ ∃ shared count,
             enableSecureMode params && gt (qber q) QBER_THRESHOLD = false
             ∧ errorCorrection (errorCorrectionBlockSize params)
                 (remainder sifted.1 q) (remainder sifted.2 q)
               = Some (shared, count)
             ∧ r = privacyAmplification params (length sifted.1) q
                     (length (remainder sifted.1 q)) shared count
                     (log ++ [LogQBERCheck (sampleSize q) (errors q) (qber q)]
                      ++ qberNotes params q
                      ++ [LogKeyForErrorCorrection (length (remainder sifted.1 q));
                          LogErrorCorrectionCompleted count;
                          if keysMatch (remainder sifted.1 q) shared
                          then LogKeysReconciled else LogKeysMismatch])).
Proof.
  intros Hrun sifted log.
  unfold runBB84Simulation, siftAndContinue in Hrun.
  destruct (MAX_ARRAY_LENGTH <? numQubits params)%Z; [done|].
  fold sifted in Hrun. fold log in Hrun.
  destruct (decide (length sifted.1 = 0)) as [Hempty|Hne].
  { left. split; [done|]. injection Hrun as <-. unfold emptySiftResult, log.
    by rewrite Hempty, <- app_assoc. }
  right. unfold estimateAndContinue in Hrun.
  destruct (estimateQBER _ _ _) as [q|] eqn:Hest; [|done].
  exists q. split_and!; [done..|].
  destruct (enableSecureMode params && gt (qber q) QBER_THRESHOLD) eqn:Halert.
  { left. split; [done|]. injection Hrun as <-. unfold eveDetectedResult.
    subst log. f_equal. unfold transmissionLog. simpl.
    by rewrite <- !app_assoc. }
  right. unfold reconcileAndAmplify in Hrun.
  fold (remainder sifted.1 q) (remainder sifted.2 q) in Hrun.
  destruct (errorCorrection _ _ _) as [[shared count]|] eqn:Hec; [|done].
  exists shared, count. split_and!; [done..|].
  injection Hrun as <-. f_equal. subst log. unfold qberNotes, transmissionLog.
  repeat case_match; simpl; by rewrite <- ?app_assoc.
Qed.

Lemma exit_of_emptySiftResult params :
  exit_of (emptySiftResult params) = Some EmptySift.
Proof.
  unfold exit_of, emptySiftResult, transmissionLog.
  by destruct (enableEve params).
Qed.

Lemma exit_of_eveDetectedResult params n q :
  exit_of (eveDetectedResult params n q) = Some EveDetected.
Proof.
  unfold exit_of, eveDetectedResult, transmissionLog.
  by destruct (enableEve params).
Qed.

(** ** Privacy amplification *)

Lemma be_bytes_length n : ∀ x, length (SHA256.be_bytes n x) = n.
Proof.
  induction n as [|n IH]; intros x; simpl; [done|].
  rewrite length_app, IH. simpl. lia.
Qed.

Lemma digest_length message : length (SHA256.digest message) = 32.
Proof. unfold SHA256.digest. by rewrite !length_app, !be_bytes_length. Qed.

Lemma hex_digit_lowercase d : lowercase_hex (hex_digit d) = true.
Proof. unfold hex_digit. by repeat case_match. Qed.

Lemma byte_toHex_append b s :
  byte_toHex b +:+ s
  = String (hex_digit (b / 16)) (String (hex_digit (b mod 16)) s).
Proof. reflexivity. Qed.

Lemma hex_of_bytes_length bytes :
  String.length
    (foldr (λ b hexHash, byte_toHex b +:+ hexHash) EmptyString bytes)
  = 2 * length bytes.
Proof.
  induction bytes as [|b bytes IH]; [done|].
  cbn [foldr]. rewrite byte_toHex_append. cbn [String.length].
  rewrite IH. simpl. lia.
Qed.

Lemma hex_of_bytes_lowercase bytes :
  forallb lowercase_hex
    (list_ascii_of_string
       (foldr (λ b hexHash, byte_toHex b +:+ hexHash) EmptyString bytes))
  = true.
Proof.
  induction bytes as [|b bytes IH]; [done|].
  cbn [foldr]. rewrite byte_toHex_append. cbn [list_ascii_of_string forallb].
  by rewrite !hex_digit_lowercase, IH.
Qed.

(** The digest is rendered as 64 lowercase hexadecimal characters. *)
Lemma sha256_length message : String.length (sha256 message) = 64.
Proof. unfold sha256. by rewrite hex_of_bytes_length, digest_length. Qed.

Lemma sha256_lowercase message :
  forallb lowercase_hex (list_ascii_of_string (sha256 message)) = true.
Proof. apply hex_of_bytes_lowercase. Qed.

Lemma substring_from_0_chars n : ∀ s,
  list_ascii_of_string (substring 0 n s) = take n (list_ascii_of_string s).
Proof.
  induction n as [|n IH]; intros [|c s]; simpl; try done.
  by rewrite IH.
Qed.

Lemma string_length_chars s : String.length s = length (list_ascii_of_string s).
Proof. induction s; simpl; congruence. Qed.

Lemma forallb_take {A} (f : A → bool) n l :
  forallb f l = true → forallb f (take n l) = true.
Proof.
  revert l. induction n as [|n IH]; intros [|x l]; simpl; try done.
  intros [? ?]%andb_prop. rewrite IH by done. by rewrite andb_true_r.
Qed.

(** The truncation of a digest: at most the 64 characters there are. *)
Lemma truncated_digest message n :
  String.length (String_substring_from_0 (sha256 message) n)
  = Z.to_nat (Z.min 64 n)
  ∧ forallb lowercase_hex
      (list_ascii_of_string (String_substring_from_0 (sha256 message) n))
    = true.
Proof.
  unfold String_substring_from_0. split.
  - rewrite string_length_chars, substring_from_0_chars, length_take.
    rewrite <- string_length_chars, sha256_length. lia.
  - rewrite substring_from_0_chars. apply forallb_take, sha256_lowercase.
Qed.

(** The two [return]s of step 6. *)
Lemma privacyAmplification_exit params siftedLength q preECKeyLength shared
    count entries :
  let r := privacyAmplification params siftedLength q preECKeyLength shared
             count entries in
  qberResult r = Some q ∧ errorsCorrected r = count
  ∧ eveDetected r = false
  ∧ ((shared = [] ∧ exit_of r = Some EmptyReconciledKey
      ∧ siftedKeyLength r = siftedLength
      ∧ finalKeyAlice r = "" ∧ finalKeyBob r = ""
      ∧ log r = entries ++ [LogCannotAmplify])
     ∨ (shared ≠ [] ∧ exit_of r = Some Completed
        ∧ siftedKeyLength r = preECKeyLength
        ∧ finalKeyAlice r
          = String_substring_from_0 (sha256 (join shared))
              (desiredHexLength (privacyAmplificationLength params))
        ∧ finalKeyBob r = finalKeyAlice r
        ∧ log r
          = entries ++ [LogPrivacyAmplificationCompleted
                      (privacyAmplificationLength params);
                    LogFinalKeyAlice (finalKeyAlice r);
                    LogFinalKeyBob (finalKeyBob r)])).
Proof.
  intros r. subst r. unfold privacyAmplification.
  rewrite join_length.
  destruct (decide (length shared = 0)) as [Hlen|Hlen]; simpl.
  - split_and!; try done. left. apply nil_length_inv in Hlen.
    unfold exit_of. simpl. by rewrite last_snoc.
  - split_and!; try done. right.
    split_and!; try done.
    + by intros ->.
    + unfold exit_of. simpl.
      rewrite (last_app_cons entries), (last_cons_cons _ _ [_]). done.
Qed.

(** ** The final keys *)

(** Whatever the exit, the two keys of a result are the same string. *)
Lemma final_keys_equal params random r :
  runBB84Simulation params random = Resolved r →
  finalKeyAlice r = finalKeyBob r.
Proof.
  intros [[_ ->]|(q & _ & _ & [[_ ->]|(shared & count & _ & _ & ->)])]%run_resolved;
    try done.
  match goal with
  | |- context [ privacyAmplification ?p ?s ?q ?n ?k ?c ?l ] =>
      destruct (privacyAmplification_exit p s q n k c l)
        as (_ & _ & _ & [(_ & _ & _ & -> & -> & _)|(_ & _ & _ & _ & -> & _)])
  end; done.
Qed.

(** A run that completes went through all the stages. *)
Lemma run_completed params random r :
  runBB84Simulation params random = Resolved r →
  exit_of r = Some Completed →
  let sifted := sift (numQubits params) (transmit params random).1 in
  ∃ q shared count,
    estimateQBER sifted.1 sifted.2 (qberSampleSize params) = Some q
    ∧ errorCorrection (errorCorrectionBlockSize params)
        (remainder sifted.1 q) (remainder sifted.2 q) = Some (shared, count)
    ∧ shared ≠ []
    ∧ qberResult r = Some q
    ∧ siftedKeyLength r = length (remainder sifted.1 q)
    ∧ finalKeyAlice r
      = String_substring_from_0 (sha256 (join shared))
          (desiredHexLength (privacyAmplificationLength params))
    ∧ finalKeyBob r = finalKeyAlice r.
Proof.
  intros Hrun Hexit sifted.
  destruct (run_resolved _ _ _ Hrun)
    as [[_ ->]|(q & _ & Hq & [[_ ->]|(shared & count & _ & Hec & ->)])].
  - by rewrite exit_of_emptySiftResult in Hexit.
  - by rewrite exit_of_eveDetectedResult in Hexit.
  - exists q, shared, count.
    match goal with
    | |- context [ privacyAmplification ?p ?s ?q ?n ?k ?c ?l ] =>
        destruct (privacyAmplification_exit p s q n k c l)
          as (Hqr & _ & _ & [(_ & He & _)|(Hne & _ & Hlen & Ha & Hb & _)])
    end.
    + rewrite He in Hexit. done.
    + done.
Qed.

(** C2, as amended. A run that completes returns, as both keys, the
    lowercase hexadecimal SHA-256 digest of the serialized reconciled key,
    cut to [ceil(privacyAmplificationLength / 4)] characters or to the 64
    characters the digest has, whichever is less; the two keys are the same
    string. *)
Theorem final_keys_are_the_truncated_digest
    (params : SimulationParameters) (random : RandomSource)
    (r : SimulationResult) :
  runBB84Simulation params random = Resolved r →
  exit_of r = Some Completed →
  let sifted := sift (numQubits params) (transmit params random).1 in
  let length_asked := desiredHexLength (privacyAmplificationLength params) in
  ∃ q reconciled count,
    estimateQBER sifted.1 sifted.2 (qberSampleSize params) = Some q
    ∧ errorCorrection (errorCorrectionBlockSize params)
        (remainder sifted.1 q) (remainder sifted.2 q)
      = Some (reconciled, count)
    ∧ reconciled ≠ []
    ∧ finalKeyAlice r
      = String_substring_from_0 (sha256 (join reconciled)) length_asked
    ∧ finalKeyBob r = finalKeyAlice r
    ∧ String.length (finalKeyAlice r) = Z.to_nat (Z.min 64 length_asked)
    ∧ forallb lowercase_hex (list_ascii_of_string (finalKeyAlice r)) = true.
Proof.
  intros Hrun Hexit sifted length_asked.
  destruct (run_completed _ _ _ Hrun Hexit)
    as (q & shared & count & Hq & Hec & Hne & _ & _ & Ha & Hb).
  exists q, shared, count. split_and!; try done.
  - rewrite Ha. apply truncated_digest.
  - rewrite Ha. apply truncated_digest.
Qed.

(** C2, counterexample. With 512 bits asked for, a completed run returns
    the 64 characters of the digest, not the 128 the claim promises. *)
Lemma final_key_shorter_than_asked :
  let params := parameters 8 20 4 512 false false in
  ∃ r, runBB84Simulation params always_below = Resolved r
       ∧ exit_of r = Some Completed
       ∧ (0 < privacyAmplificationLength params)%Z
       ∧ desiredHexLength (privacyAmplificationLength params) = 128%Z
       ∧ String.length (finalKeyAlice r) = 64.
Proof.
  eexists. split; [vm_compute; reflexivity|]. by vm_compute.
Qed.

(** C3, counterexample. No run returns two different keys, so none does
    after a failed reconciliation. *)
Lemma no_run_returns_different_keys :
  ¬ ∃ params random r,
      runBB84Simulation params random = Resolved r
      ∧ LogKeysMismatch ∈ log r
      ∧ finalKeyAlice r ≠ finalKeyBob r.
Proof.
  intros (params & random & r & Hrun & _ & Hne).
  by apply Hne, (final_keys_equal params random).
Qed.

Lemma keysMatch_nil shared : keysMatch [] shared = true.
Proof. done. Qed.

Lemma remainder_same_length params random q :
  let sifted := sift (numQubits params) (transmit params random).1 in
  length (remainder sifted.1 q) = length (remainder sifted.2 q).
Proof. apply Array_slice_same_length, sift_length. Qed.

(** The entry on the mismatch is in the log exactly when the check after
    the reconciliation fails. *)
Lemma run_mismatch params random r :
  runBB84Simulation params random = Resolved r →
  LogKeysMismatch ∈ log r →
  let sifted := sift (numQubits params) (transmit params random).1 in
  ∃ q shared count,
    estimateQBER sifted.1 sifted.2 (qberSampleSize params) = Some q
    ∧ errorCorrection (errorCorrectionBlockSize params)
        (remainder sifted.1 q) (remainder sifted.2 q) = Some (shared, count)
    ∧ keysMatch (remainder sifted.1 q) shared = false
    ∧ exit_of r = Some Completed.
Proof.
  intros Hrun Hin sifted.
  destruct (run_resolved _ _ _ Hrun)
    as [[_ ->]|(q & _ & Hq & [[_ ->]|(shared & count & _ & Hec & ->)])].
  - exfalso. revert Hin. unfold emptySiftResult, transmissionLog. simpl.
    destruct (enableEve params); simpl;
      rewrite ?elem_of_cons, elem_of_nil; intuition discriminate.
  - exfalso. revert Hin. unfold eveDetectedResult, transmissionLog. simpl.
    destruct (enableEve params); simpl;
      rewrite ?elem_of_cons, elem_of_nil; intuition discriminate.
  - exists q, shared, count. fold sifted in Hec |- *.
    assert (keysMatch (remainder sifted.1 q) shared = false) as Hmatch.
    { match type of Hin with
      | context [ privacyAmplification ?p ?s ?q ?n ?k ?c ?l ] =>
          destruct (privacyAmplification_exit p s q n k c l)
            as (_ & _ & _ & [(_ & _ & _ & _ & _ & Hlog)
                            |(_ & _ & _ & _ & _ & Hlog)])
      end; rewrite Hlog in Hin; clear Hlog; revert Hin;
        unfold transmissionLog, qberNotes;
        destruct (keysMatch _ shared); [|done| |done];
        repeat case_match; simpl;
        rewrite ?elem_of_app, ?elem_of_cons, ?elem_of_nil; intuition discriminate. }
    split_and!; try done.
    match goal with
    | |- context [ privacyAmplification ?p ?s ?q ?n ?k ?c ?l ] =>
        destruct (privacyAmplification_exit p s q n k c l)
          as (_ & _ & _ & [(-> & _)|(_ & He & _)])
    end; [|done].
    apply errorCorrection_length in Hec. simpl in Hec.
    pose proof (remainder_same_length params random q) as Hlen.
    fold sifted in Hlen. simpl in Hlen. rewrite <- Hec in Hlen.
    apply nil_length_inv in Hlen. rewrite Hlen in Hmatch. done.
Qed.

(** C3, as amended. When the check after the reconciliation fails, the run
    still goes on to privacy amplification with Bob's corrected key, and
    both final keys are the truncated digest of that one key: they are
    equal in this case too. *)
Theorem failed_reconciliation_still_yields_one_key
    (params : SimulationParameters) (random : RandomSource)
    (r : SimulationResult) :
  runBB84Simulation params random = Resolved r →
  LogKeysMismatch ∈ log r →
  let sifted := sift (numQubits params) (transmit params random).1 in
  ∃ q corrected count,
    estimateQBER sifted.1 sifted.2 (qberSampleSize params) = Some q
    ∧ errorCorrection (errorCorrectionBlockSize params)
        (remainder sifted.1 q) (remainder sifted.2 q)
      = Some (corrected, count)
    ∧ keysMatch (remainder sifted.1 q) corrected = false
    ∧ exit_of r = Some Completed
    ∧ finalKeyBob r
      = String_substring_from_0 (sha256 (join corrected))
          (desiredHexLength (privacyAmplificationLength params))
    ∧ finalKeyAlice r = finalKeyBob r.
Proof.
  intros Hrun Hin sifted.
  destruct (run_mismatch _ _ _ Hrun Hin)
    as (q & shared & count & Hq & Hec & Hmatch & Hexit).
  destruct (run_completed _ _ _ Hrun Hexit)
    as (q' & shared' & count' & Hq' & Hec' & _ & _ & _ & Ha & Hb).
  fold sifted in Hq, Hec, Hq', Hec', Hmatch.
  assert (q' = q) as -> by congruence.
  assert (shared' = shared) as -> by congruence.
  exists q, shared, count. split_and!; try done; congruence.
Qed.

(** C10. The field [siftedKeyLength] of the result is 0 on the exit for an
    empty sifted key, the length of the sifted key on the exits for a
    detected eavesdropper and for an empty reconciled key, and the length
    of what is left after the QBER sample on completion: the length of the
    sifted key less the sample count. *)
Theorem siftedKeyLength_depends_on_the_exit
    (params : SimulationParameters) (random : RandomSource)
    (r : SimulationResult) :
  runBB84Simulation params random = Resolved r →
  let sifted := sift (numQubits params) (transmit params random).1 in
  match exit_of r with
  | Some EmptySift => siftedKeyLength r = 0
  | Some EveDetected => siftedKeyLength r = length sifted.1
  | Some EmptyReconciledKey => siftedKeyLength r = length sifted.1
  | Some Completed =>
      ∃ q, qberResult r = Some q
           ∧ siftedKeyLength r = length (remainder sifted.1 q)
           ∧ ∀ sampleCount,
               sampleSize q = Finite sampleCount → (0 ≤ sampleCount)%Z →
               (Z.of_nat (siftedKeyLength r)
                = Z.of_nat (length sifted.1) - sampleCount)%Z
  | None => False
  end.
Proof.
  intros Hrun sifted.
  destruct (run_resolved _ _ _ Hrun)
    as [[_ ->]|(q & _ & Hq & [[_ ->]|(shared & count & _ & Hec & ->)])].
  - by rewrite exit_of_emptySiftResult.
  - by rewrite exit_of_eveDetectedResult.
  - fold sifted in Hec |- *.
    match goal with
    | |- context [ privacyAmplification ?p ?s ?q ?n ?k ?c ?l ] =>
        destruct (privacyAmplification_exit p s q n k c l)
          as (Hqr & _ & _ & [(_ & -> & Hlen & _)|(Hne & -> & Hlen & _)])
    end; [done|].
    exists q. split_and!; [done..|].
    intros z Hz Hpos. rewrite Hlen. unfold remainder. rewrite Hz.
    rewrite Array_slice_from_length by done.
    apply errorCorrection_length in Hec. simpl in Hec.
    pose proof (remainder_same_length params random q) as Hsame.
    fold sifted in Hsame. simpl in Hsame. rewrite <- Hec in Hsame.
    assert (length shared ≠ 0) as Hshared by (by intros ?%nil_length_inv).
    unfold remainder in Hsame. rewrite Hz in Hsame.
    pose proof (Array_slice_from_length sifted.1 z Hpos) as Hrem.
    lia.
Qed.

(** ** Parameter records that are not well formed *)

Lemma siftAndContinue_not_rejected params t :
  siftAndContinue params t ≠ RangeError.
Proof.
  unfold siftAndContinue, estimateAndContinue, reconcileAndAmplify.
  by repeat case_match.
Qed.

Lemma sift_no_qubits params t :
  (numQubits params ≤ 0)%Z → sift (numQubits params) t = ([], []).
Proof.
  intros Hn. unfold sift. by replace (Z.to_nat (numQubits params)) with 0 by lia.
Qed.

(** C9, counterexample. A record with a negative number of qubits and one
    with a percentage above 100 are malformed, and the service returns a
    result for both. *)
Lemma malformed_parameters_are_accepted :
  let negative_count := parameters (-5) 20 32 128 false false in
  let excessive_percentage := parameters 8 150 32 128 false false in
  malformed negative_count
  ∧ runBB84Simulation negative_count always_below
    = Resolved (emptySiftResult negative_count)
  ∧ malformed excessive_percentage
  ∧ ∃ r, runBB84Simulation excessive_percentage always_below = Resolved r
         ∧ exit_of r = Some EmptyReconciledKey.
Proof.
  split_and!.
  - left. simpl. lia.
  - vm_compute. reflexivity.
  - do 4 right. simpl. lia.
  - eexists. split; [vm_compute; reflexivity|]. by vm_compute.
Qed.

(** ** Runs without Eve *)

Lemma count_errors_same count : ∀ i key qberErrors,
  count_errors count i key key qberErrors = qberErrors.
Proof.
  induction count as [|count IH]; intros i key qberErrors; simpl; [done|].
  rewrite IH. by destruct (decide (key !! i ≠ key !! i)).
Qed.

(** On two equal keys the estimate finds no error, and the rate is 0. *)
Lemma estimateQBER_same key qberSampleSize q :
  estimateQBER key key qberSampleSize = Some q →
  errors q = 0 ∧ qber q = of_Z 0.
Proof.
  unfold estimateQBER. intros Hq.
  destruct (loop_bound _) as [count|] eqn:Hcount; [|done].
  injection Hq as <-. simpl. rewrite count_errors_same. split; [done|].
  destruct (qberSampleCount _ _) as [z| | |]; simpl; try done.
  destruct (Z.ltb_spec 0 z); [|done].
  by apply zero_div_of_Z_pos.
Qed.

Lemma reconcile_block_same bs key i count :
  reconcile_block bs key i (key, count) = (key, count).
Proof.
  unfold reconcile_block. simpl.
  destruct (_ =? _)%Z; [done|].
  by destruct (decide (_ ≠ _)).
Qed.

(** On two equal keys the reconciliation corrects nothing. *)
Lemma reconcile_loop_same fuel : ∀ bs key i count result,
  reconcile_loop fuel bs key i (key, count) = Some result →
  result = (key, count).
Proof.
  induction fuel as [|fuel IH]; intros bs key i count result; simpl;
    destruct (_ <? _)%Z; intros Hloop; simplify_eq; try done.
  rewrite reconcile_block_same in Hloop. by apply IH in Hloop.
Qed.

(** Without Eve, Bob measures Alice's bit wherever their bases agree. *)
Lemma bob_measures_alice_bit params random i :
  enableEve params = false →
  let t := (transmit params random).1 in
  aliceBases t !! i = bobBases t !! i →
  bobMeasuredBits t !! i = aliceBits t !! i.
Proof.
  intros Heve t Hbases.
  destruct (transmit_run params random)
    as (aBits & aBases & tBits & tBases & bBases & bBits & Ht
        & HaBits & HaBases & HbBases & HbBits & Hno & Hmeasure).
  fold t in Ht. rewrite Ht in Hbases |- *. simpl in *.
  destruct (Hno Heve) as [-> ->].
  destruct (decide (i < Z.to_nat (numQubits params))) as [Hi|Hi].
  - rewrite (Hmeasure i Hi Hbases). symmetry.
    apply list_lookup_lookup_total_lt. lia.
  - rewrite !lookup_ge_None_2 by lia. done.
Qed.

Lemma sifted_keys_equal params random :
  enableEve params = false →
  let sifted := sift (numQubits params) (transmit params random).1 in
  sifted.1 = sifted.2.
Proof.
  intros Heve sifted. subst sifted. rewrite sift_spec. simpl.
  apply list_fmap_ext. intros k i Hi%list_elem_of_lookup_2.
  pose proof (agreeing_bound _ _ _ Hi) as Hlt.
  unfold agreeing in Hi. apply list_elem_of_filter in Hi as [Hbases _].
  pose proof (bob_measures_alice_bit params random i Heve Hbases) as Hbit.
  destruct (transmit_run params random)
    as (aBits & aBases & tBits & tBases & bBases & bBits & Ht
        & HaBits & HaBases & HbBases & HbBits & _ & _).
  rewrite Ht in Hbit |- *. simpl in *.
  rewrite !list_lookup_lookup_total_lt in Hbit by lia. by simplify_eq.
Qed.

(** C7. Without Eve, Bob's measured bit is Alice's bit at every position
    where their bases agree, whatever the random source draws; so every
    such run that returns a result has corrected no error, and wherever it
    has estimated the QBER, the estimate counts no error and the rate is
    exactly 0. *)
Theorem without_eve_there_are_no_errors
    (params : SimulationParameters) (random : RandomSource) :
  enableEve params = false →
  let t := (transmit params random).1 in
  (∀ i, aliceBases t !! i = bobBases t !! i →
        bobMeasuredBits t !! i = aliceBits t !! i)
  ∧ ∀ r, runBB84Simulation params random = Resolved r →
         errorsCorrected r = 0
         ∧ ∀ q, qberResult r = Some q → qber q = of_Z 0 ∧ errors q = 0.
Proof.
  intros Heve t. split.
  { intros i. by apply bob_measures_alice_bit. }
  intros r Hrun.
  pose proof (sifted_keys_equal params random Heve) as Hsifted.
  destruct (run_resolved _ _ _ Hrun)
    as [[_ ->]|(q & _ & Hq & [[_ ->]|(shared & count & _ & Hec & ->)])].
  - done.
  - simpl in Hsifted. rewrite <- Hsifted in Hq.
    apply estimateQBER_same in Hq as [? ?].
    split; [done|]. intros q' Hq'. simpl in Hq'. by simplify_eq.
  - simpl in Hsifted. rewrite <- Hsifted in Hq, Hec.
    apply estimateQBER_same in Hq as [? ?].
    apply reconcile_loop_same in Hec. injection Hec as -> ->.
    match goal with
    | |- context [ privacyAmplification ?p ?s ?q ?n ?k ?c ?l ] =>
        destruct (privacyAmplification_exit p s q n k c l)
          as (Hqr & -> & _)
    end.
    split; [done|]. intros q' Hq'. rewrite Hqr in Hq'. by simplify_eq.
Qed.

(** ** Error reconciliation *)

(** The loop over the blocks never ends when the block size is not
    positive and there is a key to reconcile: no amount of fuel helps. *)
Lemma reconcile_loop_stuck fuel : ∀ bs alice i state,
  (bs ≤ 0)%Z → (i < Z.of_nat (length alice))%Z →
  reconcile_loop fuel bs alice i state = None.
Proof.
  induction fuel as [|fuel IH]; intros bs alice i state Hbs Hi; simpl;
    destruct (Z.ltb_spec i (Z.of_nat (length alice))); try lia; [done|].
  apply IH; lia.
Qed.

(** More fuel does not change a result. *)
Lemma reconcile_loop_fuel fuel : ∀ fuel' bs alice i state result,
  reconcile_loop fuel bs alice i state = Some result → fuel ≤ fuel' →
  reconcile_loop fuel' bs alice i state = Some result.
Proof.
  induction fuel as [|fuel IH]; intros fuel' bs alice i state result; simpl;
    destruct (_ <? _)%Z eqn:Hi; intros Hloop Hle; try done.
  - destruct fuel'; simpl; by rewrite Hi.
  - destruct fuel' as [|fuel']; [lia|]. simpl. rewrite Hi.
    apply IH; [done|lia].
  - destruct fuel'; simpl; by rewrite Hi.
Qed.

(** With a block size that is not positive, a run that has a key to
    reconcile never settles. *)
Example block_size_zero_never_settles :
  runBB84Simulation (parameters 8 20 0 128 false false) always_below
  = NoTermination.
Proof. vm_compute. reflexivity. Qed.

(** A slice of non-negative bounds, as a block. *)
Lemma Array_slice_block {A} (l : list A) (i w : Z) :
  (0 ≤ i)%Z → (0 ≤ w)%Z →
  Array_slice l (Finite i) (Some (Finite (i + w)))
  = take (Z.to_nat w) (drop (Z.to_nat i) l).
Proof.
  intros Hi Hw. unfold Array_slice, relative_index.
  destruct (Z.ltb_spec i 0); [lia|].
  destruct (Z.ltb_spec (i + w) 0); [lia|].
  destruct (decide (Z.to_nat i ≤ length l)) as [Hle|Hgt].
  - replace (Z.to_nat (Z.min i (Z.of_nat (length l)))) with (Z.to_nat i) by lia.
    apply list_eq. intros j. rewrite !lookup_take, !lookup_drop.
    destruct (decide (j < Z.to_nat w)) as [Hj|Hj].
    + destruct (decide (Z.to_nat i + j < length l)).
      * rewrite decide_True by lia. done.
      * rewrite lookup_ge_None_2 by lia. by case_decide.
    + rewrite decide_False by lia. done.
  - rewrite !drop_ge by lia. by rewrite !take_nil.
Qed.

Lemma block_length {A} size k (key : list A) :
  length (block size k key) ≤ size.
Proof. unfold block. rewrite length_take. lia. Qed.

Lemma block_same_length {A} size k (key1 key2 : list A) :
  length key1 = length key2 →
  length (block size k key1) = length (block size k key2).
Proof.
  intros Hlen. unfold block. rewrite !length_take, !length_drop. lia.
Qed.

Lemma block_beyond {A} size k (key : list A) :
  length key ≤ k * size → block size k key = [].
Proof. intros Hk. unfold block. rewrite drop_ge by done. apply take_nil. Qed.

(** A block of a key after an assignment within the block, and after an
    assignment within another block. *)
Lemma block_insert {A} size k j (x : A) key :
  j < size →
  block size k (<[k * size + j := x]> key) = <[j := x]> (block size k key).
Proof.
  intros Hj. unfold block.
  rewrite drop_insert_ge by lia. rewrite take_insert_lt by lia.
  f_equal. lia.
Qed.

Lemma block_insert_other {A} size k k' j (x : A) key :
  j < size → k' ≠ k →
  block size k' (<[k * size + j := x]> key) = block size k' key.
Proof.
  intros Hj Hk. unfold block.
  destruct (decide (k' < k)) as [Hlt|Hge].
  - rewrite drop_insert_ge by nia. rewrite take_insert_ge by nia. done.
  - rewrite drop_insert_lt by nia. done.
Qed.

(** The inner loop finds the first difference of its range. *)
Lemma find_error_Some count : ∀ j aliceBlock bobBlock found,
  find_error count j aliceBlock bobBlock = Some found →
  j ≤ found < j + count
  ∧ aliceBlock !! found ≠ bobBlock !! found
  ∧ ∀ j', j ≤ j' < found → aliceBlock !! j' = bobBlock !! j'.
Proof.
  induction count as [|count IH]; intros j aliceBlock bobBlock found; simpl;
    [done|].
  destruct (decide (aliceBlock !! j ≠ bobBlock !! j)) as [Hne|Heq].
  - intros [= <-]. split_and!; [lia|lia|done|lia].
  - intros (Hrange & Hfound & Hbefore)%IH. split_and!; [lia|lia|done|].
    intros j' Hj'. destruct (decide (j' = j)) as [->|].
    + by destruct (decide (aliceBlock !! j = bobBlock !! j)).
    + apply Hbefore. lia.
Qed.

Lemma find_error_None count : ∀ j aliceBlock bobBlock,
  find_error count j aliceBlock bobBlock = None →
  ∀ j', j ≤ j' < j + count → aliceBlock !! j' = bobBlock !! j'.
Proof.
  induction count as [|count IH]; intros j aliceBlock bobBlock; simpl;
    [lia|].
  destruct (decide (aliceBlock !! j ≠ bobBlock !! j)) as [Hne|Heq]; [done|].
  intros Hnone j' Hj'. destruct (decide (j' = j)) as [->|].
  - by destruct (decide (aliceBlock !! j = bobBlock !! j)).
  - apply (IH _ _ _ Hnone). lia.
Qed.

(** One iteration of the loop, on the [k]-th block. *)
Lemma reconcile_block_spec (bs : Z) alice k shared count :
  (0 < bs)%Z → length shared = length alice →
  let size := Z.to_nat bs in
  let aliceBlock := block size k alice in
  let bobBlock := block size k shared in
  (parity aliceBlock = parity bobBlock
   ∧ reconcile_block bs alice (Z.of_nat (k * size)) (shared, count)
     = (shared, count))
  ∨ (parity aliceBlock ≠ parity bobBlock
     ∧ ∃ j a, j < size
              ∧ first_difference aliceBlock bobBlock j
              ∧ aliceBlock !! j = Some a
              ∧ reconcile_block bs alice (Z.of_nat (k * size)) (shared, count)
                = (<[k * size + j := a]> shared, S count)).
Proof.
  intros Hbs Hlen size aliceBlock bobBlock.
  unfold reconcile_block. cbn [fst snd].
  rewrite !(Array_slice_block _ (Z.of_nat (k * size)) bs) by lia.
  rewrite Nat2Z.id. fold size. fold (block size k alice) (block size k shared).
  fold aliceBlock bobBlock.
  pose proof (block_length size k alice) as Hsize. fold aliceBlock in Hsize.
  pose proof (block_same_length size k shared alice Hlen) as Hsame.
  fold aliceBlock bobBlock in Hsame.
  replace (Z.min bs (Z.of_nat (length aliceBlock)))
    with (Z.of_nat (length aliceBlock)) by lia.
  destruct (Z.eqb_spec (Z.of_nat (length aliceBlock)) 0) as [Hempty|Hne].
  { left. split; [|done].
    assert (aliceBlock = []) as -> by (apply nil_length_inv; lia).
    assert (bobBlock = []) as -> by (apply nil_length_inv; simpl in *; lia).
    done. }
  rewrite !(Array_slice_block _ 0 (Z.of_nat (length aliceBlock))) by lia.
  rewrite Nat2Z.id. cbn [Z.to_nat drop].
  rewrite (take_ge aliceBlock) by lia. rewrite (take_ge bobBlock) by lia.
  destruct (decide (parity aliceBlock ≠ parity bobBlock)) as [Hparity|Hparity].
  - right. split; [done|].
    destruct (find_error (length aliceBlock) 0 aliceBlock bobBlock)
      as [j|] eqn:Hfind.
    + apply find_error_Some in Hfind as (Hrange & Hdiff & Hbefore).
      destruct (lookup_lt_is_Some_2 aliceBlock j ltac:(lia)) as [a Ha].
      exists j, a. split_and!; [lia| |done|].
      * split; [done|]. intros j' Hj'. apply Hbefore. lia.
      * rewrite (list_lookup_total_correct _ _ _ Ha).
        do 2 f_equal. lia.
    + exfalso. apply Hparity. f_equal. apply list_eq. intros j.
      destruct (decide (j < length aliceBlock)).
      * apply (find_error_None _ _ _ _ Hfind). lia.
      * rewrite !lookup_ge_None_2 by lia. done.
  - left. split; [|done]. by destruct (decide (parity aliceBlock = parity bobBlock)).
Qed.

Lemma filter_ext_elem_of {A} (P1 P2 : A → Prop)
    `{!∀ x, Decision (P1 x), !∀ x, Decision (P2 x)} (l : list A) :
  (∀ x, x ∈ l → P1 x ↔ P2 x) → filter P1 l = filter P2 l.
Proof.
  induction l as [|x l IH]; intros Hext; [done|].
  rewrite !filter_cons.
  rewrite IH by (intros y Hy; apply Hext; by right).
  pose proof (Hext x ltac:(by left)) as Hx.
  destruct (decide (P1 x)), (decide (P2 x)); tauto.
Qed.

Lemma block_reconciled_beyond size k alice shared :
  length shared = length alice → length alice ≤ k * size →
  block_reconciled (block size k alice) (block size k shared)
    (block size k shared).
Proof.
  intros Hlen Hk. left. rewrite !block_beyond by lia. done.
Qed.

(** The loop from the [k]-th block on: it ends, it leaves the blocks before
    the [k]-th alone, it reconciles each later block on its own, and it
    counts the blocks whose parities differ. *)
Lemma reconcile_loop_spec (bs : Z) alice fuel :
  (0 < bs)%Z →
  let size := Z.to_nat bs in
  ∀ k shared count,
    length shared = length alice →
    length alice ≤ k * size + fuel →
    ∃ corrected,
      reconcile_loop fuel bs alice (Z.of_nat (k * size)) (shared, count)
      = Some (corrected,
              count + length (filter
                        (λ k', parity (block size k' alice)
                               ≠ parity (block size k' shared))
                        (seq k fuel)))
      ∧ length corrected = length alice
      ∧ (∀ k', k' < k → block size k' corrected = block size k' shared)
      ∧ ∀ k', k ≤ k' →
          block_reconciled (block size k' alice) (block size k' shared)
            (block size k' corrected).
Proof.
  intros Hbs size.
  induction fuel as [|fuel IH]; intros k shared count Hlen Hfuel.
  - exists shared. simpl.
    destruct (Z.ltb_spec (Z.of_nat (k * size)) (Z.of_nat (length alice)));
      [lia|].
    split_and!; [by rewrite Nat.add_0_r|done|done|].
    intros k' Hk'. apply block_reconciled_beyond; [done|nia].
  - cbn [reconcile_loop].
    destruct (Z.ltb_spec (Z.of_nat (k * size)) (Z.of_nat (length alice)))
      as [Hin|Hout].
    + replace (Z.of_nat (k * size) + bs)%Z with (Z.of_nat (S k * size)) by lia.
      cbn [seq]. rewrite filter_cons.
      pose proof (reconcile_block_spec bs alice k shared count Hbs Hlen)
        as Hblock.
      cbv zeta in Hblock. fold size in Hblock.
      destruct Hblock
        as [[Hparity ->]|(Hparity & j & a & Hj & Hfirst & Ha & ->)].
      * destruct (IH (S k) shared count Hlen ltac:(lia))
          as (corrected & -> & Hlength & Hbefore & Hafter).
        exists corrected. rewrite decide_False by (by intros ?).
        split_and!; [done|done| |].
        -- intros k' Hk'. apply Hbefore. lia.
        -- intros k' Hk'. destruct (decide (k' = k)) as [->|].
           ++ rewrite Hbefore by lia. by left.
           ++ apply Hafter. lia.
      * destruct (IH (S k) (<[k * size + j := a]> shared) (S count)
                    ltac:(by rewrite length_insert) ltac:(lia))
          as (corrected & -> & Hlength & Hbefore & Hafter).
        exists corrected. rewrite decide_True by done.
        split_and!; [|done| |].
        -- do 2 f_equal. cbn [length].
           rewrite (filter_ext_elem_of _
                      (λ k', parity (block size k' alice)
                             ≠ parity (block size k' shared))).
           { lia. }
           intros k' Hk'%elem_of_seq.
           rewrite block_insert_other by lia. done.
        -- intros k' Hk'. rewrite Hbefore by lia.
           apply block_insert_other; lia.
        -- intros k' Hk'. destruct (decide (k' = k)) as [->|].
           ++ rewrite Hbefore by lia. rewrite block_insert by done.
              right. split; [done|]. by exists j, a.
           ++ specialize (Hafter k' ltac:(lia)).
              by rewrite block_insert_other in Hafter by lia.
    + exists shared.
      rewrite (filter_ext_elem_of _ (λ _, False)).
      2:{ intros k' Hk'%elem_of_seq.
          rewrite !block_beyond by nia. done. }
      assert (filter (λ _ : nat, False) (seq k (S fuel)) = []) as ->.
      { generalize (seq k (S fuel)). intros l.
        induction l as [|x l IHl]; [done|]. by rewrite filter_cons, IHl. }
      split_and!; [by rewrite Nat.add_0_r|done|done|].
      intros k' Hk'. apply block_reconciled_beyond; [done|nia].
Qed.

(** C5. Reconciliation, on keys of equal length and for a positive block
    size, ends with a key as long as Alice's. Block by block: where the
    parities of Alice's and Bob's blocks agree, Bob's block is left as it
    is; where they differ, the first position at which the two blocks
    differ takes Alice's bit and nothing else in the block changes. The
    counter is the number of blocks whose parities differ, one correction
    for each of them. *)
Theorem reconciliation_corrects_the_first_error_of_a_block
    (errorCorrectionBlockSize : Z) (alice bob : list Bit) :
  (0 < errorCorrectionBlockSize)%Z →
  length alice = length bob →
  let size := Z.to_nat errorCorrectionBlockSize in
  ∃ corrected errorsCorrectedCount,
    errorCorrection errorCorrectionBlockSize alice bob
    = Some (corrected, errorsCorrectedCount)
    ∧ length corrected = length alice
    ∧ (∀ k, block_reconciled (block size k alice) (block size k bob)
              (block size k corrected))
    ∧ errorsCorrectedCount
      = length (filter (λ k, parity (block size k alice)
                             ≠ parity (block size k bob))
                  (seq 0 (length alice))).
Proof.
  intros Hbs Hlen size.
  destruct (reconcile_loop_spec errorCorrectionBlockSize alice (length alice)
              Hbs 0 bob 0 ltac:(done) ltac:(lia))
    as (corrected & Hloop & Hlength & _ & Hblocks).
  exists corrected. eexists. unfold errorCorrection.
  split_and!; [exact Hloop|done| |done].
  intros k. apply Hblocks. lia.
Qed.

(** ** QBER estimation *)

(** The comparison loop counts the positions of its range at which the two
    keys differ. *)
Lemma count_errors_spec count : ∀ i siftedAliceKey siftedBobKey qberErrors,
  count_errors count i siftedAliceKey siftedBobKey qberErrors
  = qberErrors
    + length (filter (λ j, siftedAliceKey !! j ≠ siftedBobKey !! j)
                (seq i count)).
Proof.
  induction count as [|count IH]; intros i a b qberErrors; simpl; [lia|].
  rewrite IH, filter_cons.
  destruct (decide (a !! i ≠ b !! i)); simpl; lia.
Qed.

(** The estimate: the sample count is the ceiling of the binary64 product,
    the errors are the mismatches among the first positions, as many as
    the sample count, and the rate is their quotient, or 0 for an empty
    sample. *)
Lemma estimateQBER_spec siftedAliceKey siftedBobKey qberSampleSize q :
  estimateQBER siftedAliceKey siftedBobKey qberSampleSize = Some q →
  sampleSize q
  = Math_ceil (mul (of_nat (length siftedAliceKey))
                   (div (of_Z qberSampleSize) (of_Z 100)))
  ∧ ∀ sampleCount, sampleSize q = Finite sampleCount →
      errors q
      = length (filter (λ j, siftedAliceKey !! j ≠ siftedBobKey !! j)
                  (seq 0 (Z.to_nat sampleCount)))
      ∧ qber q = if (0 <? sampleCount)%Z
                 then div (of_nat (errors q)) (of_Z sampleCount)
                 else of_Z 0.
Proof.
  unfold estimateQBER. intros Hq.
  destruct (loop_bound _) as [count|] eqn:Hcount; [|done].
  injection Hq as <-. simpl. split; [done|].
  intros sampleCount Hsample. rewrite Hsample in Hcount |- *.
  cbn [loop_bound] in Hcount. destruct (_ <=? _)%Z; [|done].
  injection Hcount as <-. by rewrite count_errors_spec.
Qed.

(** What is left for the reconciliation is the suffix of the sifted key
    that starts at the sample count. *)
Lemma remainder_suffix siftedKey q sampleCount :
  sampleSize q = Finite sampleCount → (0 ≤ sampleCount)%Z →
  remainder siftedKey q = drop (Z.to_nat sampleCount) siftedKey.
Proof.
  intros Hsample Hpos. unfold remainder, Array_slice, relative_index.
  rewrite Hsample. destruct (Z.ltb_spec sampleCount 0); [lia|].
  destruct (decide (Z.to_nat sampleCount ≤ length siftedKey)).
  - replace (Z.to_nat (Z.min sampleCount (Z.of_nat (length siftedKey))))
      with (Z.to_nat sampleCount) by lia.
    apply take_ge. rewrite length_drop. lia.
  - replace (Z.to_nat (Z.min sampleCount (Z.of_nat (length siftedKey))))
      with (length siftedKey) by lia.
    rewrite !drop_ge by lia. apply take_nil.
Qed.

(** The QBER stage for a percentage between 0 and 100: the estimate
    exists, its sample count is an integer between 0 and the length of the
    sifted key, its errors are the mismatches over the first positions, as
    many as the sample count, its rate is their quotient, or 0 for an empty
    sample, and what goes on to the reconciliation are the suffixes of the
    two sifted keys from the sample count on. *)
Lemma qber_stage params random :
  let sifted := sift (numQubits params) (transmit params random).1 in
  (numQubits params ≤ MAX_ARRAY_LENGTH)%Z →
  (0 ≤ qberSampleSize params ≤ 100)%Z →
  ∃ q sampleCount,
    estimateQBER sifted.1 sifted.2 (qberSampleSize params) = Some q
    ∧ sampleSize q = Finite sampleCount
    ∧ (0 ≤ sampleCount ≤ Z.of_nat (length sifted.1))%Z
    ∧ errors q
      = length (filter (λ j, sifted.1 !! j ≠ sifted.2 !! j)
                  (seq 0 (Z.to_nat sampleCount)))
    ∧ qber q = (if (0 <? sampleCount)%Z
                then div (of_nat (errors q)) (of_Z sampleCount)
                else of_Z 0)
    ∧ remainder sifted.1 q = drop (Z.to_nat sampleCount) sifted.1
    ∧ remainder sifted.2 q = drop (Z.to_nat sampleCount) sifted.2.
Proof.
  intros sifted Hmax Hp.
  pose proof (sift_length_le (numQubits params) (transmit params random).1)
    as Hlength.
  fold sifted in Hlength.
  destruct (qberSampleCount_bounds (length sifted.1) (qberSampleSize params))
    as (sampleCount & Hcount & Hbounds); [|done|].
  { unfold MAX_ARRAY_LENGTH in Hmax. lia. }
  destruct (estimateQBER sifted.1 sifted.2 (qberSampleSize params))
    as [q|] eqn:Hq.
  - destruct (estimateQBER_spec _ _ _ _ Hq) as [Hsample Hrest].
    fold (qberSampleCount (length sifted.1) (qberSampleSize params))
      in Hsample.
    rewrite Hcount in Hsample.
    destruct (Hrest sampleCount Hsample) as [Herrors Hqber].
    exists q, sampleCount.
    split_and!; try done; try lia; by apply remainder_suffix; [|lia].
  - exfalso. unfold estimateQBER in Hq. rewrite Hcount in Hq.
    cbn [loop_bound] in Hq.
    destruct (Z.leb_spec sampleCount (2 ^ 53)); [done|].
    unfold MAX_ARRAY_LENGTH in Hmax. lia.
Qed.

(** C4, at the input where the code departs from the claim. With 100
    sifted bits and a sample of 7 percent the claim asks for
    [ceil(100 * 7 / 100) = 7] sampled bits. The service divides first:
    [7 / 100] is the binary64 number 5044031582654956 * 2^-56, a little
    above 0.07, its product with 100 rounds to 7 + 2^-50, that is
    7881299347898369 * 2^-50, and the ceiling is 8. The run samples 8 bits
    and leaves 92 for the reconciliation. *)
Theorem sample_count_rounds_above_the_ceiling :
  let params := parameters 100 7 32 128 false false in
  let sifted := sift (numQubits params) (transmit params always_below).1 in
  length sifted.1 = 100
  ∧ exact_sample_count 100 7 = 7%Z
  ∧ div (of_Z 7) (of_Z 100) = S754_finite false 5044031582654956 (-56)
  ∧ mul (of_nat 100) (div (of_Z 7) (of_Z 100))
    = S754_finite false 7881299347898369 (-50)
  ∧ qberSampleCount 100 7 = Finite 8
  ∧ ∃ r q, runBB84Simulation params always_below = Resolved r
           ∧ qberResult r = Some q
           ∧ sampleSize q = Finite 8
           ∧ exit_of r = Some Completed
           ∧ siftedKeyLength r = 92.
Proof.
  split_and!; try (vm_compute; reflexivity).
  do 2 eexists. split_and!; vm_compute; reflexivity.
Qed.

(** ** The statements on concrete runs *)

Lemma sifted_keys_hold_the_agreeing_positions_witness :
  let params := parameters 8 20 4 128 true false in
  let t := (transmit params runs_of_five).1 in
  let sifted := sift (numQubits params) t in
  agreeing (numQubits params) t = [0; 1; 3; 4; 5; 6]
  ∧ sifted = ([ZERO; ZERO; ZERO; ZERO; ONE; ONE],
              [ZERO; ZERO; ONE; ZERO; ONE; ONE])
  ∧ length sifted.1 = length sifted.2
  ∧ (Z.of_nat (length sifted.1) ≤ numQubits params)%Z
  ∧ Some <$> sifted.1
    = (λ i, aliceBits t !! i) <$> agreeing (numQubits params) t
  ∧ Some <$> sifted.2
    = (λ i, bobMeasuredBits t !! i) <$> agreeing (numQubits params) t.
Proof.
  split; [vm_compute; reflexivity |]. split; [vm_compute; reflexivity |].
  apply (sifted_keys_hold_the_agreeing_positions
           (parameters 8 20 4 128 true false) runs_of_five).
  simpl. lia.
Defined.

Lemma empty_sift_resolves_with_the_empty_result_witness :
  let params := parameters 2 20 4 128 false false in
  length (sift (numQubits params) (transmit params first_four_below).1).1 = 0
  ∧ runBB84Simulation params first_four_below
    = Resolved (emptySiftResult params).
Proof.
  split; [reflexivity|].
  apply (empty_sift_resolves_with_the_empty_result
           (parameters 2 20 4 128 false false) first_four_below).
  - vm_compute. discriminate.
  - reflexivity.
Defined.

Lemma secure_mode_discards_the_key_above_the_threshold_witness :
  let params := parameters 16 25 0 128 true true in
  let estimate :=
    {| qber := S754_finite false 4503599627370496 (-52);
       errors := 3; sampleSize := Finite 3 |} in
  runBB84Simulation params runs_of_three
  = Resolved (eveDetectedResult params 11 estimate).
Proof.
  apply (secure_mode_discards_the_key_above_the_threshold
           (parameters 16 25 0 128 true true) runs_of_three
           {| qber := S754_finite false 4503599627370496 (-52);
              errors := 3; sampleSize := Finite 3 |}).
  - vm_compute. discriminate.
  - vm_compute. discriminate.
  - vm_compute. reflexivity.
  - reflexivity.
  - vm_compute. reflexivity.
Defined.

Lemma final_keys_are_the_truncated_digest_witness :
  let params := parameters 8 20 4 128 false false in
  ∃ r, runBB84Simulation params always_below = Resolved r
       ∧ finalKeyBob r = finalKeyAlice r
       ∧ String.length (finalKeyAlice r) = 32.
Proof.
  intros params.
  assert (∃ r, runBB84Simulation params always_below = Resolved r
               ∧ exit_of r = Some Completed) as (r & Hrun & Hexit).
  { eexists. split; vm_compute; reflexivity. }
  exists r.
  destruct (final_keys_are_the_truncated_digest params always_below r
              Hrun Hexit)
    as (_ & _ & _ & _ & _ & _ & _ & Hsame & Hlength & _).
  split_and!; done.
Defined.

Lemma failed_reconciliation_still_yields_one_key_witness :
  let params := parameters 16 25 4 128 true false in
  ∃ r, runBB84Simulation params runs_of_three = Resolved r
       ∧ LogKeysMismatch ∈ log r
       ∧ exit_of r = Some Completed
       ∧ finalKeyAlice r = finalKeyBob r.
Proof.
  intros params.
  assert (∃ r, runBB84Simulation params runs_of_three = Resolved r
               ∧ log r !! 11 = Some LogKeysMismatch) as (r & Hrun & Hlog).
  { eexists. split; vm_compute; reflexivity. }
  exists r.
  apply list_elem_of_lookup_2 in Hlog.
  destruct (failed_reconciliation_still_yields_one_key params runs_of_three
              r Hrun Hlog)
    as (_ & _ & _ & _ & _ & _ & Hexit & _ & Hsame).
  split_and!; done.
Defined.

Lemma reconciliation_corrects_the_first_error_of_a_block_witness :
  let alice := [ZERO; ONE; ONE; ZERO; ONE; ZERO] in
  let bob := [ZERO; ZERO; ONE; ZERO; ZERO; ONE] in
  errorCorrection 4 alice bob = Some ([ZERO; ONE; ONE; ZERO; ZERO; ONE], 1)
  ∧ ∃ corrected errorsCorrectedCount,
      errorCorrection 4 alice bob = Some (corrected, errorsCorrectedCount)
      ∧ length corrected = length alice
      ∧ (∀ k, block_reconciled (block 4 k alice) (block 4 k bob)
                (block 4 k corrected))
      ∧ errorsCorrectedCount
        = length (filter (λ k, parity (block 4 k alice)
                               ≠ parity (block 4 k bob))
                    (seq 0 (length alice))).
Proof.
  split; [reflexivity|].
  apply (reconciliation_corrects_the_first_error_of_a_block 4
           [ZERO; ONE; ONE; ZERO; ONE; ZERO]
           [ZERO; ZERO; ONE; ZERO; ZERO; ONE]).
  - lia.
  - reflexivity.
Defined.

Lemma without_eve_there_are_no_errors_witness :
  let params := parameters 8 20 4 128 false false in
  let t := (transmit params runs_of_three).1 in
  (∀ i, aliceBases t !! i = bobBases t !! i →
        bobMeasuredBits t !! i = aliceBits t !! i)
  ∧ ∀ r, runBB84Simulation params runs_of_three = Resolved r →
         errorsCorrected r = 0
         ∧ ∀ q, qberResult r = Some q → qber q = of_Z 0 ∧ errors q = 0.
Proof.
  apply (without_eve_there_are_no_errors
           (parameters 8 20 4 128 false false) runs_of_three).
  reflexivity.
Defined.

Lemma siftedKeyLength_depends_on_the_exit_witness :
  let params := parameters 100 20 32 128 false false in
  ∃ r, runBB84Simulation params always_below = Resolved r
       ∧ length (sift (numQubits params)
                   (transmit params always_below).1).1 = 100
       ∧ siftedKeyLength r = 80.
Proof.
  intros params.
  assert (∃ r, runBB84Simulation params always_below = Resolved r
               ∧ exit_of r = Some Completed
               ∧ qberResult r
                 = Some {| qber := of_Z 0; errors := 0;
                           sampleSize := Finite 20 |})
    as (r & Hrun & Hexit & Hq).
  { eexists. split_and!; vm_compute; reflexivity. }
  assert (length (sift (numQubits params)
                    (transmit params always_below).1).1 = 100) as Hsifted.
  { vm_compute. reflexivity. }
  exists r. split; [done|]. split; [done|].
  pose proof (siftedKeyLength_depends_on_the_exit params always_below r Hrun)
    as Hlength.
  cbv zeta in Hlength. rewrite Hexit, Hsifted in Hlength.
  destruct Hlength as (q & Hq' & _ & Hminus).
  rewrite Hq in Hq'. injection Hq' as <-.
  specialize (Hminus 20%Z eq_refl ltac:(lia)). lia.
Defined.

(** ** The outcome of a run, stage by stage *)

(** The run as a decision over its stages, for a request that passes the
    first array construction. *)
Lemma run_outcome params random :
  (numQubits params ≤ MAX_ARRAY_LENGTH)%Z →
  let sifted := sift (numQubits params) (transmit params random).1 in
  let log := transmissionLog params ++ [LogSifted (length sifted.1)] in
  runBB84Simulation params random
  = if decide (length sifted.1 = 0) then Resolved (emptySiftResult params)
    else
      match estimateQBER sifted.1 sifted.2 (qberSampleSize params) with
      | None => NoTermination
      | Some q =>
          if enableSecureMode params && gt (qber q) QBER_THRESHOLD
          then Resolved (eveDetectedResult params (length sifted.1) q)
          else
            match errorCorrection (errorCorrectionBlockSize params)
                    (remainder sifted.1 q) (remainder sifted.2 q) with
            | None => NoTermination
            | Some (shared, count) =>
                Resolved
                  (privacyAmplification params (length sifted.1) q
                     (length (remainder sifted.1 q)) shared count
                     (log ++ [LogQBERCheck (sampleSize q) (errors q) (qber q)]
                      ++ qberNotes params q
                      ++ [LogKeyForErrorCorrection
                            (length (remainder sifted.1 q));
                          LogErrorCorrectionCompleted count;
                          if keysMatch (remainder sifted.1 q) shared
                          then LogKeysReconciled else LogKeysMismatch]))
            end
      end.
Proof.
  intros Hmax sifted log.
  unfold runBB84Simulation, siftAndContinue.
  destruct (Z.ltb_spec MAX_ARRAY_LENGTH (numQubits params)); [lia |].
  fold sifted. fold log.
  destruct (decide (length sifted.1 = 0)) as [Hempty | Hne].
  { unfold emptySiftResult, log. by rewrite Hempty, <- app_assoc. }
  unfold estimateAndContinue.
  destruct (estimateQBER _ _ _) as [q |] eqn:Hest; [| done].
  destruct (enableSecureMode params && gt (qber q) QBER_THRESHOLD) eqn:Halert.
  { unfold eveDetectedResult. subst log. do 2 f_equal.
    unfold transmissionLog. simpl. by rewrite <- !app_assoc. }
  unfold reconcileAndAmplify.
  fold (remainder sifted.1 q) (remainder sifted.2 q).
  destruct (errorCorrection _ _ _) as [[shared count] |] eqn:Hec; [| done].
  do 2 f_equal. subst log. unfold qberNotes, transmissionLog.
  repeat case_match; simpl; by rewrite <- ?app_assoc.
Qed.

(** Reconciliation ends for every positive block size. *)
Lemma errorCorrection_ends bs alice bob :
  (0 < bs)%Z → length alice = length bob →
  ∃ corrected,
    errorCorrection bs alice bob
    = Some (corrected,
            length (filter (λ k, parity (block (Z.to_nat bs) k alice)
                                 ≠ parity (block (Z.to_nat bs) k bob))
                      (seq 0 (length alice))))
    ∧ length corrected = length alice
    ∧ ∀ k, block_reconciled (block (Z.to_nat bs) k alice)
             (block (Z.to_nat bs) k bob) (block (Z.to_nat bs) k corrected).
Proof.
  intros Hbs Hlen.
  destruct (reconcile_loop_spec bs alice (length alice) Hbs 0 bob 0
              ltac:(done) ltac:(lia))
    as (corrected & Hloop & Hlength & _ & Hblocks).
  exists corrected. unfold errorCorrection.
  split_and!; [exact Hloop | done |].
  intros k. apply Hblocks. lia.
Qed.

(** ** The service on a host whose digest may fail: its outcomes *)

(** Step 6 on a host: the digest is asked for a key that is not empty, and
    there the host decides. *)
Lemma privacyAmplification_on_host host params siftedLength q preECKeyLength
    shared count entries :
  privacyAmplification_on host params siftedLength q preECKeyLength shared
    count entries
  = match host, shared with
    | DigestUnsupported, _ :: _ => DigestFailure
    | _, _ =>
        Resolved (privacyAmplification params siftedLength q preECKeyLength
                    shared count entries)
    end.
Proof.
  unfold privacyAmplification_on, privacyAmplification.
  destruct (decide (String.length (join shared) = 0)) as [Hempty | Hne].
  - rewrite join_length in Hempty. destruct shared; [| done].
    by destruct host.
  - rewrite join_length in Hne. destruct shared; [done |].
    by destruct host.
Qed.

(** The run on a host, stage by stage; the stages before the digest are
    those of [run_outcome]. *)
Lemma run_on_outcome host params random :
  (numQubits params ≤ MAX_ARRAY_LENGTH)%Z →
  let sifted := sift (numQubits params) (transmit params random).1 in
  let log := transmissionLog params ++ [LogSifted (length sifted.1)] in
  runBB84Simulation_on host params random
  = if decide (length sifted.1 = 0) then Resolved (emptySiftResult params)
    else
      match estimateQBER sifted.1 sifted.2 (qberSampleSize params) with
      | None => NoTermination
      | Some q =>
          if enableSecureMode params && gt (qber q) QBER_THRESHOLD
          then Resolved (eveDetectedResult params (length sifted.1) q)
          else
            match errorCorrection (errorCorrectionBlockSize params)
                    (remainder sifted.1 q) (remainder sifted.2 q) with
            | None => NoTermination
            | Some (shared, count) =>
                privacyAmplification_on host params (length sifted.1) q
                  (length (remainder sifted.1 q)) shared count
                  (log ++ [LogQBERCheck (sampleSize q) (errors q) (qber q)]
                   ++ qberNotes params q
                   ++ [LogKeyForErrorCorrection
                         (length (remainder sifted.1 q));
                       LogErrorCorrectionCompleted count;
                       if keysMatch (remainder sifted.1 q) shared
                       then LogKeysReconciled else LogKeysMismatch])
            end
      end.
Proof.
  intros Hmax sifted log.
  unfold runBB84Simulation_on, siftAndContinue_on.
  destruct (Z.ltb_spec MAX_ARRAY_LENGTH (numQubits params)); [lia |].
  fold sifted. fold log.
  destruct (decide (length sifted.1 = 0)) as [Hempty | Hne].
  { unfold emptySiftResult, log. by rewrite Hempty, <- app_assoc. }
  unfold estimateAndContinue_on.
  destruct (estimateQBER _ _ _) as [q |] eqn:Hest; [| done].
  destruct (enableSecureMode params && gt (qber q) QBER_THRESHOLD) eqn:Halert.
  { unfold eveDetectedResult. subst log. do 2 f_equal.
    unfold transmissionLog. simpl. by rewrite <- !app_assoc. }
  unfold reconcileAndAmplify_on.
  fold (remainder sifted.1 q) (remainder sifted.2 q).
  destruct (errorCorrection _ _ _) as [[shared count] |] eqn:Hec; [| done].
  f_equal. subst log. unfold qberNotes, transmissionLog.
  repeat case_match; simpl; by rewrite <- ?app_assoc.
Qed.

(** The host matters to the completed runs only: a digest that fails
    rejects the runs that get to the hash, and every other outcome is the
    one of a host whose digest fulfils. *)
Lemma run_on_host host params random :
  runBB84Simulation_on host params random
  = match runBB84Simulation params random with
    | Resolved r =>
        match host, exit_of r with
        | DigestUnsupported, Some Completed => DigestFailure
        | _, _ => Resolved r
        end
    | outcome => outcome
    end.
Proof.
  destruct (Z.ltb_spec MAX_ARRAY_LENGTH (numQubits params)) as [Hgt | Hmax].
  { unfold runBB84Simulation_on, runBB84Simulation.
    by destruct (Z.ltb_spec MAX_ARRAY_LENGTH (numQubits params)); [| lia]. }
  rewrite run_on_outcome, run_outcome by done. cbv zeta.
  destruct (decide _).
  { rewrite exit_of_emptySiftResult. by destruct host. }
  destruct (estimateQBER _ _ _) as [q |]; [| done].
  destruct (_ && _).
  { rewrite exit_of_eveDetectedResult. by destruct host. }
  destruct (errorCorrection _ _ _) as [[shared count] |]; [| done].
  rewrite privacyAmplification_on_host.
  match goal with
  | |- context [ privacyAmplification ?p ?s ?q ?n ?k ?c ?l ] =>
      destruct (privacyAmplification_exit p s q n k c l)
        as (_ & _ & _ & [(-> & Hexit & _) | (Hshared & Hexit & _)])
  end; cbv zeta in Hexit; rewrite Hexit.
  - by destruct host.
  - destruct shared; [done |]. by destruct host.
Qed.

Lemma run_on_supported params random :
  runBB84Simulation_on DigestSupported params random
  = runBB84Simulation params random.
Proof. rewrite run_on_host. by destruct (runBB84Simulation _ _). Qed.

(** The service itself never ends in a failure of the digest when the
    digest fulfils. *)
Lemma run_no_digest_failure params random :
  runBB84Simulation params random ≠ DigestFailure.
Proof.
  destruct (Z.ltb_spec MAX_ARRAY_LENGTH (numQubits params)) as [Hgt | Hmax].
  { unfold runBB84Simulation.
    by destruct (Z.ltb_spec MAX_ARRAY_LENGTH (numQubits params)); [| lia]. }
  rewrite run_outcome by done. cbv zeta. by repeat case_match.
Qed.

(** A run in the domain of the parameters resolves on a host whose digest
    fulfils. *)
Lemma run_in_the_domain params random :
  (numQubits params ≤ MAX_ARRAY_LENGTH)%Z →
  (0 ≤ qberSampleSize params ≤ 100)%Z →
  (0 < errorCorrectionBlockSize params)%Z →
  ∃ r, runBB84Simulation params random = Resolved r.
Proof.
  intros Hmax Hp Hbs.
  rewrite run_outcome by done. cbv zeta.
  destruct (decide _); [by eexists |].
  destruct (qber_stage params random Hmax Hp) as (q & z & -> & _).
  destruct (_ && _); [by eexists |].
  destruct (errorCorrection_ends (errorCorrectionBlockSize params)
              (remainder (sift (numQubits params) (transmit params random).1).1 q)
              (remainder (sift (numQubits params) (transmit params random).1).2 q)
              Hbs (remainder_same_length params random q))
    as (corrected & -> & _).
  by eexists.
Qed.

(** ** Parameter records that are not well formed, on every host *)

(** A length that is not positive cuts the digest to nothing. *)
Lemma no_key_for_a_length_that_is_not_positive message
    (privacyAmplificationLength : Z) :
  (privacyAmplificationLength ≤ 0)%Z →
  String_substring_from_0 (sha256 message)
    (desiredHexLength privacyAmplificationLength) = "".
Proof.
  intros Hlength.
  pose proof (proj1 (truncated_digest message
                       (desiredHexLength privacyAmplificationLength)))
    as Hchars.
  unfold desiredHexLength in *.
  destruct (String_substring_from_0 _ _); [done |].
  simpl in Hchars. Z.div_mod_to_equations. lia.
Qed.

(** What a host resolves with is what the service resolves with when the
    digest fulfils. *)
Lemma run_on_resolved host params random r :
  runBB84Simulation_on host params random = Resolved r →
  runBB84Simulation params random = Resolved r.
Proof.
  rewrite run_on_host.
  destruct (runBB84Simulation params random) as [r' | | |]; try done.
  destruct host, (exit_of r') as [[] |]; done.
Qed.

(** C9, as amended. The service does not validate its parameters, and no
    record is turned away for being malformed, on any host. A record with
    a number of qubits that is not positive resolves with the result of
    the exit for an empty sifted key. With a block size that is not
    positive the run is left pending or resolves at an exit before the
    hash; it is not rejected. With a positive block size, whatever the
    percentage and the length of the final key, the run resolves unless
    the digest of the host fails or the loop over the QBER sample never
    ends. A length of the final key that is not positive gives results
    with empty keys. *)
Theorem parameters_are_not_validated
    (host : Host) (params : SimulationParameters) (random : RandomSource) :
  let sifted := sift (numQubits params) (transmit params random).1 in
  let outcome := runBB84Simulation_on host params random in
  ((numQubits params ≤ 0)%Z → outcome = Resolved (emptySiftResult params))
  ∧ ((numQubits params ≤ 4294967295)%Z →
     (errorCorrectionBlockSize params ≤ 0)%Z →
     outcome = NoTermination
     ∨ ∃ r, outcome = Resolved r ∧ exit_of r ≠ Some Completed)
  ∧ ((numQubits params ≤ 4294967295)%Z →
     (0 < errorCorrectionBlockSize params)%Z →
     (∃ r, outcome = Resolved r)
     ∨ (outcome = DigestFailure ∧ host = DigestUnsupported)
     ∨ (outcome = NoTermination ∧ sifted.1 ≠ []
        ∧ estimateQBER sifted.1 sifted.2 (qberSampleSize params) = None))
  ∧ ((privacyAmplificationLength params ≤ 0)%Z →
     ∀ r, outcome = Resolved r →
          finalKeyAlice r = "" ∧ finalKeyBob r = "").
Proof.
  intros sifted outcome. subst outcome. split_and!.
  - intros Hn.
    rewrite run_on_outcome by (unfold MAX_ARRAY_LENGTH; lia). cbv zeta.
    rewrite sift_no_qubits by done. done.
  - intros Hmax Hbs. rewrite run_on_outcome by done. cbv zeta. fold sifted.
    destruct (decide _).
    { right. eexists. split; [done |]. by rewrite exit_of_emptySiftResult. }
    destruct (estimateQBER _ _ _) as [q |]; [| by left].
    destruct (_ && _).
    { right. eexists. split; [done |]. by rewrite exit_of_eveDetectedResult. }
    pose proof (remainder_same_length params random q) as Hsame.
    cbv zeta in Hsame. fold sifted in Hsame.
    destruct (remainder sifted.1 q) as [| bit alice] eqn:Halice.
    + right. unfold errorCorrection. simpl.
      rewrite privacyAmplification_on_host.
      destruct (remainder sifted.2 q); [| done].
      eexists. split; [by destruct host |].
      match goal with
      | |- context [ privacyAmplification ?p ?s ?q ?n ?k ?c ?l ] =>
          destruct (privacyAmplification_exit p s q n k c l)
            as (_ & _ & _ & [(_ & Hexit & _) | (Hshared & _)])
      end; [| done].
      cbv zeta in Hexit. by rewrite Hexit.
    + left. unfold errorCorrection.
      by rewrite reconcile_loop_stuck by (simpl; lia).
  - intros Hmax Hbs. rewrite run_on_outcome by done. cbv zeta. fold sifted.
    destruct (decide (length sifted.1 = 0)) as [Hempty | Hne];
      [left; by eexists |].
    destruct (estimateQBER _ _ _) as [q |].
    2:{ right. right. split_and!; [done | | done].
        intros Hnil. by rewrite Hnil in Hne. }
    destruct (_ && _); [left; by eexists |].
    destruct (errorCorrection_ends (errorCorrectionBlockSize params)
                (remainder sifted.1 q) (remainder sifted.2 q) Hbs
                (remainder_same_length params random q))
      as (corrected & -> & _).
    rewrite privacyAmplification_on_host.
    destruct host; [left; by eexists |].
    destruct corrected; [left; by eexists | right; by left].
  - intros Hlength r Hrun. apply run_on_resolved in Hrun.
    destruct (run_resolved _ _ _ Hrun)
      as [[_ ->] | (q & _ & _ & [[_ ->] | (shared & count & _ & _ & ->)])];
      [done | done |].
    match goal with
    | |- context [ privacyAmplification ?p ?s ?q ?n ?k ?c ?l ] =>
        destruct (privacyAmplification_exit p s q n k c l)
          as (_ & _ & _ & [(_ & _ & _ & HkeyA & HkeyB & _)
                          | (_ & _ & _ & HkeyA & HkeyB & _)])
    end; cbv zeta in HkeyA, HkeyB; rewrite HkeyB, HkeyA; [done |].
    by rewrite no_key_for_a_length_that_is_not_positive.
Qed.

Lemma parameters_are_not_validated_witness :
  let params := parameters (-5) 150 0 0 true true in
  runBB84Simulation_on DigestUnsupported params runs_of_three
  = Resolved (emptySiftResult params).
Proof.
  apply (proj1 (parameters_are_not_validated DigestUnsupported
                  (parameters (-5) 150 0 0 true true) runs_of_three)).
  simpl. lia.
Defined.

(** ** Requests in the domain of the parameters *)

(** X1. A request within the domain of its parameters always settles,
    whatever [Math.random] draws: with [numQubits] at most 2^32 - 1, a
    percentage between 0 and 100 and a positive block size, the promise
    resolves with a result on a host whose digest fulfils. On a host whose
    digest fails, the run resolves with the same result when it ends at one
    of the early exits, and it is rejected with the error of the digest
    exactly when it gets to the hash. It is never rejected with a
    [RangeError] and never left pending. *)
Theorem requests_in_the_domain_always_settle
    (host : Host) (params : SimulationParameters) (random : RandomSource) :
  (numQubits params ≤ 4294967295)%Z →
  (0 ≤ qberSampleSize params ≤ 100)%Z →
  (0 < errorCorrectionBlockSize params)%Z →
  ∃ r, runBB84Simulation_on DigestSupported params random = Resolved r
       ∧ runBB84Simulation_on host params random
         = match host, exit_of r with
           | DigestUnsupported, Some Completed => DigestFailure
           | _, _ => Resolved r
           end.
Proof.
  intros Hmax Hp Hbs.
  destruct (run_in_the_domain params random Hmax Hp Hbs) as (r & Hrun).
  exists r. rewrite run_on_supported, run_on_host, Hrun. done.
Qed.

Lemma requests_in_the_domain_always_settle_witness :
  ∃ r, runBB84Simulation_on DigestSupported DEFAULT_SIMULATION_PARAMETERS
         always_below = Resolved r
       ∧ runBB84Simulation_on DigestUnsupported DEFAULT_SIMULATION_PARAMETERS
           always_below
         = match exit_of r with
           | Some Completed => DigestFailure
           | _ => Resolved r
           end.
Proof.
  apply (requests_in_the_domain_always_settle DigestUnsupported
           DEFAULT_SIMULATION_PARAMETERS always_below); simpl; lia.
Defined.

(** ** A block size that is not positive *)

(** X2. With a block size that is not positive, a run is left pending
    exactly when it has something to reconcile: the sifted key is not
    empty, the run is not stopped by the alert of the secure mode, and
    bits remain after the QBER sample. In every other case the block size
    is never used and the run resolves. *)
Theorem a_block_size_that_is_not_positive_blocks_reconciliation
    (params : SimulationParameters) (random : RandomSource)
    (estimate : QBERResult) :
  let sifted := sift (numQubits params) (transmit params random).1 in
  (numQubits params ≤ MAX_ARRAY_LENGTH)%Z →
  (errorCorrectionBlockSize params ≤ 0)%Z →
  estimateQBER sifted.1 sifted.2 (qberSampleSize params) = Some estimate →
  (runBB84Simulation params random = NoTermination
   ↔ sifted.1 ≠ []
     ∧ enableSecureMode params && gt (qber estimate) QBER_THRESHOLD = false
     ∧ remainder sifted.1 estimate ≠ [])
  ∧ (runBB84Simulation params random ≠ NoTermination
     → ∃ r, runBB84Simulation params random = Resolved r).
Proof.
  intros sifted Hmax Hbs Hest.
  rewrite run_outcome by done. cbv zeta. fold sifted. rewrite Hest.
  destruct (decide (length sifted.1 = 0)) as [Hempty | Hne].
  { split; [| by eexists]. split; [done |].
    intros (Hsifted & _). by destruct sifted.1. }
  destruct (_ && _) eqn:Halert.
  { split; [| by eexists]. split; [done |]. by intros (_ & ? & _). }
  destruct (remainder sifted.1 estimate) as [| bit alice] eqn:Halice.
  - unfold errorCorrection. simpl.
    split; [| by eexists]. split; [done |]. by intros (_ & _ & ?).
  - unfold errorCorrection.
    rewrite reconcile_loop_stuck by (simpl; lia).
    split; [| done]. split; [| done]. intros _. split_and!; try done.
    intros Hnil. by rewrite Hnil in Hne.
Qed.

Lemma a_block_size_that_is_not_positive_blocks_reconciliation_witness :
  runBB84Simulation (parameters 8 20 0 128 false false) always_below
  = NoTermination.
Proof.
  apply (a_block_size_that_is_not_positive_blocks_reconciliation
           (parameters 8 20 0 128 false false) always_below
           {| qber := of_Z 0; errors := 0; sampleSize := Finite 2 |}).
  - vm_compute. discriminate.
  - simpl. lia.
  - vm_compute. reflexivity.
  - split_and!.
    + vm_compute. discriminate.
    + vm_compute. reflexivity.
    + vm_compute. discriminate.
Defined.

(** ** The intercept-resend attack *)

(** The sequences of a run with what Eve's measurement keeps: the bit she
    sends on is Alice's wherever her basis is Alice's. *)
Lemma transmit_run_eve params s :
  let n := Z.to_nat (numQubits params) in
  ∃ aBits aBases tBits tBases bBases bBits,
    (transmit params s).1 =
      {| aliceBits := aBits; aliceBases := aBases; transmittedBits := tBits;
         transmittedBases := tBases; bobBases := bBases;
         bobMeasuredBits := bBits |}
    ∧ length aBits = n ∧ length bBits = n
    ∧ (∀ i, i < n → aBases !! i = tBases !! i →
            tBits !! i = Some (aBits !!! i))
    ∧ ∀ i, i < n → tBases !! i = bBases !! i →
           bBits !! i = Some (tBits !!! i).
Proof.
  intros n. unfold transmit, ToLength. fold n.
  unfold bind at 1.
  pose proof (Array_from_length getRandomBit n s) as H1.
  destruct (Array_from n getRandomBit s) as [aBits s1]. simpl in H1.
  unfold bind at 1.
  destruct (Array_from n getRandomBasis s1) as [aBases s2].
  unfold bind at 1.
  assert (∃ tBits tBases s3,
            (if enableEve params
             then eveBases <- Array_from n getRandomBasis ;;
                  eveMeasuredBits <-
                    measure_loop n 0 aBits aBases eveBases [] ;;
                  ret (eveMeasuredBits, eveBases)
             else ret (aBits, aBases)) s2 = ((tBits, tBases), s3)
            ∧ length tBits = n
            ∧ ∀ i, i < n → aBases !! i = tBases !! i →
                   tBits !! i = Some (aBits !!! i))
    as (tBits & tBases & s3 & -> & Hlen & Heve).
  { destruct (enableEve params).
    - unfold bind at 1.
      destruct (Array_from n getRandomBasis s2) as [eveBases s3].
      unfold bind at 1.
      destruct (measure_loop_spec n 0 aBits aBases eveBases [] s3)
        as (l & Hl & Hlen & Hk).
      simpl in Hl. destruct (measure_loop _ _ _ _ _ _ s3) as [eBits s4].
      simpl in Hl. subst eBits.
      exists l, eveBases, s4. split_and!; [done.. |].
      intros i Hi Hb. by apply Hk.
    - exists aBits, aBases, s2. split_and!; [done.. |].
      intros i Hi _. apply list_lookup_lookup_total_lt. lia. }
  unfold bind at 1.
  destruct (Array_from n getRandomBasis s3) as [bBases s4].
  unfold bind at 1.
  destruct (measure_loop_spec n 0 tBits tBases bBases [] s4)
    as (l & Hl & Hlenl & Hk).
  simpl in Hl. destruct (measure_loop _ _ _ _ _ _ s4) as [bBits s5].
  simpl in *. subst bBits.
  exists aBits, aBases, tBits, tBases, bBases, l.
  split_and!; done.
Qed.

(** X3. The attack leaves no trace where Eve happens to measure in
    Alice's basis: at every position where the basis of the transmitted
    qubit is Alice's and Bob measures in that basis too, Bob reads Alice's
    bit, with or without Eve. Errors in the sifted key can only come from
    positions where Eve's basis differs from the one Alice and Bob share. *)
Theorem bob_reads_alice_bit_where_the_three_bases_agree
    (params : SimulationParameters) (random : RandomSource) (i : nat) :
  let t := (transmit params random).1 in
  aliceBases t !! i = transmittedBases t !! i →
  transmittedBases t !! i = bobBases t !! i →
  bobMeasuredBits t !! i = aliceBits t !! i.
Proof.
  intros t Ha Hb. subst t.
  destruct (transmit_run_eve params random)
    as (aBits & aBases & tBits & tBases & bBases & bBits & Ht
        & HlenA & HlenB & Heve & Hbob).
  rewrite Ht in *. simpl in *.
  destruct (decide (i < Z.to_nat (numQubits params))) as [Hi | Hi].
  - rewrite (Hbob i Hi Hb).
    pose proof (Heve i Hi Ha) as Hsent.
    rewrite (list_lookup_total_correct _ _ _ Hsent).
    symmetry. apply list_lookup_lookup_total_lt. lia.
  - rewrite !lookup_ge_None_2; [done | lia..].
Qed.

Lemma bob_reads_alice_bit_where_the_three_bases_agree_witness :
  let t := (transmit (parameters 8 20 4 128 true false) runs_of_five).1 in
  aliceBases t !! 5 = transmittedBases t !! 5
  ∧ transmittedBases t !! 5 = bobBases t !! 5
  ∧ bobMeasuredBits t !! 5 = aliceBits t !! 5.
Proof.
  intros t.
  assert (Ha : aliceBases t !! 5 = transmittedBases t !! 5)
    by (vm_compute; reflexivity).
  assert (Hb : transmittedBases t !! 5 = bobBases t !! 5)
    by (vm_compute; reflexivity).
  split_and!; [done.. |].
  exact (bob_reads_alice_bit_where_the_three_bases_agree
           (parameters 8 20 4 128 true false) runs_of_five 5 Ha Hb).
Defined.

(** ** What a result says about the run *)

Lemma gt_zero_zero : gt (of_Z 0) (of_Z 0) = false.
Proof. reflexivity. Qed.

Lemma transmissionLog_entries params entry :
  entry ∈ transmissionLog params →
  entry = LogStarting ∨ entry = LogParameters params
  ∨ entry = LogAlicePrepared (numQubits params)
  ∨ entry = LogEveEnabled ∨ entry = LogEveResent
  ∨ entry = LogBobMeasured (numQubits params).
Proof.
  unfold transmissionLog. destruct (enableEve params); simpl;
    rewrite ?elem_of_cons, elem_of_nil; intuition.
Qed.

(** X4. [eveDetected] is set on the exit of the alert and on no other, so
    it tells the secure mode more than Eve: a run reports a detection only
    when [enableSecureMode] is set and the estimated QBER exceeds the
    threshold, and the result then has no keys and no corrections. Without
    the secure mode no run reports a detection, whatever the QBER. *)
Theorem eveDetected_is_the_alert_of_the_secure_mode
    (params : SimulationParameters) (random : RandomSource)
    (r : SimulationResult) :
  runBB84Simulation params random = Resolved r →
  (eveDetected r = true ↔ exit_of r = Some EveDetected)
  ∧ (eveDetected r = true →
     enableSecureMode params = true
     ∧ (∃ q, qberResult r = Some q ∧ gt (qber q) QBER_THRESHOLD = true)
     ∧ errorsCorrected r = 0
     ∧ finalKeyAlice r = "" ∧ finalKeyBob r = "").
Proof.
  intros Hrun.
  destruct (run_resolved _ _ _ Hrun)
    as [[_ ->] | (q & _ & _ & [[Halert ->] | (shared & count & _ & _ & ->)])].
  - rewrite exit_of_emptySiftResult. simpl. split; [split |]; done.
  - rewrite exit_of_eveDetectedResult. simpl. split; [done |]. intros _.
    apply andb_true_iff in Halert as [Hsecure Hgt].
    split_and!; try done. by exists q.
  - match goal with
    | |- context [ privacyAmplification ?p ?s ?q ?n ?k ?c ?l ] =>
        destruct (privacyAmplification_exit p s q n k c l)
          as (_ & _ & Hdetected & [(_ & Hexit & _) | (_ & Hexit & _)])
    end; cbv zeta in Hdetected, Hexit; rewrite Hdetected, Hexit;
      (split; [split |]; done).
Qed.

Lemma eveDetected_is_the_alert_of_the_secure_mode_witness :
  ∃ r, runBB84Simulation (parameters 16 25 0 128 true true) runs_of_three
       = Resolved r
       ∧ eveDetected r = true
       ∧ exit_of r = Some EveDetected
       ∧ finalKeyAlice r = "".
Proof.
  assert (∃ r, runBB84Simulation (parameters 16 25 0 128 true true)
                 runs_of_three = Resolved r
               ∧ eveDetected r = true) as (r & Hrun & Hdetected).
  { eexists. split; vm_compute; reflexivity. }
  exists r.
  destruct (eveDetected_is_the_alert_of_the_secure_mode
              (parameters 16 25 0 128 true true) runs_of_three r Hrun)
    as (Hexit & Hrest).
  destruct (Hrest Hdetected) as (_ & _ & _ & Hkey & _).
  split_and!; [done | done | by apply Hexit | done].
Defined.

(** X5. The note on a minor QBER is never logged. The service writes it
    for a run without Eve whose QBER is above 0, and without Eve the
    sifted keys are equal, so the QBER of such a run is exactly 0. *)
Theorem the_note_on_a_minor_QBER_is_never_logged
    (params : SimulationParameters) (random : RandomSource)
    (r : SimulationResult) :
  runBB84Simulation params random = Resolved r →
  ∀ q, LogMinorQBER q ∉ log r.
Proof.
  intros Hrun q' Hin.
  assert (Hprefix : ∀ len, LogMinorQBER q'
                           ∉ transmissionLog params ++ [LogSifted len]).
  { intros len Hin'. apply elem_of_app in Hin' as [Hin' | Hin'].
    - apply transmissionLog_entries in Hin'. intuition discriminate.
    - apply list_elem_of_singleton in Hin'. discriminate. }
  destruct (run_resolved _ _ _ Hrun)
    as [[_ ->] | (q & _ & Hq & [[_ ->] | (shared & count & _ & _ & ->)])].
  - unfold emptySiftResult in Hin. cbn [log] in Hin.
    change [LogSifted 0; LogNoMatchingBases]
      with ([LogSifted 0] ++ [LogNoMatchingBases]) in Hin.
    rewrite app_assoc in Hin. apply elem_of_app in Hin as [Hin | Hin].
    + by apply Hprefix in Hin.
    + apply list_elem_of_singleton in Hin. discriminate.
  - unfold eveDetectedResult in Hin. cbn [log] in Hin.
    match type of Hin with
    | _ ∈ _ ++ [?a; ?b; ?c] =>
        change [a; b; c] with ([a] ++ [b; c]) in Hin
    end.
    rewrite app_assoc in Hin. apply elem_of_app in Hin as [Hin | Hin].
    + by apply Hprefix in Hin.
    + rewrite !elem_of_cons, elem_of_nil in Hin. intuition discriminate.
  - assert (Hnotes : LogMinorQBER q' ∉ qberNotes params q).
    { unfold qberNotes. destruct (enableEve params) eqn:Heve; simpl.
      - destruct (gt _ _ && _); rewrite ?elem_of_cons, elem_of_nil;
          intuition discriminate.
      - pose proof (sifted_keys_equal params random Heve) as Hsame.
        cbv zeta in Hsame. rewrite <- Hsame in Hq.
        apply estimateQBER_same in Hq as [_ ->].
        rewrite gt_zero_zero. apply not_elem_of_nil. }
    match type of Hin with
    | context [ privacyAmplification ?p ?s ?q ?n ?k ?c ?l ] =>
        destruct (privacyAmplification_exit p s q n k c l)
          as (_ & _ & _ & [(_ & _ & _ & _ & _ & Hlog)
                          | (_ & _ & _ & _ & _ & Hlog)])
    end; cbv zeta in Hlog; rewrite Hlog in Hin;
      pose proof (transmissionLog_entries params (LogMinorQBER q')) as Hstart;
      rewrite !elem_of_app, ?elem_of_cons, ?elem_of_nil in Hin;
      destruct (keysMatch _ _); intuition discriminate.
Qed.

Lemma the_note_on_a_minor_QBER_is_never_logged_witness :
  ∃ r, runBB84Simulation (parameters 8 20 4 128 false false) always_below
       = Resolved r
       ∧ ∀ q, LogMinorQBER q ∉ log r.
Proof.
  assert (∃ r, runBB84Simulation (parameters 8 20 4 128 false false)
                 always_below = Resolved r) as (r & Hrun).
  { eexists. vm_compute. reflexivity. }
  exists r. split; [done |].
  exact (the_note_on_a_minor_QBER_is_never_logged
           (parameters 8 20 4 128 false false) always_below r Hrun).
Defined.

(** X6. A result holds keys exactly when the run was completed for a
    positive [privacyAmplificationLength]: the three early exits return
    empty strings, and so does a completed run asked for a length that is
    not positive, whose digest is cut to nothing. These are the results
    for which the cards of the final keys show N/A. *)
Theorem keys_are_returned_by_completed_runs_only
    (params : SimulationParameters) (random : RandomSource)
    (r : SimulationResult) :
  runBB84Simulation params random = Resolved r →
  (finalKeyAlice r ≠ ""
   ↔ exit_of r = Some Completed ∧ (0 < privacyAmplificationLength params)%Z)
  ∧ (QkdSimulator.keyCard (finalKeyAlice r) = "N/A" ↔ finalKeyAlice r = "")
  ∧ QkdSimulator.keyCard (finalKeyBob r) = QkdSimulator.keyCard (finalKeyAlice r).
Proof.
  intros Hrun.
  assert (Hsame : finalKeyBob r = finalKeyAlice r).
  { symmetry. by eapply final_keys_equal. }
  rewrite Hsame.
  assert (Hhex : finalKeyAlice r ≠ "N/A").
  { destruct (run_resolved _ _ _ Hrun)
      as [[_ ->] | (q & _ & _ & [[_ ->] | (shared & count & _ & _ & ->)])];
      [done | done |].
    match goal with
    | |- context [ privacyAmplification ?p ?s ?q ?n ?k ?c ?l ] =>
        destruct (privacyAmplification_exit p s q n k c l)
          as (_ & _ & _ & [(_ & _ & _ & Hkey & _)
                          | (_ & _ & _ & Hkey & _)])
    end; cbv zeta in Hkey; rewrite Hkey; [done |].
    intros Hna.
    pose proof (proj2 (truncated_digest (join shared)
                         (desiredHexLength (privacyAmplificationLength params))))
      as Hlower.
    rewrite Hna in Hlower. vm_compute in Hlower. discriminate. }
  split; [| split; [| done]].
  - destruct (run_resolved _ _ _ Hrun)
      as [[_ ->] | (q & _ & _ & [[_ ->] | (shared & count & _ & _ & ->)])].
    + rewrite exit_of_emptySiftResult. simpl. split; [done | by intros []].
    + rewrite exit_of_eveDetectedResult. simpl. split; [done | by intros []].
    + match goal with
      | |- context [ privacyAmplification ?p ?s ?q ?n ?k ?c ?l ] =>
          destruct (privacyAmplification_exit p s q n k c l)
            as (_ & _ & _ & [(_ & Hexit & _ & Hkey & _)
                            | (_ & Hexit & _ & Hkey & _)])
      end; cbv zeta in Hexit, Hkey; rewrite Hexit, Hkey.
      * split; [done | by intros []].
      * pose proof (proj1 (truncated_digest (join shared)
                     (desiredHexLength (privacyAmplificationLength params))))
          as Hlength.
        unfold desiredHexLength in *.
        split.
        -- intros Hne. split; [done |].
           destruct (decide (0 < privacyAmplificationLength params)%Z)
             as [| Hneg]; [done |].
           exfalso. apply Hne.
           destruct (String_substring_from_0 _ _); [done |].
           simpl in Hlength. Z.div_mod_to_equations. lia.
        -- intros [_ Hpos] Hempty. rewrite Hempty in Hlength.
           simpl in Hlength. Z.div_mod_to_equations. lia.
  - unfold QkdSimulator.keyCard. destruct (decide (finalKeyAlice r = "")); [done |].
    split; [by intros ?; exfalso; apply Hhex | done].
Qed.

Lemma keys_are_returned_by_completed_runs_only_witness :
  ∃ r, runBB84Simulation (parameters 8 20 4 0 false false) always_below
       = Resolved r
       ∧ exit_of r = Some Completed
       ∧ finalKeyAlice r = ""
       ∧ QkdSimulator.keyCard (finalKeyBob r) = "N/A".
Proof.
  assert (∃ r, runBB84Simulation (parameters 8 20 4 0 false false)
                 always_below = Resolved r
               ∧ exit_of r = Some Completed) as (r & Hrun & Hexit).
  { eexists. split; vm_compute; reflexivity. }
  exists r.
  destruct (keys_are_returned_by_completed_runs_only
              (parameters 8 20 4 0 false false) always_below r Hrun)
    as (Hkeys & Hcard & Hbob).
  assert (Hempty : finalKeyAlice r = "").
  { destruct (decide (finalKeyAlice r = "")) as [| Hne]; [done |].
    apply Hkeys in Hne as [_ Hpos]. simpl in Hpos. lia. }
  split_and!; [done.. |].
  rewrite Hbob. by apply Hcard.
Defined.

(** ** What reconciliation achieves *)

Lemma parity_fold block : ∀ acc,
  fold_left (λ acc bit, Z.lxor acc (Bit_value bit)) block acc
  = Z.lxor acc (parity block).
Proof.
  unfold parity. induction block as [| bit block IH]; intros acc.
  - simpl. by rewrite Z.lxor_0_r.
  - cbn [fold_left]. rewrite IH, (IH (Z.lxor 0 _)).
    by rewrite Z.lxor_0_l, Z.lxor_assoc.
Qed.

Lemma parity_cons bit block :
  parity (bit :: block) = Z.lxor (Bit_value bit) (parity block).
Proof. unfold parity at 1. simpl. apply parity_fold. Qed.

Lemma parity_bit block : parity block = 0%Z ∨ parity block = 1%Z.
Proof.
  induction block as [| bit block IH]; [by left |].
  rewrite parity_cons. destruct bit, IH as [-> | ->]; simpl; auto.
Qed.

(** Another bit at one position turns the parity over. *)
Lemma parity_insert block : ∀ j a b,
  block !! j = Some b → a ≠ b →
  parity (<[j := a]> block) = Z.lxor 1 (parity block).
Proof.
  induction block as [| bit block IH]; intros j a b Hj Hne; [done |].
  destruct j as [| j]; simpl in *.
  - injection Hj as ->. rewrite !parity_cons, <- Z.lxor_assoc. f_equal.
    by destruct a, b.
  - rewrite !parity_cons, (IH j a b) by done.
    rewrite <- !Z.lxor_assoc. f_equal. apply Z.lxor_comm.
Qed.

Lemma block_lookup {A} size k j (key : list A) :
  j < size → block size k key !! j = key !! (k * size + j).
Proof.
  intros Hj. unfold block. by rewrite lookup_take_lt, lookup_drop.
Qed.

(** Keys with the same blocks are the same key. *)
Lemma blocks_determine_the_key {A} size (key1 key2 : list A) :
  0 < size → (∀ k, block size k key1 = block size k key2) → key1 = key2.
Proof.
  intros Hsize Hblocks. apply list_eq. intros i.
  pose proof (Nat.div_mod_eq i size) as Hi.
  pose proof (Nat.mod_upper_bound i size ltac:(lia)) as Hlt.
  replace i with (i / size * size + i mod size) by lia.
  rewrite <- !block_lookup by done. by rewrite Hblocks.
Qed.

Lemma filter_none {A} (P : A → Prop) `{!∀ x, Decision (P x)} (l : list A) :
  (∀ x, x ∈ l → ¬ P x) → filter P l = [].
Proof.
  induction l as [| x l IH]; intros Hnone; [done |].
  rewrite filter_cons, decide_False by (apply Hnone; left).
  apply IH. intros y Hy. apply Hnone. by right.
Qed.

(** After the pass every block of Bob's key has the parity of Alice's. *)
Lemma block_reconciled_parity aliceBlock bobBlock corrected :
  length aliceBlock = length bobBlock →
  block_reconciled aliceBlock bobBlock corrected →
  parity aliceBlock = parity corrected.
Proof.
  intros Hlen [[Hparity ->] | (Hparity & j & a & [Hdiff _] & Ha & ->)];
    [done |].
  destruct (bobBlock !! j) as [b |] eqn:Hb.
  - rewrite (parity_insert bobBlock j a b) by congruence.
    destruct (parity_bit aliceBlock) as [Hp | Hp],
             (parity_bit bobBlock) as [Hq | Hq];
      rewrite Hp, Hq in *; done.
  - apply lookup_ge_None in Hb. apply lookup_lt_Some in Ha. lia.
Qed.

(** X7. Reconciliation is idempotent. After the pass, every block of
    Bob's corrected key has the parity of Alice's block, so a second pass
    over the corrected key finds nothing to correct and returns it as it
    is: errors that a pass leaves behind are out of reach of any number of
    further passes with the same block size. *)
Theorem a_second_pass_corrects_nothing
    (errorCorrectionBlockSize : Z) (alice bob corrected : list Bit)
    (errorsCorrectedCount : nat) :
  (0 < errorCorrectionBlockSize)%Z →
  length alice = length bob →
  errorCorrection errorCorrectionBlockSize alice bob
  = Some (corrected, errorsCorrectedCount) →
  let size := Z.to_nat errorCorrectionBlockSize in
  (∀ k, parity (block size k alice) = parity (block size k corrected))
  ∧ errorCorrection errorCorrectionBlockSize alice corrected
    = Some (corrected, 0).
Proof.
  intros Hbs Hlen Hec size.
  destruct (errorCorrection_ends _ alice bob Hbs Hlen)
    as (corrected' & Hec' & Hlength & Hblocks).
  rewrite Hec in Hec'. injection Hec' as <- _. fold size in Hblocks.
  assert (Hparity : ∀ k, parity (block size k alice)
                         = parity (block size k corrected)).
  { intros k. eapply block_reconciled_parity; [| apply Hblocks].
    by apply block_same_length. }
  split; [done |].
  destruct (errorCorrection_ends _ alice corrected Hbs (eq_sym Hlength))
    as (again & -> & Hlength' & Hagain).
  fold size in Hagain |- *. f_equal. f_equal.
  - apply (blocks_determine_the_key size); [lia |]. intros k.
    destruct (Hagain k) as [[_ ->] | [Hne _]]; [done |].
    by destruct Hne.
  - rewrite filter_none; [done |]. intros k _ Hne. by destruct Hne.
Qed.

Lemma a_second_pass_corrects_nothing_witness :
  let alice := [ZERO; ONE; ONE; ZERO; ONE; ZERO] in
  let bob := [ZERO; ZERO; ONE; ZERO; ZERO; ONE] in
  let corrected := [ZERO; ONE; ONE; ZERO; ZERO; ONE] in
  errorCorrection 4 alice bob = Some (corrected, 1)
  ∧ corrected ≠ alice
  ∧ errorCorrection 4 alice corrected = Some (corrected, 0).
Proof.
  split; [reflexivity |]. split; [discriminate |].
  apply (a_second_pass_corrects_nothing 4
           [ZERO; ONE; ONE; ZERO; ONE; ZERO]
           [ZERO; ZERO; ONE; ZERO; ZERO; ONE]
           [ZERO; ONE; ONE; ZERO; ZERO; ONE] 1).
  - lia.
  - reflexivity.
  - reflexivity.
Defined.

Lemma disagreements_insert alice shared p a :
  alice !! p = Some a → shared !! p ≠ Some a →
  length shared = length alice →
  S (disagreements alice (<[p := a]> shared)) = disagreements alice shared.
Proof.
  intros Ha Hne Hlen. unfold disagreements.
  pose proof (lookup_lt_Some _ _ _ Ha) as Hp.
  replace (length alice) with (p + S (length alice - S p)) by lia.
  rewrite seq_app, !filter_app, !length_app. cbn [seq Nat.add].
  rewrite !filter_cons.
  rewrite decide_False, decide_True; first last.
  - rewrite list_lookup_insert_eq by lia. rewrite Ha. tauto.
  - rewrite Ha. congruence.
  - cbn [length]. rewrite Nat.add_succ_r. f_equal.
    f_equal; [f_equal | f_equal]; apply filter_ext_elem_of;
      intros i Hi; apply elem_of_seq in Hi;
      rewrite list_lookup_insert_ne by lia; done.
Qed.

(** One iteration of the loop over the blocks: a correction removes one
    disagreement, and no position on which the keys agree is touched. *)
Lemma reconcile_block_disagreements (bs : Z) alice k shared count :
  (0 < bs)%Z → length shared = length alice →
  let state :=
    reconcile_block bs alice (Z.of_nat (k * Z.to_nat bs)) (shared, count) in
  length state.1 = length alice
  ∧ disagreements alice state.1 + state.2
    = disagreements alice shared + count
  ∧ ∀ i, alice !! i = shared !! i → state.1 !! i = alice !! i.
Proof.
  intros Hbs Hlen state. subst state.
  destruct (reconcile_block_spec bs alice k shared count Hbs Hlen)
    as [[_ ->] | (_ & j & a & Hj & [Hdiff _] & Ha & ->)]; [done |].
  rewrite !block_lookup in * by done. cbn [fst snd].
  split_and!.
  - by rewrite length_insert.
  - rewrite <- (disagreements_insert alice shared
                  (k * Z.to_nat bs + j) a); [lia | done | | done].
    congruence.
  - intros i Hi. rewrite list_lookup_insert_ne; [done |].
    intros <-. congruence.
Qed.

Lemma reconcile_loop_disagreements (bs : Z) alice fuel :
  (0 < bs)%Z →
  ∀ k shared count result,
    length shared = length alice →
    reconcile_loop fuel bs alice (Z.of_nat (k * Z.to_nat bs)) (shared, count)
    = Some result →
    disagreements alice result.1 + result.2
    = disagreements alice shared + count
    ∧ ∀ i, alice !! i = shared !! i → result.1 !! i = alice !! i.
Proof.
  intros Hbs.
  induction fuel as [| fuel IH]; intros k shared count result Hlen; simpl;
    destruct (_ <? _)%Z; intros Hloop; try done;
    try (injection Hloop as <-; done).
  destruct (reconcile_block_disagreements bs alice k shared count Hbs Hlen)
    as (Hlen' & Hcount & Hkept).
  cbv zeta in Hlen', Hcount, Hkept.
  destruct (reconcile_block _ _ _ _) as [shared' count'].
  replace (Z.of_nat (k * Z.to_nat bs) + bs)%Z
    with (Z.of_nat (S k * Z.to_nat bs)) in Hloop by lia.
  destruct (IH (S k) shared' count' result Hlen' Hloop) as [Hsum Hsame].
  simpl in *. split; [lia |].
  intros i Hi. rewrite Hsame; [done |]. by rewrite Hkept.
Qed.

Lemma disagreements_none alice bob :
  length alice = length bob → (disagreements alice bob = 0 ↔ bob = alice).
Proof.
  intros Hlen. unfold disagreements. split.
  - intros Hnone. apply length_zero_iff_nil in Hnone.
    apply list_eq. intros i.
    destruct (decide (i < length alice)) as [Hi | Hi].
    + destruct (decide (alice !! i = bob !! i)) as [| Hne]; [done |].
      exfalso. eapply (filter_nil_not_elem_of _ _ i Hnone Hne).
      apply elem_of_seq. lia.
    + rewrite !lookup_ge_None_2; [done | lia..].
  - intros ->. rewrite filter_none; [done |]. intros i _ Hne. by apply Hne.
Qed.

(** X8. Every correction removes one disagreement and nothing else
    changes: the corrected key differs from Alice's at
    [errorsCorrectedCount] positions fewer than Bob's key did, and it
    keeps every bit on which Bob agreed with Alice. So the pass never
    introduces an error, it corrects no more than there are, and it
    returns Alice's key exactly when the counter reaches the number of
    errors. *)
Theorem every_correction_removes_one_disagreement
    (errorCorrectionBlockSize : Z) (alice bob corrected : list Bit)
    (errorsCorrectedCount : nat) :
  (0 < errorCorrectionBlockSize)%Z →
  length alice = length bob →
  errorCorrection errorCorrectionBlockSize alice bob
  = Some (corrected, errorsCorrectedCount) →
  disagreements alice corrected + errorsCorrectedCount
  = disagreements alice bob
  ∧ (∀ i, alice !! i = bob !! i → corrected !! i = alice !! i)
  ∧ (corrected = alice ↔ errorsCorrectedCount = disagreements alice bob).
Proof.
  intros Hbs Hlen Hec. unfold errorCorrection in Hec.
  destruct (reconcile_loop_disagreements errorCorrectionBlockSize alice
              (length alice) Hbs 0 bob 0 (corrected, errorsCorrectedCount)
              (eq_sym Hlen) Hec) as [Hsum Hkept].
  simpl in Hsum. split_and!; [lia | done |].
  assert (Hlength : length alice = length corrected).
  { symmetry. rewrite (errorCorrection_length _ _ _ _ _ Hec). done. }
  rewrite <- (disagreements_none alice corrected Hlength). lia.
Qed.

Lemma every_correction_removes_one_disagreement_witness :
  let alice := [ZERO; ONE; ONE; ZERO; ONE; ZERO] in
  let bob := [ZERO; ZERO; ONE; ZERO; ZERO; ONE] in
  let corrected := [ZERO; ONE; ONE; ZERO; ZERO; ONE] in
  disagreements alice bob = 3
  ∧ disagreements alice corrected + 1 = disagreements alice bob.
Proof.
  split; [reflexivity |].
  apply (every_correction_removes_one_disagreement 4
           [ZERO; ONE; ONE; ZERO; ONE; ZERO]
           [ZERO; ZERO; ONE; ZERO; ZERO; ONE]
           [ZERO; ONE; ONE; ZERO; ZERO; ONE] 1).
  - lia.
  - reflexivity.
  - reflexivity.
Defined.

(** [every] compares Alice's bits with the elements of the other key at
    the same index. *)
Lemma keysMatch_Some alice : ∀ shared,
  keysMatch alice shared = true ↔ ∀ i, i < length alice →
                                       shared !! i = alice !! i.
Proof.
  unfold keysMatch.
  induction alice as [| bit alice IH]; intros shared.
  { simpl. split; [intros _ i Hi; lia | done]. }
  rewrite imap_cons. cbn [forallb id].
  rewrite andb_true_iff, bool_decide_eq_true.
  assert (Hshift : imap ((λ index bit', bool_decide
                            (Some bit' = shared !! index)) ∘ S) alice
                   = imap (λ index bit', bool_decide
                             (Some bit' = drop 1 shared !! index)) alice).
  { apply imap_ext. intros i x _. simpl. by rewrite lookup_drop. }
  rewrite Hshift, IH. split.
  - intros [Hhead Htail] [| i] Hi; [done |].
    specialize (Htail i ltac:(simpl in Hi; lia)).
    by rewrite lookup_drop in Htail.
  - intros Hall. split.
    + symmetry. apply (Hall 0). simpl. lia.
    + intros i Hi. rewrite lookup_drop. apply (Hall (S i)). simpl. lia.
Qed.

Lemma keysMatch_eq alice shared :
  length shared = length alice →
  keysMatch alice shared = true ↔ shared = alice.
Proof.
  intros Hlen. rewrite keysMatch_Some. split.
  - intros Hall. apply list_eq. intros i.
    destruct (decide (i < length alice)); [by apply Hall |].
    rewrite !lookup_ge_None_2; [done | lia..].
  - by intros ->.
Qed.

Lemma remainder_length_le key q : length (remainder key q) ≤ length key.
Proof.
  unfold remainder, Array_slice. rewrite length_take, length_drop. lia.
Qed.

(** The counter of a pass that ends is bounded by the length of the key. *)
Lemma errorCorrection_count_le bs alice bob shared count :
  length alice = length bob →
  errorCorrection bs alice bob = Some (shared, count) →
  count ≤ length alice.
Proof.
  intros Hlen Hec.
  destruct (decide (0 < bs)%Z) as [Hbs | Hbs].
  - destruct (errorCorrection_ends bs alice bob Hbs Hlen)
      as (corrected & Hec' & _).
    rewrite Hec in Hec'. injection Hec' as _ ->.
    etrans; [apply length_filter |]. by rewrite length_seq.
  - unfold errorCorrection in Hec. destruct alice as [| bit alice].
    + simpl in Hec. injection Hec as _ <-. lia.
    + rewrite reconcile_loop_stuck in Hec by (simpl; lia). done.
Qed.

(** X9. The log tells the truth about reconciliation. On every run that
    gets as far, the entry on successfully reconciled keys is written
    exactly when Bob's corrected key is Alice's key after the sample, and
    the entry on a mismatch exactly when it is not; the run goes on to
    privacy amplification in both cases. *)
Theorem the_log_tells_whether_the_keys_were_reconciled
    (params : SimulationParameters) (random : RandomSource)
    (r : SimulationResult) :
  runBB84Simulation params random = Resolved r →
  exit_of r = Some Completed ∨ exit_of r = Some EmptyReconciledKey →
  let sifted := sift (numQubits params) (transmit params random).1 in
  ∃ q shared,
    estimateQBER sifted.1 sifted.2 (qberSampleSize params) = Some q
    ∧ errorCorrection (errorCorrectionBlockSize params)
        (remainder sifted.1 q) (remainder sifted.2 q)
      = Some (shared, errorsCorrected r)
    ∧ (LogKeysReconciled ∈ log r ↔ shared = remainder sifted.1 q)
    ∧ (LogKeysMismatch ∈ log r ↔ shared ≠ remainder sifted.1 q).
Proof.
  intros Hrun Hexit sifted. subst sifted.
  destruct (run_resolved _ _ _ Hrun)
    as [[_ ->] | (q & _ & Hq & [[_ ->] | (shared & count & _ & Hec & ->)])].
  - rewrite exit_of_emptySiftResult in Hexit. by destruct Hexit.
  - rewrite exit_of_eveDetectedResult in Hexit. by destruct Hexit.
  - exists q, shared.
    pose proof (errorCorrection_length _ _ _ _ _ Hec) as Hlen.
    rewrite <- (remainder_same_length params random q) in Hlen.
    pose proof (keysMatch_eq _ shared Hlen) as Hmatch.
    pose proof (transmissionLog_entries params LogKeysReconciled) as Hstart1.
    pose proof (transmissionLog_entries params LogKeysMismatch) as Hstart2.
    assert (Hnotes : (LogKeysReconciled ∉ qberNotes params q)
                     ∧ (LogKeysMismatch ∉ qberNotes params q)).
    { unfold qberNotes. repeat case_match;
        rewrite ?elem_of_cons, !elem_of_nil; intuition discriminate. }
    destruct Hnotes as [Hnotes1 Hnotes2].
    match goal with
    | |- context [ privacyAmplification ?p ?s ?q ?n ?k ?c ?l ] =>
        destruct (privacyAmplification_exit p s q n k c l)
          as (_ & Hcount & _ & [(_ & _ & _ & _ & _ & Hlog)
                               | (_ & _ & _ & _ & _ & Hlog)])
    end; cbv zeta in Hlog, Hcount; rewrite Hlog, Hcount;
      (split_and!; [done | done | |]);
      rewrite !elem_of_app, ?elem_of_cons, ?elem_of_nil;
      destruct (keysMatch _ _);
      (split; [intros Hin | intros Hshared]);
      try (by apply Hmatch);
      try (by intros Hsame; apply Hmatch in Hsame);
      try (exfalso; apply Hshared; by apply Hmatch);
      try (exfalso; intuition discriminate);
      tauto.
Qed.

Lemma the_log_tells_whether_the_keys_were_reconciled_witness :
  let params := parameters 16 25 4 128 true false in
  let sifted := sift (numQubits params) (transmit params runs_of_three).1 in
  ∃ r q shared,
    runBB84Simulation params runs_of_three = Resolved r
    ∧ errorCorrection (errorCorrectionBlockSize params)
        (remainder sifted.1 q) (remainder sifted.2 q)
      = Some (shared, errorsCorrected r)
    ∧ shared ≠ remainder sifted.1 q
    ∧ LogKeysMismatch ∈ log r.
Proof.
  intros params sifted.
  assert (∃ r, runBB84Simulation params runs_of_three = Resolved r
               ∧ exit_of r = Some Completed
               ∧ log r !! 11 = Some LogKeysMismatch)
    as (r & Hrun & Hexit & Hlog).
  { eexists. split_and!; vm_compute; reflexivity. }
  apply list_elem_of_lookup_2 in Hlog.
  destruct (the_log_tells_whether_the_keys_were_reconciled params
              runs_of_three r Hrun (or_introl Hexit))
    as (q & shared & _ & Hec & _ & Hmismatch).
  exists r, q, shared. split_and!; [done | done | | done].
  by apply Hmismatch.
Defined.

(** X10. The counts of a result are in order: a run never reports more
    corrections than the key it reports has bits, nor a longer key than
    the qubits that were sent. *)
Theorem the_counts_of_a_result_are_in_order
    (params : SimulationParameters) (random : RandomSource)
    (r : SimulationResult) :
  runBB84Simulation params random = Resolved r →
  initialQubits r = numQubits params
  ∧ errorsCorrected r ≤ siftedKeyLength r
  ∧ siftedKeyLength r ≤ Z.to_nat (numQubits params).
Proof.
  intros Hrun.
  pose proof (sift_length_le (numQubits params) (transmit params random).1)
    as Hsifted.
  destruct (run_resolved _ _ _ Hrun)
    as [[_ ->] | (q & _ & Hq & [[_ ->] | (shared & count & _ & Hec & ->)])].
  - simpl. split_and!; [done | lia..].
  - simpl. split_and!; [done | lia | done].
  - pose proof (errorCorrection_count_le _ _ _ _ _
                  (remainder_same_length params random q) Hec) as Hcount.
    pose proof (remainder_length_le
                  (sift (numQubits params) (transmit params random).1).1 q)
      as Hremainder.
    pose proof (errorCorrection_length _ _ _ _ _ Hec) as Hlen.
    rewrite <- (remainder_same_length params random q) in Hlen.
    unfold privacyAmplification.
    destruct (decide _) as [Hempty | Hne]; simpl.
    + rewrite join_length in Hempty. split_and!; [done | lia | done].
    + split_and!; [done | lia | lia].
Qed.

Lemma the_counts_of_a_result_are_in_order_witness :
  ∃ r, runBB84Simulation (parameters 16 25 4 128 true false) runs_of_three
       = Resolved r
       ∧ errorsCorrected r ≤ siftedKeyLength r
       ∧ siftedKeyLength r ≤ 16.
Proof.
  assert (∃ r, runBB84Simulation (parameters 16 25 4 128 true false)
                 runs_of_three = Resolved r) as (r & Hrun).
  { eexists. vm_compute. reflexivity. }
  exists r. split; [done |].
  exact (proj2 (the_counts_of_a_result_are_in_order
                  (parameters 16 25 4 128 true false) runs_of_three r Hrun)).
Defined.

(** ** The sample of the QBER estimate *)

(** The quotients [p / 100] for the percentages from 1 on are positive. *)
Lemma percentage_fraction_positive p :
  (1 ≤ p ≤ 100)%Z →
  ∃ m e, div (of_Z p) (of_Z 100) = S754_finite false m e.
Proof.
  intros Hp.
  assert (forallb
            (λ p, match div (of_Z p) (of_Z 100) with
                  | S754_finite false _ _ => true
                  | _ => false
                  end) (seqZ 1 100) = true) as Hall
    by (vm_compute; reflexivity).
  rewrite forallb_forall in Hall.
  specialize (Hall p). rewrite <- list_elem_of_In, elem_of_seqZ in Hall.
  specialize (Hall ltac:(lia)).
  destruct (div (of_Z p) (of_Z 100)) as [| | | [] m e]; try done.
  by exists m, e.
Qed.

(** The ceiling of a positive number is 1 at least. *)
Lemma Math_ceil_positive m e z :
  Math_ceil (S754_finite false m e) = Finite z → (1 ≤ z)%Z.
Proof.
  unfold Math_ceil. cbn [cond_Zopp]. intros Hz. injection Hz as <-.
  destruct (Z.leb_spec 0 e) as [Hnonneg | Hneg].
  - pose proof (Z.pow_pos_nonneg 2 e ltac:(lia) ltac:(lia)). nia.
  - pose proof (Z.pow_pos_nonneg 2 (- e) ltac:(lia) ltac:(lia)) as HT.
    pose proof (Z.div_mod (- Z.pos m) (2 ^ (- e)) ltac:(lia)) as Hdm.
    pose proof (Z.mod_pos_bound (- Z.pos m) (2 ^ (- e)) HT) as Hr.
    nia.
Qed.

(** A sample of a positive percentage of a key that is not empty is not
    empty. *)
Lemma qberSampleCount_positive (siftedKeyLength : nat) (qberSampleSize : Z) :
  (0 < Z.of_nat siftedKeyLength < 2 ^ 53)%Z →
  (1 ≤ qberSampleSize ≤ 100)%Z →
  ∃ sampleCount,
    qberSampleCount siftedKeyLength qberSampleSize = Finite sampleCount
    ∧ (1 ≤ sampleCount ≤ Z.of_nat siftedKeyLength)%Z.
Proof.
  intros Hlength Hp.
  destruct (qberSampleCount_bounds siftedKeyLength qberSampleSize)
    as (sampleCount & Hcount & Hbounds); [lia | lia |].
  exists sampleCount. split; [done |]. split; [| lia].
  revert Hcount. unfold qberSampleCount, of_nat.
  pose proof (percentage_fraction qberSampleSize ltac:(lia)) as Hx.
  destruct (percentage_fraction_positive qberSampleSize Hp)
    as (mx & ex & Hdiv).
  rewrite Hdiv in Hx |- *. destruct Hx as [Hex _].
  destruct (of_Z_le (Z.of_nat siftedKeyLength) ltac:(lia))
    as (my & ey & -> & Hey & _).
  unfold mul, SFmul. cbn [xorb].
  pose proof (binary_round_aux_sign false (Z.pos (my * mx)) (ey + ex)
                loc_Exact ltac:(lia)
                ltac:(unfold emin, prec, emax; lia)) as Hround.
  destruct (binary_round_aux _ _ _ _ _ _) as [| [] | | [] m e]; try done.
  apply Math_ceil_positive.
Qed.

(** X11. For a percentage from 1 to 100 and a sifted key that is not
    empty, the QBER sample is a prefix of the sifted key that is not empty
    and the rest goes on to reconciliation: sample and remainder together
    are the sifted key, bit for bit, for Alice and for Bob. The errors are
    the disagreements within the sample, as many as the sample has bits at
    most, and the rate is their quotient by the sample count; the guard
    against a division by zero is never needed. This holds although the
    count is computed in binary64 arithmetic. *)
Theorem the_sample_is_a_prefix_that_is_not_empty
    (params : SimulationParameters) (random : RandomSource) :
  let sifted := sift (numQubits params) (transmit params random).1 in
  (numQubits params ≤ MAX_ARRAY_LENGTH)%Z →
  (1 ≤ qberSampleSize params ≤ 100)%Z →
  sifted.1 ≠ [] →
  ∃ q sampleCount,
    estimateQBER sifted.1 sifted.2 (qberSampleSize params) = Some q
    ∧ sampleSize q = Finite (Z.of_nat sampleCount)
    ∧ 1 ≤ sampleCount ≤ length sifted.1
    ∧ take sampleCount sifted.1 ++ remainder sifted.1 q = sifted.1
    ∧ take sampleCount sifted.2 ++ remainder sifted.2 q = sifted.2
    ∧ errors q
      = disagreements (take sampleCount sifted.1) (take sampleCount sifted.2)
    ∧ errors q ≤ sampleCount
    ∧ qber q = div (of_nat (errors q)) (of_nat sampleCount).
Proof.
  intros sifted Hmax Hp Hne.
  pose proof (sift_length_le (numQubits params) (transmit params random).1)
    as Hlength.
  pose proof (sift_length (numQubits params) (transmit params random).1)
    as Hsame.
  fold sifted in Hlength, Hsame.
  destruct (qber_stage params random Hmax ltac:(lia))
    as (q & z & Hq & Hsample & Hbounds & Herrors & Hqber & HA & HB).
  fold sifted in Hq, Hbounds, Herrors, HA, HB.
  destruct (qberSampleCount_positive (length sifted.1) (qberSampleSize params))
    as (z' & Hcount & Hpositive); [| done |].
  { unfold MAX_ARRAY_LENGTH in Hmax. destruct sifted.1; [done |].
    simpl in *. lia. }
  destruct (estimateQBER_spec _ _ _ _ Hq) as [Hsample' _].
  fold (qberSampleCount (length sifted.1) (qberSampleSize params))
    in Hsample'.
  rewrite Hcount, Hsample in Hsample'. injection Hsample' as ->.
  exists q, (Z.to_nat z').
  rewrite Z2Nat.id by lia.
  assert (Herr : errors q
                 = disagreements (take (Z.to_nat z') sifted.1)
                     (take (Z.to_nat z') sifted.2)).
  { rewrite Herrors. unfold disagreements.
    rewrite length_take, Nat.min_l by lia. f_equal.
    apply filter_ext_elem_of. intros i Hi. apply elem_of_seq in Hi.
    by rewrite !lookup_take_lt by lia. }
  split_and!; try done; try lia.
  - rewrite HA. apply take_drop.
  - rewrite HB. apply take_drop.
  - rewrite Herrors. etrans; [apply length_filter |]. by rewrite length_seq.
  - rewrite Hqber. destruct (Z.ltb_spec 0 z'); [| lia].
    unfold of_nat. by rewrite Z2Nat.id by lia.
Qed.

Lemma the_sample_is_a_prefix_that_is_not_empty_witness :
  let params := parameters 100 7 32 128 false false in
  let sifted := sift (numQubits params) (transmit params always_below).1 in
  ∃ q sampleCount,
    estimateQBER sifted.1 sifted.2 (qberSampleSize params) = Some q
    ∧ sampleSize q = Finite (Z.of_nat sampleCount)
    ∧ 1 ≤ sampleCount ≤ length sifted.1
    ∧ take sampleCount sifted.1 ++ remainder sifted.1 q = sifted.1.
Proof.
  cbv zeta.
  pose proof (the_sample_is_a_prefix_that_is_not_empty
                (parameters 100 7 32 128 false false) always_below) as Hthe.
  cbv zeta in Hthe.
  destruct Hthe as (q & sampleCount & Hq & Hsample & Hbounds & Hsplit & _).
  - vm_compute. discriminate.
  - simpl. lia.
  - intros Hnil. apply (f_equal length) in Hnil. vm_compute in Hnil.
    discriminate.
  - exists q, sampleCount.
    exact (conj Hq (conj Hsample (conj Hbounds Hsplit))).
Defined.

(** ** A sample of 100 percent *)

Section WholeSample.
Local Open Scope Z_scope.

(** One shift to the exponent of the format loses nothing of a value that
    is an integer below [2 ^ 53]. *)
Lemma shr_fexp_value m e B :
  0 < m → -1074 ≤ e → 0 < B < 2 ^ 53 →
  m * 2 ^ (e + 1074) = B * 2 ^ 1074 →
  let result := shr_fexp prec emax m e loc_Exact in
  loc_of_shr_record result.1 = loc_Exact
  ∧ 0 < shr_m result.1 ∧ e ≤ result.2
  ∧ shr_m result.1 * 2 ^ (result.2 + 1074) = B * 2 ^ 1074.
Proof.
  intros Hm He HB Hvalue result.
  destruct (shr_fexp_exact m e Hm) as [[Hn Heq] | (Hn & Hq & He1 & Hexact)];
    fold result in Heq || fold result in Hq, He1, Hexact.
  { rewrite Heq. simpl. split_and!; [done | lia | lia | done]. }
  set (n := fexp prec emax (Zdigits2 m + e) - e) in *.
  destruct m as [| p | p]; try lia. simpl Zdigits2 in *.
  pose proof (digits2_pos_lower p) as Hlow.
  set (d := Z.pos (digits2_pos p)) in *.
  assert (Hfexp : fexp prec emax (d + e) = d + e - 53).
  { unfold fexp, emin, prec, emax in *. lia. }
  assert (Hnd : n = d - 53) by (subst n; lia).
  pose proof (Z.pow_pos_nonneg 2 1074 ltac:(lia) ltac:(lia)) as H1074.
  assert (Hneg : e < 0).
  { destruct (Z.lt_ge_cases e 0) as [| Hge]; [done | exfalso].
    assert (2 ^ 53 ≤ 2 ^ (d - 1)) by (apply Z.pow_le_mono_r; lia).
    rewrite Z.pow_add_r in Hvalue by lia.
    pose proof (Z.pow_pos_nonneg 2 e ltac:(lia) ltac:(lia)). nia. }
  assert (Hp : Z.pos p = B * 2 ^ (- e)).
  { replace (2 ^ 1074) with (2 ^ (- e) * 2 ^ (e + 1074)) in Hvalue
      by (rewrite <- Z.pow_add_r by lia; f_equal; lia).
    pose proof (Z.pow_pos_nonneg 2 (e + 1074) ltac:(lia) ltac:(lia)).
    nia. }
  assert (Hle : n ≤ - e).
  { destruct (Z.le_gt_cases n (- e)) as [| Hgt]; [done | exfalso].
    assert (2 ^ 53 * 2 ^ (- e) ≤ 2 ^ (d - 1))
      by (rewrite <- Z.pow_add_r by lia; apply Z.pow_le_mono_r; lia).
    pose proof (Z.pow_pos_nonneg 2 (- e) ltac:(lia) ltac:(lia)). nia. }
  assert (Hsplit : 2 ^ (- e) = 2 ^ (- e - n) * 2 ^ n)
    by (rewrite <- Z.pow_add_r by lia; f_equal; lia).
  pose proof (Z.pow_pos_nonneg 2 n ltac:(lia) ltac:(lia)) as Hpown.
  pose proof (Z.pow_pos_nonneg 2 (- e - n) ltac:(lia) ltac:(lia)) as Hpowr.
  assert (Hquot : Z.pos p / 2 ^ n = B * 2 ^ (- e - n)).
  { rewrite Hp, Hsplit, Z.mul_assoc. apply Z.div_mul. lia. }
  split_and!.
  - apply Hexact. exists (B * 2 ^ (- e - n)). rewrite Hp, Hsplit. lia.
  - rewrite Hq, Hquot. nia.
  - lia.
  - rewrite Hq, He1, Hquot.
    replace (2 ^ 1074) with (2 ^ (- e - n) * 2 ^ (e + n + 1074))
      by (rewrite <- Z.pow_add_r by lia; f_equal; lia).
    lia.
Qed.

(** Rounding leaves an integer below [2 ^ 53] as it is. *)
Lemma binary_round_aux_exact sx m e B :
  0 < m → -1074 ≤ e → 0 < B < 2 ^ 53 →
  m * 2 ^ (e + 1074) = B * 2 ^ 1074 →
  ∃ m' e',
    binary_round_aux prec emax sx m e loc_Exact = S754_finite sx m' e'
    ∧ e ≤ e'
    ∧ Z.pos m' * 2 ^ (e' + 1074) = B * 2 ^ 1074.
Proof.
  intros Hm He HB Hvalue. unfold binary_round_aux.
  pose proof (shr_fexp_value m e B Hm He HB Hvalue) as Hfirst.
  destruct (shr_fexp prec emax m e loc_Exact) as [mrs1 e1].
  simpl in Hfirst. destruct Hfirst as (-> & Hm1 & He1 & Hvalue1).
  cbn [round_nearest_even].
  pose proof (shr_fexp_value (shr_m mrs1) e1 B Hm1 ltac:(lia) HB Hvalue1)
    as Hsecond.
  destruct (shr_fexp prec emax (shr_m mrs1) e1 loc_Exact) as [mrs2 e2].
  simpl in Hsecond. destruct Hsecond as (_ & Hm2 & He2 & Hvalue2).
  destruct (shr_m mrs2) as [| m2 | m2]; try lia.
  pose proof (scaled_exponent_bound (Z.pos m2) e2 B ltac:(lia) ltac:(lia)
                ltac:(lia) ltac:(lia)) as Hfinite.
  destruct (Z.leb_spec e2 (emax - prec)) as [_ | Hover].
  - exists m2, e2. split_and!; [done | lia | done].
  - unfold emax, prec in Hover. lia.
Qed.

(** An integer below [2 ^ 53] is a number of its own value. *)
Lemma of_Z_exact z :
  0 < z < 2 ^ 53 →
  ∃ m e, of_Z z = S754_finite false m e
         ∧ -52 ≤ e
         ∧ Z.pos m * 2 ^ (e + 1074) = z * 2 ^ 1074.
Proof.
  intros [Hpos Hlt]. destruct z as [| q | q]; try lia.
  unfold of_Z, binary_normalize, binary_round.
  pose proof (digits2_pos_lower q) as Hlow.
  set (d := Z.pos (digits2_pos q)) in *.
  assert (d ≤ 53) as Hd.
  { destruct (Z.le_gt_cases d 53) as [| Hgt]; [done | exfalso].
    assert (2 ^ 53 ≤ 2 ^ (d - 1)) by (apply Z.pow_le_mono_r; lia). lia. }
  assert (fexp prec emax (d + 0) = d - 53) as ->.
  { unfold fexp, emin, prec, emax. lia. }
  unfold shl_align.
  destruct (d - 53 - 0) as [| k | k] eqn:Hk; try lia.
  - destruct (binary_round_aux_exact false (Z.pos q) 0 (Z.pos q))
      as (m & e & Heq & He & Hvalue); [lia.. |].
    exists m, e. split_and!; [done | lia | done].
  - destruct (binary_round_aux_exact false (Z.pos (Pos.iter xO q k)) (d - 53)
                (Z.pos q))
      as (m & e & Heq & He & Hvalue); [lia | lia | lia | |].
    + rewrite iter_xO_value. rewrite <- Z.mul_assoc, <- Z.pow_add_r by lia.
      replace (Z.pos k + (d - 53 + 1074)) with 1074 by lia. lia.
    + exists m, e. split_and!; [done | lia | done].
Qed.

(** The ceiling of a number whose value is an integer is that integer. *)
Lemma Math_ceil_exact m e B :
  -1074 ≤ e → Z.pos m * 2 ^ (e + 1074) = B * 2 ^ 1074 →
  Math_ceil (S754_finite false m e) = Finite B.
Proof.
  intros He Hvalue. unfold Math_ceil. cbn [cond_Zopp]. f_equal.
  pose proof (Z.pow_pos_nonneg 2 1074 ltac:(lia) ltac:(lia)).
  destruct (Z.leb_spec 0 e) as [Hnonneg | Hneg].
  - rewrite Z.pow_add_r in Hvalue by lia. nia.
  - replace (2 ^ 1074) with (2 ^ (- e) * 2 ^ (e + 1074)) in Hvalue
      by (rewrite <- Z.pow_add_r by lia; f_equal; lia).
    pose proof (Z.pow_pos_nonneg 2 (e + 1074) ltac:(lia) ltac:(lia)).
    pose proof (Z.pow_pos_nonneg 2 (- e) ltac:(lia) ltac:(lia)).
    assert (Hm : Z.pos m = B * 2 ^ (- e)) by nia.
    rewrite Hm, <- Z.mul_opp_l, Z.div_mul by lia. lia.
Qed.

(** All of a sifted key is sampled when the percentage is 100. *)
Lemma qberSampleCount_whole (siftedKeyLength : nat) :
  Z.of_nat siftedKeyLength < 2 ^ 53 →
  qberSampleCount siftedKeyLength 100
  = Finite (Z.of_nat siftedKeyLength).
Proof.
  intros Hlength. unfold qberSampleCount, of_nat.
  assert (Hone : div (of_Z 100) (of_Z 100)
                 = S754_finite false 4503599627370496 (-52))
    by (vm_compute; reflexivity).
  rewrite Hone.
  destruct (Z.eq_dec (Z.of_nat siftedKeyLength) 0) as [-> | Hnonzero].
  { reflexivity. }
  destruct (of_Z_exact (Z.of_nat siftedKeyLength) ltac:(lia))
    as (my & ey & -> & Hey & Hy).
  unfold mul, SFmul. cbn [xorb].
  destruct (binary_round_aux_exact false
              (Z.pos (my * 4503599627370496)) (ey + -52)
              (Z.of_nat siftedKeyLength))
    as (m & e & -> & He & Hvalue); [lia | lia | lia | |].
  - rewrite Pos2Z.inj_mul, <- Hy.
    replace (2 ^ (ey + 1074)) with (2 ^ 52 * 2 ^ (ey + -52 + 1074))
      by (rewrite <- Z.pow_add_r by lia; f_equal; lia).
    change (2 ^ 52) with 4503599627370496. lia.
  - apply Math_ceil_exact; [lia | done].
Qed.

End WholeSample.

(** X12. A sample of 100 percent leaves no key. With [qberSampleSize] at
    100, the largest value the form offers, the sample is the whole sifted
    key, also in binary64 arithmetic, and nothing is left to reconcile:
    every such run resolves, for any block size, with empty keys and no
    correction, at the exit of the empty sifted key, of the alert or of
    the empty reconciled key. Its QBER result counts the disagreements of
    the whole sifted key. *)
Theorem a_sample_of_100_percent_leaves_no_key
    (params : SimulationParameters) (random : RandomSource) :
  (numQubits params ≤ MAX_ARRAY_LENGTH)%Z →
  qberSampleSize params = 100%Z →
  let sifted := sift (numQubits params) (transmit params random).1 in
  ∃ r, runBB84Simulation params random = Resolved r
       ∧ finalKeyAlice r = "" ∧ finalKeyBob r = ""
       ∧ errorsCorrected r = 0
       ∧ (exit_of r = Some EmptySift ∨ exit_of r = Some EveDetected
          ∨ exit_of r = Some EmptyReconciledKey)
       ∧ ∀ q, qberResult r = Some q →
              sampleSize q = Finite (Z.of_nat (length sifted.1))
              ∧ errors q = disagreements sifted.1 sifted.2.
Proof.
  intros Hmax Hp sifted.
  rewrite run_outcome by done. cbv zeta. fold sifted.
  destruct (decide (length sifted.1 = 0)) as [Hempty | Hne].
  { eexists. split; [done |]. rewrite exit_of_emptySiftResult.
    split_and!; try done. by left. }
  pose proof (sift_length_le (numQubits params) (transmit params random).1)
    as Hlength.
  fold sifted in Hlength.
  destruct (qber_stage params random Hmax ltac:(lia))
    as (q & z & Hq & Hsample & Hbounds & Herrors & _ & HA & HB).
  fold sifted in Hq, Hbounds, Herrors, HA, HB.
  destruct (estimateQBER_spec _ _ _ _ Hq) as [Hsample' _].
  fold (qberSampleCount (length sifted.1) (qberSampleSize params))
    in Hsample'.
  rewrite Hp, qberSampleCount_whole, Hsample in Hsample'
    by (unfold MAX_ARRAY_LENGTH in Hmax; lia).
  injection Hsample' as ->.
  rewrite Nat2Z.id in *.
  assert (Hdis : errors q = disagreements sifted.1 sifted.2) by done.
  rewrite Hq.
  destruct (_ && _).
  { eexists. split; [done |]. rewrite exit_of_eveDetectedResult. simpl.
    split_and!; try done; [by right; left |].
    intros q' Hq'. injection Hq' as <-. done. }
  pose proof (sift_length (numQubits params) (transmit params random).1)
    as Hsame.
  fold sifted in Hsame. rewrite Hsame in HB.
  rewrite HA, HB, !drop_all. unfold errorCorrection. simpl.
  eexists. split; [done |].
  match goal with
  | |- context [ privacyAmplification ?p ?s ?q ?n ?k ?c ?l ] =>
      destruct (privacyAmplification_exit p s q n k c l)
        as (Hqr & Hcount & _ & [(_ & Hexit & _ & HkeyA & HkeyB & _)
                               | (Hshared & _)])
  end; [| by destruct Hshared].
  cbv zeta in Hqr, Hcount, Hexit, HkeyA, HkeyB.
  split_and!; try done; [by right; right |].
  intros q' Hq'. rewrite Hqr in Hq'. injection Hq' as <-. done.
Qed.

Lemma a_sample_of_100_percent_leaves_no_key_witness :
  ∃ r, runBB84Simulation (parameters 8 100 4 128 false false) always_below
       = Resolved r
       ∧ finalKeyAlice r = "" ∧ finalKeyBob r = ""
       ∧ errorsCorrected r = 0.
Proof.
  pose proof (a_sample_of_100_percent_leaves_no_key
                (parameters 8 100 4 128 false false) always_below) as Hthe.
  cbv zeta in Hthe.
  destruct Hthe as (r & Hrun & HkeyA & HkeyB & Hcount & _).
  - vm_compute. discriminate.
  - reflexivity.
  - exists r. exact (conj Hrun (conj HkeyA (conj HkeyB Hcount))).
Defined.

(** ** A sample of 0 percent *)

(** Nothing of a sifted key is sampled when the percentage is 0. *)
Lemma qberSampleCount_none (siftedKeyLength : nat) :
  (Z.of_nat siftedKeyLength < 2 ^ 53)%Z →
  qberSampleCount siftedKeyLength 0 = Finite 0.
Proof.
  intros Hlength. unfold qberSampleCount, of_nat.
  assert (Hzero : div (of_Z 0) (of_Z 100) = S754_zero false)
    by (vm_compute; reflexivity).
  rewrite Hzero.
  destruct (Z.eq_dec (Z.of_nat siftedKeyLength) 0%Z) as [-> | Hnonzero].
  { reflexivity. }
  destruct (of_Z_le (Z.of_nat siftedKeyLength) ltac:(lia))
    as (my & ey & -> & _).
  reflexivity.
Qed.

(** X13. A sample of 0 percent detects nothing. With [qberSampleSize] at
    0 no bit is compared: the QBER result of every run has an empty
    sample, no error and the rate 0, with Eve as without her, so the alert
    of the secure mode is never raised and [eveDetected] is never set. *)
Theorem a_sample_of_0_percent_detects_nothing
    (params : SimulationParameters) (random : RandomSource)
    (r : SimulationResult) :
  qberSampleSize params = 0%Z →
  runBB84Simulation params random = Resolved r →
  eveDetected r = false
  ∧ exit_of r ≠ Some EveDetected
  ∧ ∀ q, qberResult r = Some q →
         sampleSize q = Finite 0 ∧ errors q = 0 ∧ qber q = of_Z 0.
Proof.
  intros Hp Hrun.
  assert (Hmax : (numQubits params ≤ MAX_ARRAY_LENGTH)%Z).
  { unfold runBB84Simulation in Hrun.
    destruct (Z.ltb_spec MAX_ARRAY_LENGTH (numQubits params)); [done | lia]. }
  pose proof (sift_length_le (numQubits params) (transmit params random).1)
    as Hlength.
  assert (Hestimate : ∀ q,
            estimateQBER (sift (numQubits params) (transmit params random).1).1
              (sift (numQubits params) (transmit params random).1).2
              (qberSampleSize params) = Some q →
            sampleSize q = Finite 0 ∧ errors q = 0 ∧ qber q = of_Z 0).
  { intros q Hq. destruct (estimateQBER_spec _ _ _ _ Hq) as [Hsample Hrest].
    fold (qberSampleCount
            (length (sift (numQubits params) (transmit params random).1).1)
            (qberSampleSize params)) in Hsample.
    rewrite Hp, qberSampleCount_none in Hsample
      by (unfold MAX_ARRAY_LENGTH in Hmax; lia).
    destruct (Hrest 0%Z Hsample) as [Herrors Hqber]. done. }
  destruct (run_resolved _ _ _ Hrun)
    as [[_ ->] | (q & _ & Hq & [[Halert ->] | (shared & count & _ & _ & ->)])].
  - rewrite exit_of_emptySiftResult. done.
  - destruct (Hestimate q Hq) as (_ & _ & Hqber). rewrite Hqber in Halert.
    apply andb_true_iff in Halert as [_ Hgt]. vm_compute in Hgt. done.
  - match goal with
    | |- context [ privacyAmplification ?p ?s ?q ?n ?k ?c ?l ] =>
        destruct (privacyAmplification_exit p s q n k c l)
          as (Hqr & _ & Hdetected & [(_ & Hexit & _) | (_ & Hexit & _)])
    end; cbv zeta in Hqr, Hdetected, Hexit;
      rewrite Hqr, Hdetected, Hexit;
      (split_and!; [done | done |]);
      intros q' Hq'; injection Hq' as <-; by apply Hestimate.
Qed.

Lemma a_sample_of_0_percent_detects_nothing_witness :
  ∃ r, runBB84Simulation (parameters 16 0 4 128 true true) runs_of_three
       = Resolved r
       ∧ eveDetected r = false
       ∧ LogKeysMismatch ∈ log r.
Proof.
  assert (∃ r, runBB84Simulation (parameters 16 0 4 128 true true)
                 runs_of_three = Resolved r
               ∧ log r !! 10 = Some LogKeysMismatch) as (r & Hrun & Hlog).
  { eexists. split; vm_compute; reflexivity. }
  exists r.
  destruct (a_sample_of_0_percent_detects_nothing
              (parameters 16 0 4 128 true true) runs_of_three r eq_refl Hrun)
    as (Hdetected & _).
  apply list_elem_of_lookup_2 in Hlog.
  exact (conj Hrun (conj Hdetected Hlog)).
Defined.

(** ** The digest as a string *)

Lemma hex_value_hex_digit d : (0 ≤ d < 16)%Z → hex_value (hex_digit d) = d.
Proof.
  intros Hd.
  assert (∃ n, d = Z.of_nat n ∧ n < 16) as (n & -> & Hn)
    by (exists (Z.to_nat d); lia).
  do 16 (destruct n as [| n]; [reflexivity |]). lia.
Qed.

Lemma hexToBytes_hex bytes :
  Forall (λ b, 0 ≤ b < 256)%Z bytes →
  hexToBytes
    (list_ascii_of_string
       (foldr (λ b hexHash, byte_toHex b +:+ hexHash) EmptyString bytes))
  = bytes.
Proof.
  induction 1 as [| b bytes Hb _ IH]; [done |].
  cbn [foldr]. rewrite byte_toHex_append.
  cbn [list_ascii_of_string hexToBytes]. rewrite IH.
  rewrite !hex_value_hex_digit.
  - f_equal. pose proof (Z.div_mod b 16 ltac:(lia)). lia.
  - apply Z.mod_pos_bound. lia.
  - split; [apply Z.div_pos; lia |]. apply Z.div_lt_upper_bound; lia.
Qed.

Lemma be_bytes_range n : ∀ x,
  Forall (λ b, 0 ≤ b < 256)%Z (SHA256.be_bytes n x).
Proof.
  induction n as [| n IH]; intros x; simpl; [constructor |].
  apply Forall_app. split; [apply IH |].
  constructor; [| constructor]. apply Z.mod_pos_bound. lia.
Qed.

(** X14. [sha256] prints the digest in full: every byte as two lowercase
    hexadecimal digits, a leading zero included, so the string has 64
    characters for every message and the 32 bytes of the digest can be
    read back from it. *)
Theorem sha256_prints_every_byte_as_two_digits (message : string) :
  String.length (sha256 message) = 64
  ∧ forallb lowercase_hex (list_ascii_of_string (sha256 message)) = true
  ∧ hexToBytes (list_ascii_of_string (sha256 message))
    = SHA256.digest (TextEncoder_encode message).
Proof.
  split_and!; [apply sha256_length | apply sha256_lowercase |].
  unfold sha256. apply hexToBytes_hex.
  unfold SHA256.digest. rewrite !Forall_app.
  split_and!; apply be_bytes_range.
Qed.

(** ** The handler of the button *)

(** The two rejections of the service: a number of qubits above 2^32 - 1,
    and a digest that fails on a run that gets to the hash. *)
Lemma run_on_rejected host params random :
  runBB84Simulation_on host params random = RangeError
  ∨ runBB84Simulation_on host params random = DigestFailure
  ↔ (4294967295 < numQubits params)%Z
    ∨ (host = DigestUnsupported
       ∧ ∃ r, runBB84Simulation_on DigestSupported params random = Resolved r
              ∧ exit_of r = Some Completed).
Proof.
  assert (Hrange : runBB84Simulation params random = RangeError
                   ↔ (4294967295 < numQubits params)%Z).
  { unfold runBB84Simulation. change 4294967295%Z with MAX_ARRAY_LENGTH.
    destruct (Z.ltb_spec MAX_ARRAY_LENGTH (numQubits params)); [done |].
    split; [| lia]. by intros ?%siftAndContinue_not_rejected. }
  pose proof (run_no_digest_failure params random) as Hnofailure.
  rewrite run_on_supported, run_on_host.
  destruct (runBB84Simulation params random) as [r | | |] eqn:Hrun.
  - assert (¬ (4294967295 < numQubits params)%Z) as Hmax
      by (intros Hgt; by apply Hrange in Hgt).
    split.
    + intros Hrejected. right.
      destruct host; [by destruct Hrejected |].
      split; [done |]. exists r. split; [done |].
      destruct (exit_of r) as [[] |]; by destruct Hrejected.
    + intros [Hgt | (-> & r' & Hr' & Hexit)]; [done |].
      injection Hr' as <-. rewrite Hexit. by right.
  - split; [intros _ | by left]. left. by apply Hrange.
  - done.
  - split; [by intros [|] |].
    intros [Hgt | (_ & r' & ? & _)]; [| done].
    by apply Hrange in Hgt.
Qed.

(** X15. What the button leaves on the screen, on any host. A call of
    [handleRunSimulation] comes to its end unless the promise of the
    service never settles. It then leaves the loading state off and the
    parameters as they were, and it shows either the result of this run or
    an error text, never both and never anything of an earlier run. The
    error is shown for the two rejections of the service: a number of
    qubits above 2^32 - 1, and a digest that fails on a run that gets to
    the hash; a run that ends at an early exit shows its result also on a
    host without the digest. For parameters in their domain and a digest
    that fulfils, the button always ends with the results on the screen. *)
Theorem the_button_shows_a_result_or_an_error
    (host : Host) (message : string) (random : RandomSource)
    (s : QkdSimulator.State) :
  let params := QkdSimulator.params s in
  let outcome := runBB84Simulation_on host params random in
  (QkdSimulator.handleRunSimulation host message random s = None
   ↔ outcome = NoTermination)
  ∧ (∀ s', QkdSimulator.handleRunSimulation host message random s = Some s' →
       QkdSimulator.isLoading s' = false
       ∧ QkdSimulator.params s' = params
       ∧ (QkdSimulator.showsResults s' = true
          ↔ ∃ r, outcome = Resolved r
                 ∧ QkdSimulator.simulationResult s' = Some r
                 ∧ QkdSimulator.error s' = None)
       ∧ (QkdSimulator.showsError s' = true
          ↔ QkdSimulator.simulationResult s' = None
            ∧ ((4294967295 < numQubits params)%Z
               ∨ (host = DigestUnsupported
                  ∧ ∃ r, runBB84Simulation_on DigestSupported params random
                         = Resolved r
                         ∧ exit_of r = Some Completed)))
       ∧ QkdSimulator.showsResults s' = negb (QkdSimulator.showsError s'))
  ∧ ((numQubits params ≤ 4294967295)%Z →
     (0 ≤ qberSampleSize params ≤ 100)%Z →
     (0 < errorCorrectionBlockSize params)%Z →
     host = DigestSupported →
     ∃ s' r, QkdSimulator.handleRunSimulation host message random s = Some s'
             ∧ QkdSimulator.simulationResult s' = Some r
             ∧ QkdSimulator.showsResults s' = true).
Proof.
  intros params outcome.
  pose proof (run_on_rejected host params random) as Hrejected.
  fold outcome in Hrejected.
  unfold QkdSimulator.handleRunSimulation. fold params. fold outcome.
  split_and!.
  - by destruct outcome.
  - intros s' Hs'.
    assert (Herror :
              ∀ text, QkdSimulator.showsError
                        (QkdSimulator.setIsLoading false
                           (QkdSimulator.setError
                              (Some ("Simulation failed: " +:+ text))
                              (QkdSimulator.handleRunSimulation_start s)))
                      = true) by done.
    destruct outcome as [r | | |] eqn:Houtcome;
      cbn [QkdSimulator.handleRunSimulation_settle] in Hs'; [| | | done];
      injection Hs' as <-.
    + assert (Hnot : ¬ ((4294967295 < numQubits params)%Z
                        ∨ (host = DigestUnsupported
                           ∧ ∃ r, runBB84Simulation_on DigestSupported params
                                    random = Resolved r
                                  ∧ exit_of r = Some Completed))).
      { intros Hyes. apply Hrejected in Hyes as [|]; done. }
      split_and!; try done.
      * split; [intros _; by exists r | done].
      * split; [done | by intros [? _]].
    + assert (Hyes : (4294967295 < numQubits params)%Z
                     ∨ (host = DigestUnsupported
                        ∧ ∃ r, runBB84Simulation_on DigestSupported params
                                 random = Resolved r
                               ∧ exit_of r = Some Completed))
        by (apply Hrejected; by left).
      rewrite Herror. split_and!; try done.
      split; [done | by intros (r & ? & _)].
    + assert (Hyes : (4294967295 < numQubits params)%Z
                     ∨ (host = DigestUnsupported
                        ∧ ∃ r, runBB84Simulation_on DigestSupported params
                                 random = Resolved r
                               ∧ exit_of r = Some Completed))
        by (apply Hrejected; by right).
      rewrite Herror. split_and!; try done.
      split; [done | by intros (r & ? & _)].
  - intros Hmax Hp Hbs ->.
    destruct (run_in_the_domain params random Hmax Hp Hbs) as (r & Hrun).
    subst outcome. rewrite run_on_supported, Hrun. simpl.
    eexists _, r. split; [done |]. split; done.
Qed.

Lemma the_button_shows_a_result_or_an_error_witness :
  let s :=
    {| QkdSimulator.params := parameters 8 20 4 128 false false;
       QkdSimulator.simulationResult := None;
       QkdSimulator.isLoading := false;
       QkdSimulator.error := None |} in
  (∃ s' r, QkdSimulator.handleRunSimulation DigestSupported
             "Invalid array length" always_below QkdSimulator.initialState
           = Some s'
           ∧ QkdSimulator.simulationResult s' = Some r
           ∧ QkdSimulator.showsResults s' = true)
  ∧ ∃ s', QkdSimulator.handleRunSimulation DigestUnsupported
            "The operation is not supported" always_below s
          = Some s'
          ∧ QkdSimulator.showsError s' = true
          ∧ QkdSimulator.showsResults s' = false.
Proof.
  cbv zeta. split.
  - apply (proj2 (proj2 (the_button_shows_a_result_or_an_error
                           DigestSupported "Invalid array length"
                           always_below QkdSimulator.initialState)));
      [simpl; lia | simpl; lia | simpl; lia | reflexivity].
  - assert (∃ s', QkdSimulator.handleRunSimulation DigestUnsupported
                    "The operation is not supported" always_below
                    {| QkdSimulator.params :=
                         parameters 8 20 4 128 false false;
                       QkdSimulator.simulationResult := None;
                       QkdSimulator.isLoading := false;
                       QkdSimulator.error := None |}
                  = Some s'
                  ∧ QkdSimulator.simulationResult s' = None)
      as (s' & Hs' & Hnone).
    { eexists. split; vm_compute; reflexivity. }
    exists s'.
    destruct (proj1 (proj2 (the_button_shows_a_result_or_an_error
                              DigestUnsupported
                              "The operation is not supported" always_below
                              {| QkdSimulator.params :=
                                   parameters 8 20 4 128 false false;
                                 QkdSimulator.simulationResult := None;
                                 QkdSimulator.isLoading := false;
                                 QkdSimulator.error := None |})) s' Hs')
      as (_ & _ & _ & Herror & Hresults).
    assert (Hshown : QkdSimulator.showsError s' = true).
    { apply Herror. split; [exact Hnone |]. right. split; [reflexivity |].
      eexists. split; vm_compute; reflexivity. }
    rewrite Hresults, Hshown. exact (conj Hs' (conj eq_refl eq_refl)).
Defined.

(** ** The helper [bitsToHex] *)

Lemma pad_loop_spec bits :
  pad_loop 3 bits = bits ++ replicate (padding (length bits)) ZERO.
Proof.
  unfold padding.
  assert (Hcases : length bits mod 4 = 0 ∨ length bits mod 4 = 1
                   ∨ length bits mod 4 = 2 ∨ length bits mod 4 = 3).
  { pose proof (Nat.mod_upper_bound (length bits) 4). lia. }
  assert (Hstep : ∀ l : list Bit,
            length (l ++ [ZERO]) mod 4 = (length l mod 4 + 1) mod 4).
  { intros l. rewrite length_app. change (length [ZERO]) with 1.
    by rewrite Nat.Div0.add_mod_idemp_l. }
  cbn [pad_loop].
  destruct Hcases as [H | [H | [H | H]]];
    rewrite ?Hstep, H; simpl; by rewrite <- ?app_assoc, ?app_nil_r.
Qed.

Lemma padding_spec len : ∃ m, len + padding len = 4 * m ∧ m = (len + 3) / 4.
Proof.
  unfold padding.
  pose proof (Nat.div_mod_eq len 4) as Hdm.
  pose proof (Nat.mod_upper_bound len 4 ltac:(lia)) as Hlt.
  set (q := len / 4) in *. set (r := len mod 4) in *.
  destruct (decide (r = 0)) as [-> | Hr].
  - exists q. split; [simpl; lia |].
    apply (Nat.div_unique _ _ _ 3); lia.
  - exists (S q).
    assert (Hm : (4 - r) mod 4 = 4 - r) by (apply Nat.mod_small; lia).
    rewrite Hm. split; [lia |].
    apply (Nat.div_unique _ _ _ (r - 1)); lia.
Qed.

Lemma pad_loop_length bits :
  length (pad_loop 3 bits) = 4 * ((length bits + 3) / 4).
Proof.
  rewrite pad_loop_spec, length_app, length_replicate.
  destruct (padding_spec (length bits)) as (m & H & ->). done.
Qed.

Lemma parseInt_2_digits_join chunk : ∀ value,
  parseInt_2_digits (join chunk) value
  = match chunk with
    | [] => value
    | _ => Some (fold_left (λ value bit, 2 * value + Bit_value bit)%Z chunk
                   (default 0%Z value))
    end.
Proof.
  induction chunk as [| bit chunk IH]; intros value; [done |].
  destruct bit; cbn [join foldr Bit_digit parseInt_2_digits];
    change (foldr _ EmptyString chunk) with (join chunk);
    rewrite IH; destruct chunk; cbn [fold_left default Bit_value];
    rewrite ?Z.add_0_r; done.
Qed.

Lemma parseInt_2_join chunk :
  chunk ≠ [] → parseInt_2 (join chunk) = Some (chunk_value chunk).
Proof.
  intros Hne. unfold parseInt_2. rewrite parseInt_2_digits_join.
  by destruct chunk.
Qed.

Lemma Number_toString_16_digit (a b c d : Bit) :
  Number_toString_16 (Some (chunk_value [a; b; c; d]))
  = String (hex_digit (chunk_value [a; b; c; d])) EmptyString.
Proof. by destruct a, b, c, d. Qed.

Lemma nibble_chunk_value (a b c d : Bit) :
  nibble (hex_value (hex_digit (chunk_value [a; b; c; d]))) = [a; b; c; d].
Proof. by destruct a, b, c, d. Qed.

Lemma chars_append s1 s2 :
  list_ascii_of_string (s1 +:+ s2)
  = list_ascii_of_string s1 ++ list_ascii_of_string s2.
Proof. induction s1 as [| c s1 IH]; [done |]. simpl. by rewrite IH. Qed.

Lemma chunk_full {A} (l : list A) i :
  i + 4 ≤ length l →
  ∃ a b c d, take 4 (drop i l) = [a; b; c; d].
Proof.
  intros Hi.
  assert (Hlen : length (take 4 (drop i l)) = 4).
  { rewrite length_take, length_drop. lia. }
  destruct (take 4 (drop i l)) as [| a [| b [| c [| d [| e rest]]]]];
    simpl in Hlen; try lia.
  by exists a, b, c, d.
Qed.

(** The loop appends one digit per chunk when every chunk is full. *)
Lemma hex_loop_spec count : ∀ i paddedBits hexString,
  i + 4 * count ≤ length paddedBits →
  list_ascii_of_string (hex_loop count i paddedBits hexString)
  = list_ascii_of_string hexString
    ++ map (λ k, hex_digit (chunk_value (take 4 (drop (i + 4 * k) paddedBits))))
         (seq 0 count).
Proof.
  induction count as [| count IH]; intros i paddedBits hexString Hlen.
  { simpl. by rewrite app_nil_r. }
  cbn [hex_loop]. rewrite IH by lia.
  replace (Z.of_nat (i + 4)) with (Z.of_nat i + 4)%Z by lia.
  rewrite Array_slice_block by lia.
  rewrite Nat2Z.id. change (Z.to_nat 4) with 4.
  destruct (chunk_full paddedBits i ltac:(lia)) as (a & b & c & d & Hchunk).
  rewrite Hchunk, parseInt_2_join by done.
  rewrite Number_toString_16_digit, chars_append.
  cbn [list_ascii_of_string]. rewrite <- app_assoc. f_equal.
  cbn [seq map app]. rewrite Nat.mul_0_r, Nat.add_0_r, Hchunk. f_equal.
  rewrite <- seq_shift, map_map. apply map_ext. intros k.
  by replace (i + 4 + 4 * k) with (i + 4 * S k) by lia.
Qed.

Lemma bitsToHex_chars bits :
  list_ascii_of_string (bitsToHex bits)
  = map (λ k, hex_digit (chunk_value (take 4 (drop (4 * k) (pad_loop 3 bits)))))
      (seq 0 ((length bits + 3) / 4)).
Proof.
  unfold bitsToHex. rewrite hex_loop_spec.
  - rewrite pad_loop_length.
    replace ((4 * ((length bits + 3) / 4) + 3) / 4)
      with ((length bits + 3) / 4).
    + done.
    + apply (Nat.div_unique _ _ _ 3); lia.
  - rewrite pad_loop_length.
    set (m := (length bits + 3) / 4).
    replace ((4 * m + 3) / 4) with m; [lia |].
    apply (Nat.div_unique _ _ _ 3); lia.
Qed.

Lemma decode_chunks count : ∀ (l : list Bit),
  4 * count ≤ length l →
  flat_map (λ c, nibble (hex_value c))
    (map (λ k, hex_digit (chunk_value (take 4 (drop (4 * k) l)))) (seq 0 count))
  = take (4 * count) l.
Proof.
  induction count as [| count IH]; intros l Hlen; [done |].
  destruct l as [| a [| b [| c [| d l]]]]; simpl in Hlen; try lia.
  replace (4 * S count) with (S (S (S (S (4 * count))))) by lia.
  cbn [seq map flat_map]. rewrite Nat.mul_0_r.
  cbn [drop take]. rewrite nibble_chunk_value.
  cbn [app]. do 4 f_equal.
  rewrite <- (IH l) by lia.
  rewrite <- seq_shift, map_map. f_equal. apply map_ext. intros k.
  by replace (4 * S k) with (S (S (S (S (4 * k))))) by lia.
Qed.

(** X16. [bitsToHex] returns one lowercase hexadecimal digit for every four
    bits, the last group counted in full: the string has
    [ceil(bits.length / 4)] characters, all of them among [0-9a-f]; in
    particular the text [NaN] of an unparsable chunk never appears. *)
Theorem bitsToHex_has_a_digit_for_every_four_bits (bits : list Bit) :
  String.length (bitsToHex bits) = (length bits + 3) / 4
  ∧ forallb lowercase_hex (list_ascii_of_string (bitsToHex bits)) = true.
Proof.
  split.
  - rewrite string_length_chars, bitsToHex_chars, length_map, length_seq.
    done.
  - rewrite bitsToHex_chars. apply forallb_forall. intros c Hc.
    apply in_map_iff in Hc as (k & <- & _). apply hex_digit_lowercase.
Qed.

(** X17. [bitsToHex] loses nothing but the length of its input: reading
    every digit of the string as four bits gives the input followed by the
    zero bits of the padding, so two arrays of the same length with the
    same string are the same array. *)
Theorem bitsToHex_can_be_read_back (bits : list Bit) :
  hexToBits (bitsToHex bits)
  = bits ++ replicate (padding (length bits)) ZERO
  ∧ ∀ bits', length bits' = length bits →
      bitsToHex bits' = bitsToHex bits → bits' = bits.
Proof.
  assert (Hback : ∀ l, hexToBits (bitsToHex l)
                       = l ++ replicate (padding (length l)) ZERO).
  { intros l. unfold hexToBits. rewrite bitsToHex_chars.
    rewrite decode_chunks by (rewrite pad_loop_length; lia).
    rewrite <- pad_loop_length, firstn_all. apply pad_loop_spec. }
  split; [apply Hback |].
  intros bits' Hlen Heq.
  pose proof (Hback bits') as H1. rewrite Heq, Hback, Hlen in H1.
  symmetry. by apply app_inv_tail in H1.
Qed.

(** X18. Zero bits at the end that only complete the last group of four do
    not change the string: they are the bits the padding loop would have
    pushed. *)
Theorem bitsToHex_ignores_its_own_padding (bits : list Bit) (k : nat) :
  k ≤ padding (length bits) →
  bitsToHex (bits ++ replicate k ZERO) = bitsToHex bits.
Proof.
  intros Hk.
  assert (Hpad : pad_loop 3 (bits ++ replicate k ZERO) = pad_loop 3 bits).
  { rewrite !pad_loop_spec, length_app, length_replicate, <- app_assoc.
    f_equal. rewrite <- replicate_add. f_equal.
    destruct (padding_spec (length bits)) as (m & Hm & _).
    unfold padding in *.
    pose proof (Nat.mod_upper_bound (length bits) 4 ltac:(lia)).
    pose proof (Nat.div_mod_eq (length bits) 4).
    pose proof (Nat.mod_upper_bound (length bits + k) 4 ltac:(lia)).
    pose proof (Nat.div_mod_eq (length bits + k) 4).
    pose proof (Nat.mod_upper_bound (4 - length bits mod 4) 4 ltac:(lia)).
    pose proof (Nat.div_mod_eq (4 - length bits mod 4) 4).
    pose proof (Nat.mod_upper_bound (4 - (length bits + k) mod 4) 4
                  ltac:(lia)).
    pose proof (Nat.div_mod_eq (4 - (length bits + k) mod 4) 4).
    nia. }
  unfold bitsToHex. by rewrite Hpad.
Qed.

Lemma bitsToHex_ignores_its_own_padding_witness :
  2 ≤ padding (length [ONE; ZERO; ONE; ONE; ZERO])
  ∧ bitsToHex ([ONE; ZERO; ONE; ONE; ZERO] ++ replicate 2 ZERO)
    = bitsToHex [ONE; ZERO; ONE; ONE; ZERO].
Proof.
  split; [vm_compute; lia |].
  apply (bitsToHex_ignores_its_own_padding [ONE; ZERO; ONE; ONE; ZERO] 2).
  vm_compute. lia.
Defined.
